(** * The detection context of build-info: the [Project] class

    A shallow embedding of [Project] (its constructor and its five stage
    accessors) and of [Buck.detect], with the collaborators the class calls
    into (file system, resolvers, registries, settings generation) taken as
    a [World] the accessors are run against.

    JavaScript's [async] functions are embedded as resumptions: a call runs
    up to its first [await], where it is suspended on the state of the
    project it shares with every other call; it is resumed later on the
    state it then finds.

    The other methods of the class (the run command of an npm script, the
    version of Node.js, the readers of package.json) follow, and three
    functions of other packages of the repository: [getCommits] of
    git-utils, and [getExample] and [mergeIntegrations] of config. *)

From Stdlib Require Import Ascii.
From stdpp Require Import base list strings.

Set Default Proof Using "Type".
Open Scope string_scope.
Open Scope list_scope.

(** ** Values *)

(** A thrown JavaScript value. *)
Definition Err := string.

(** How a promise (or a call that may throw) ends. *)
Inductive Outcome (A : Type) : Type :=
| Fulfilled (a : A)
| Failed (e : Err).
Arguments Fulfilled {A} a.
Arguments Failed {A} e.

(** A field of type [T | null] that starts out [undefined]: "if null it's
    not a javascript project, undefined indicates that it did not run yet". *)
Inductive Nullable (A : Type) : Type :=
| Undefined
| Null
| Obj (a : A).
Arguments Undefined {A}.
Arguments Null {A}.
Arguments Obj {A} a.

(** [x !== undefined] *)
Definition is_defined {A} (x : Nullable A) : bool :=
  match x with Undefined => false | _ => true end.

(** A value of type [T | null], as a resolver returns it. *)
Definition of_option {A} (o : option A) : Nullable A :=
  match o with Some a => Obj a | None => Null end.

(** Truthiness of a [string | undefined]. *)
Definition truthy (o : option string) : bool :=
  match o with
  | Some s => negb (String.eqb s "")
  | None => false
  end.

(** [PkgManagerFields] (./package-managers/detect-package-manager.js): the
    declaration is not among the sources; the fields are those the class
    reads ([runCommand]) and the specification's data model names. *)
Record PkgManagerFields : Type := {
  pm_name : string;
  installCommand : string;
  runCommand : string;
  lockFiles : list string;
}.

(** [WorkspaceInfo] (./workspaces/detect-workspace.js): [rootDir] and the
    [path] of each of [packages] are what [detectFrameworks] reads. *)
Record WorkspacePackage : Type := {
  path : string;
  pkg_name : option string;
}.

Record WorkspaceInfo : Type := {
  rootDir : string;
  packages : list WorkspacePackage;
}.

(** [BaseBuildTool]: the fields [Buck] sets. *)
Record BuildSystem : Type := {
  bs_id : string;
  bs_name : string;
  configFiles : list string;
}.

(** [DetectedFramework] (./frameworks/framework.js): the declaration is not
    among the sources; category and confidence are those of the
    specification's data model, the confidence levels being ordered. *)
Inductive Confidence : Type := Lowest | Medium | Highest.

Definition rank (c : Confidence) : nat :=
  match c with Lowest => 0 | Medium => 1 | Highest => 2 end.

Record DetectedFramework : Type := {
  fw_id : string;
  fw_name : string;
  category : string;
  confidence : Confidence;
}.

(** [Settings] (./settings/get-build-settings.js): the declaration is not
    among the sources; the fields are those of the specification's data
    model. *)
Record Settings : Type := {
  buildCommand : string;
  publishDirectory : string;
  settingsBaseDirectory : string;
  derivedFrom : string;
}.

(** [Map<string, DetectedFramework[]>]: a JavaScript [Map] iterates in
    insertion order, and [set] on a key it holds keeps the key's place. *)
Definition FrameworkMap := list (string * list DetectedFramework).

Fixpoint map_set (k : string) (v : list DetectedFramework) (m : FrameworkMap)
  : FrameworkMap :=
  match m with
  | [] => [(k, v)]
  | (k', v') :: m' =>
      if String.eqb k' k then (k, v) :: m' else (k', v') :: map_set k v m'
  end.

Fixpoint map_get (k : string) (m : FrameworkMap) : option (list DetectedFramework) :=
  match m with
  | [] => None
  | (k', v') :: m' => if String.eqb k' k then Some v' else map_get k m'
  end.

(** [[...m.values()].flat()] *)
Definition values_flat (m : FrameworkMap) : list DetectedFramework :=
  concat m.*2.

(** ** The project *)

Record Project : Type := {
  root : option string;
  baseDirectory : string;
  relativeBaseDirectory : string;
  packageManager : Nullable PkgManagerFields;
  workspace : Nullable WorkspaceInfo;
  buildSystems : option (list BuildSystem);
  settings : option (list Settings);
  frameworks : option FrameworkMap;
}.

Definition set_packageManager (v : Nullable PkgManagerFields) (p : Project) : Project :=
  {| root := root p; baseDirectory := baseDirectory p;
     relativeBaseDirectory := relativeBaseDirectory p;
     packageManager := v; workspace := workspace p;
     buildSystems := buildSystems p; settings := settings p;
     frameworks := frameworks p |}.

Definition set_workspace (v : Nullable WorkspaceInfo) (p : Project) : Project :=
  {| root := root p; baseDirectory := baseDirectory p;
     relativeBaseDirectory := relativeBaseDirectory p;
     packageManager := packageManager p; workspace := v;
     buildSystems := buildSystems p; settings := settings p;
     frameworks := frameworks p |}.

Definition set_buildSystems (v : option (list BuildSystem)) (p : Project) : Project :=
  {| root := root p; baseDirectory := baseDirectory p;
     relativeBaseDirectory := relativeBaseDirectory p;
     packageManager := packageManager p; workspace := workspace p;
     buildSystems := v; settings := settings p;
     frameworks := frameworks p |}.

Definition set_settings (v : option (list Settings)) (p : Project) : Project :=
  {| root := root p; baseDirectory := baseDirectory p;
     relativeBaseDirectory := relativeBaseDirectory p;
     packageManager := packageManager p; workspace := workspace p;
     buildSystems := buildSystems p; settings := v;
     frameworks := frameworks p |}.

Definition set_frameworks (v : option FrameworkMap) (p : Project) : Project :=
  {| root := root p; baseDirectory := baseDirectory p;
     relativeBaseDirectory := relativeBaseDirectory p;
     packageManager := packageManager p; workspace := workspace p;
     buildSystems := buildSystems p; settings := settings p;
     frameworks := v |}.

(** ** What a run leaves behind *)

(** The operations of the collaborators that detection logic awaits. *)
Inductive Op : Type :=
| OpDetectPackageManager
| OpDetectWorkspaces
| OpFindUp (names : list string) (cwd : string) (stopAt : option string)
| OpFramework (framework : string) (at_path : option string)
| OpGetBuildSettings.

(** [type Events]: the event name with its payload. *)
Inductive Event : Type :=
| EvDetectPackageManager (data : Nullable PkgManagerFields)
| EvDetectWorkspaces (data : Nullable WorkspaceInfo)
| EvDetectBuildsystems (data : list BuildSystem)
| EvDetectFrameworks (data : FrameworkMap)
| EvDetectSettings (data : list Settings).

(** The journal of a run, oldest entry first: every collaborator operation
    that was started, every [events.emit] and every [report]. *)
Inductive Entry : Type :=
| Called (op : Op)
| Emitted (ev : Event)
| Reported (e : Err).

Record St : Type := {
  proj : Project;
  journal : list Entry;
}.

Definition record (x : Entry) (s : St) : St :=
  {| proj := proj s; journal := journal s ++ [x] |}.

Definition update (f : Project -> Project) (s : St) : St :=
  {| proj := f (proj s); journal := journal s |}.

(** ** Asynchronous functions as resumptions *)

(** A call of an async function, as far as it has run: settled, or suspended
    at an [await] on the state it has reached, to go on from the state it
    is resumed on. *)
Inductive Task (A : Type) : Type :=
| Resolved (a : A) (s : St)
| Rejected (e : Err) (s : St)
| Suspended (s : St) (k : St -> Task A).
Arguments Resolved {A} a s.
Arguments Rejected {A} e s.
Arguments Suspended {A} s k.

Definition Async (A : Type) : Type := St -> Task A.

Fixpoint task_bind {A B} (t : Task A) (f : A -> Async B) : Task B :=
  match t with
  | Resolved a s => f a s
  | Rejected e s => Rejected e s
  | Suspended s k => Suspended s (fun s' => task_bind (k s') f)
  end.

(** [try { t } catch (e) { h e }] *)
Fixpoint task_catch {A} (t : Task A) (h : Err -> Async A) : Task A :=
  match t with
  | Resolved a s => Resolved a s
  | Rejected e s => h e s
  | Suspended s k => Suspended s (fun s' => task_catch (k s') h)
  end.

Definition ret {A} (a : A) : Async A := fun s => Resolved a s.
Definition throw {A} (e : Err) : Async A := fun s => Rejected e s.

(** Sequencing, and with it [await] of a call of one of the class's own
    async functions: the caller goes on where the callee has settled (the
    turn of the event loop that [await] takes even then is not kept). *)
Definition bind {A B} (m : Async A) (f : A -> Async B) : Async B :=
  fun s => task_bind (m s) f.
Definition try_catch {A} (m : Async A) (h : Err -> Async A) : Async A :=
  fun s => task_catch (m s) h.

Notation "x <- m ;; k" := (bind m (fun x => k))
  (at level 100, m at next level, right associativity).
Notation "m ;;; k" := (bind m (fun _ => k))
  (at level 100, right associativity).

(** [this] *)
Definition this : Async Project := fun s => Resolved (proj s) s.
Definition assign (f : Project -> Project) : Async unit :=
  fun s => Resolved tt (update f s).
(** [this.events.emit(name, data)] *)
Definition emit (ev : Event) : Async unit :=
  fun s => Resolved tt (record (Emitted ev) s).
(** [this.report(error)] *)
Definition report (e : Err) : Async unit :=
  fun s => Resolved tt (record (Reported e) s).

(** [await f(this)] for a collaborator [f]: the operation is started on the
    project as it is now and settles once the caller is resumed. *)
Definition call {R} (op : Op) (f : Project -> Outcome R) : Async R :=
  fun s =>
    let r := f (proj s) in
    Suspended (record (Called op) s)
      (fun s' => match r with
                 | Fulfilled v => Resolved v s'
                 | Failed e => Rejected e s'
                 end).

(** A task run on its own: every suspension is resumed at once. *)
Fixpoint run {A} (t : Task A) : Outcome A * St :=
  match t with
  | Resolved a s => (Fulfilled a, s)
  | Rejected e s => (Failed e, s)
  | Suspended s k => run (k s)
  end.

(** ** [Promise.all] *)

(** The promise of one task of the array. *)
Inductive Slot (B : Type) : Type :=
| Pending (k : St -> Task B)
| Done (b : B)
| Broken (e : Err).
Arguments Pending {B} k.
Arguments Done {B} b.
Arguments Broken {B} e.

(** [xs.map(async ...)]: every task is started, in the order of the array,
    and run up to its first [await]. *)
Fixpoint start_all {B} (tasks : list (Async B)) (s : St) : list (Slot B) * St :=
  match tasks with
  | [] => ([], s)
  | t :: ts =>
      match t s with
      | Resolved b s' => let '(sl, s'') := start_all ts s' in (Done b :: sl, s'')
      | Rejected e s' => let '(sl, s'') := start_all ts s' in (Broken e :: sl, s'')
      | Suspended s' k => let '(sl, s'') := start_all ts s' in (Pending k :: sl, s'')
      end
  end.

Fixpoint first_broken {B} (slots : list (Slot B)) : option Err :=
  match slots with
  | [] => None
  | Broken e :: _ => Some e
  | _ :: rest => first_broken rest
  end.

Definition done_value {B} (x : Slot B) : option B :=
  match x with Done b => Some b | _ => None end.

(** The pending tasks complete in the order [order] names them (an index
    that names no pending task is passed over); each result is put at its
    task's index. The first rejection settles the whole. *)
Fixpoint settle_all {B} (order : list nat) (slots : list (Slot B)) (s : St)
  : Outcome (list (Slot B)) * St :=
  match order with
  | [] => (Fulfilled slots, s)
  | i :: rest =>
      match slots !! i with
      | Some (Pending k) =>
          match run (k s) with
          | (Fulfilled b, s') => settle_all rest (<[i := Done b]> slots) s'
          | (Failed e, s') => (Failed e, s')
          end
      | _ => settle_all rest slots s
      end
  end.

(** [Promise.all(tasks)], the tasks completing in the order [order]; tasks
    [order] leaves out complete after it, by index. The result array is in
    the order of [tasks]. Once a task rejects, the others are no longer
    followed. *)
Definition promise_all {B} (order : list nat) (tasks : list (Async B))
  : Async (list B) :=
  fun s =>
    let '(slots, s1) := start_all tasks s in
    Suspended s1
      (fun s2 =>
         match first_broken slots with
         | Some e => Rejected e s2
         | None =>
             match settle_all (order ++ seq 0 (length slots)) slots s2 with
             | (Fulfilled slots', s3) => Resolved (omap done_value slots') s3
             | (Failed e, s3) => Rejected e s3
             end
         end).

(** ** The collaborators *)

(** [FileSystem] (./file-system.js): the gateway to paths and files. *)
Record FileSystem : Type := {
  cwd : string;
  resolve : string -> string -> string;
  isAbsolute : string -> bool;
  relative : string -> string -> string;
  join : string -> string -> string;
  (** [findUp(names, {cwd, stopAt})] *)
  findUp : list string -> string -> option string -> Outcome (option string);
}.

(** A class of ./frameworks/index.js: [new Framework(project, path).detect()]. *)
Record Framework : Type := {
  framework_id : string;
  framework_detect : Project -> option string -> Outcome (option DetectedFramework);
}.

(** The places where operations are started together and awaited as one. *)
Inductive Site : Type :=
| SiteBuildSystems
| SitePackages
| SiteFrameworks (at_path : option string).

(** Everything a run of the accessors depends on besides the project. *)
Record World : Type := {
  fs : FileSystem;
  (** [detectPackageManager] of ./package-managers/detect-package-manager.js *)
  resolvePackageManager : Project -> Outcome (option PkgManagerFields);
  (** [detectWorkspaces] of ./workspaces/detect-workspace.js *)
  resolveWorkspaces : Project -> Outcome (option WorkspaceInfo);
  (** [buildSystems] of ./build-systems/index.js, in registration order *)
  registeredBuildSystems : list BuildSystem;
  (** [frameworks] of ./frameworks/index.js, in registration order *)
  registeredFrameworks : list Framework;
  (** [getBuildSettings] of ./settings/get-build-settings.js *)
  generateBuildSettings : Project -> Outcome (list Settings);
  (** the order in which the operations started together at a site settle *)
  completion : Site -> list nat;
}.

(** ** The relevance resolver *)

Definition outranks (m' m : DetectedFramework) : Prop :=
  category m' = category m ∧ rank (confidence m) < rank (confidence m').

Definition outranked (detected : list DetectedFramework) (m : DetectedFramework) : Prop :=
  Exists (fun m' => outranks m' m) detected.

(** The matches that no match of their category and of higher confidence
    outranks, in the order of the list. *)
Definition remaining (detected : list DetectedFramework) : list DetectedFramework :=
  filter (fun m => ¬ outranked detected m) detected.

(** The two categories the specification ranks, under the names its
    examples give them: a static-site generator is of category generator, a
    generic build tool of category bundler. *)
Definition static_site_generator : string := "generator".

Definition build_tool : string := "bundler".

(** The top confidence among the matches of a list, as a rank. *)
Definition top_rank (l : list DetectedFramework) : nat :=
  foldr (fun m => Nat.max (rank (confidence m))) 0 l.

(** The matches the ranking is about: those of top confidence that are a
    static-site generator or a generic build tool. *)
Definition ranked (l : list DetectedFramework) (m : DetectedFramework) : Prop :=
  rank (confidence m) = top_rank l
  ∧ (category m = static_site_generator ∨ category m = build_tool).

(** Static-site generators above generic build tools, the order of the list
    being kept among the ones and among the others. *)
Definition ranking (l : list DetectedFramework) : list DetectedFramework :=
  filter (fun m => category m = static_site_generator) l
  ++ filter (fun m => category m = build_tool) l.

(** The list [l] with the matches [r], as many as [P] holds of in [l], at
    the places of these, first for first; every other match stays where it
    is. *)
Fixpoint place (P : DetectedFramework → Prop) `{!∀ m, Decision (P m)}
    (l r : list DetectedFramework) : list DetectedFramework :=
  match l with
  | [] => []
  | m :: l' =>
      if decide (P m) then
        match r with
        | x :: r' => x :: place P l' r'
        | [] => m :: place P l' []
        end
      else m :: place P l' r
  end.

(** Modelled from the spec: [filterByRelevance] of ./frameworks/framework.js,
    which is not among the sources. The specification gives three rules.
    The first drops a match when the list holds a match of the same category
    and of higher confidence. The second ranks, among the matches that
    remain and are of the top confidence, a static-site generator above a
    generic build tool, and keeps both: of the places these matches have in
    the list, the static-site generators take the first and the generic
    build tools the others. The third keeps the order of registration, the
    order of the list, as the last tie-break: the static-site generators,
    and the generic build tools, come in that order, and every other match
    stays at its place. The comment where the function is called says of it
    what the second rule says: it prefers a static-site generator to a build
    tool. *)
Definition filterByRelevance (detected : list DetectedFramework)
  : list DetectedFramework :=
  let kept := remaining detected in
  place (ranked kept) kept (ranking (filter (ranked kept) kept)).


(** ** Build systems *)

Definition Buck : BuildSystem :=
  {| bs_id := "buck"; bs_name := "Buck"; configFiles := [".buckconfig"; "BUCK"] |}.

(** [Buck.detect], for any build tool [b] of the registry. *)
Definition detect (w : World) (b : BuildSystem) : Async (option BuildSystem) :=
  p <- this ;;
  config <- call (OpFindUp (configFiles b) (baseDirectory p) (root p))
              (fun _ => findUp (fs w) (configFiles b) (baseDirectory p) (root p)) ;;
  if truthy config then ret (Some b) else ret None.

(** ** The constructor

    [new Project(fs, baseDirectory, root)]: the project, and the directory
    [fs.cwd] is set to. *)

Definition new_Project (f : FileSystem) (baseDirectory0 root0 : option string)
  : Project * string :=
  let base :=
    resolve f (if truthy root0 then default "" root0 else "")
              (match baseDirectory0 with Some b => b | None => cwd f end) in
  let root1 :=
    if truthy root0 then Some (resolve f (cwd f) (default "" root0)) else None in
  let root2 :=
    match root1 with
    | Some r => if String.eqb r base then None else Some r
    | None => None
    end in
  let rel :=
    match baseDirectory0 with
    | Some b =>
        if negb (isAbsolute f b) then b
        else relative f (if truthy root2 then default "" root2 else cwd f) base
    | None => relative f (if truthy root2 then default "" root2 else cwd f) base
    end in
  ({| root := root2; baseDirectory := base; relativeBaseDirectory := rel;
      packageManager := Undefined; workspace := Undefined;
      buildSystems := None; settings := None; frameworks := None |},
   base).

(** ** The stage accessors *)

Definition TypeError : Err := "TypeError".

Definition detectPackageManager (w : World) : Async (Nullable PkgManagerFields) :=
  p <- this ;;
  if is_defined (packageManager p) then ret (packageManager p)
  else
    try_catch
      (pm <- call OpDetectPackageManager (resolvePackageManager w) ;;
       assign (set_packageManager (of_option pm)) ;;;
       p1 <- this ;;
       emit (EvDetectPackageManager (packageManager p1)) ;;;
       p2 <- this ;;
       ret (packageManager p2))
      (fun _ => ret Null).

Definition detectWorkspaces (w : World) : Async (Nullable WorkspaceInfo) :=
  p <- this ;;
  if is_defined (workspace p) then ret (workspace p)
  else
    detectPackageManager w ;;;
    try_catch
      (ws <- call OpDetectWorkspaces (resolveWorkspaces w) ;;
       assign (set_workspace (of_option ws)) ;;;
       p1 <- this ;;
       emit (EvDetectWorkspaces (workspace p1)) ;;;
       p2 <- this ;;
       ret (workspace p2))
      (fun error => report error ;;; ret Null).

Definition detectBuildSystem (w : World) : Async (option (list BuildSystem)) :=
  p <- this ;;
  match buildSystems p with
  | Some l => ret (Some l)
  | None =>
      detectWorkspaces w ;;;
      try_catch
        (found <- promise_all (completion w SiteBuildSystems)
                    (map (detect w) (registeredBuildSystems w)) ;;
         assign (set_buildSystems (Some (omap id found))) ;;;
         p1 <- this ;;
         emit (EvDetectBuildsystems (default [] (buildSystems p1))) ;;;
         p2 <- this ;;
         ret (buildSystems p2))
        (fun error => report error ;;; ret (Some []))
  end.

Definition detectFrameworksInPath (w : World) (path0 : option string)
  : Async (list DetectedFramework) :=
  try_catch
    (detected <- promise_all (completion w (SiteFrameworks path0))
                   (map (fun F => call (OpFramework (framework_id F) path0)
                                    (fun p => framework_detect F p path0))
                        (registeredFrameworks w)) ;;
     ret (filterByRelevance (omap id detected)))
    (fun _ => ret []).

(** [this.frameworks.set(k, v)], the map being the one the field holds when
    [v] has been awaited. *)
Definition frameworks_set (k : string) (v : list DetectedFramework) : Async unit :=
  p <- this ;;
  match frameworks p with
  | Some m => assign (set_frameworks (Some (map_set k v m)))
  | None => throw TypeError
  end.

(** The function mapped over [this.workspace.packages]. *)
Definition detectFrameworksInPackage (w : World) (pkg : WorkspacePackage)
  : Async unit :=
  p <- this ;;
  match workspace p with
  | Obj ws =>
      result <- detectFrameworksInPath w (Some (join (fs w) (rootDir ws) (path pkg))) ;;
      frameworks_set (path pkg) result
  | _ => ret tt
  end.

Definition detectFrameworks (w : World) : Async (Nullable (list DetectedFramework)) :=
  p <- this ;;
  match frameworks p with
  | Some m => ret (Obj (values_flat m))
  | None =>
      try_catch
        (detectBuildSystem w ;;;
         assign (set_frameworks (Some [])) ;;;
         p1 <- this ;;
         match workspace p1 with
         | Obj ws =>
             promise_all (completion w SitePackages)
               (map (detectFrameworksInPackage w) (packages ws)) ;;;
             ret tt
         | _ =>
             result <- detectFrameworksInPath w None ;;
             frameworks_set "" result
         end ;;;
         p2 <- this ;;
         match frameworks p2 with
         | Some m => emit (EvDetectFrameworks m) ;;; ret (Obj (values_flat m))
         | None => throw TypeError
         end)
        (fun error => report error ;;; ret Null)
  end.

Definition getBuildSettings (w : World) : Async (option (list Settings)) :=
  p <- this ;;
  match settings p with
  | Some l => ret (Some l)
  | None =>
      assign (set_settings (Some [])) ;;;
      try_catch
        (detectFrameworks w ;;;
         l <- call OpGetBuildSettings (generateBuildSettings w) ;;
         assign (set_settings (Some l)) ;;;
         p1 <- this ;;
         emit (EvDetectSettings (default [] (settings p1))))
        (fun error => report error) ;;;
      p2 <- this ;;
      ret (settings p2)
  end.

(** * The vocabulary of the statements *)

(** ** Running a call *)

(** A call that nothing else is interleaved with. *)
Definition exec {A} (m : Async A) (s : St) : Outcome A * St := run (m s).

(** The state with further journal entries. *)
Definition journal_app (l : list Entry) (s : St) : St :=
  {| proj := proj s; journal := journal s ++ l |}.

(** ** The tasks of a [Promise.all] *)

Definition pending_at {B} (slots : list (Slot B)) (i : nat) : Prop :=
  ∃ k, slots !! i = Some (Pending k).

(** Tasks whose completion leaves the state alone. *)
Definition settles_to {B} (k : St → Task B) (o : Outcome B) : Prop :=
  ∀ s, run (k s) = (o, s).

Definition fulfilled_value {B} (o : Outcome B) : option B :=
  match o with Fulfilled b => Some b | Failed _ => None end.

(** A slot of a task whose operation is fulfilled. *)
Definition slot_ok {X B} (O : X → Outcome B) (slot : Slot B) (x : X) : Prop :=
  ∃ b, O x = Fulfilled b
       ∧ (slot = Done b ∨ ∃ k, slot = Pending k ∧ settles_to k (O x)).

(** ** What the stages do *)

(** What the search of [b]'s markers, from the base directory up to the
    root, makes of [b]. *)
Definition search (w : World) (p : Project) (b : BuildSystem)
  : Outcome (option BuildSystem) :=
  match findUp (fs w) (configFiles b) (baseDirectory p) (root p) with
  | Fulfilled config => Fulfilled (if truthy config then Some b else None)
  | Failed e => Failed e
  end.

Definition search_call (p : Project) (b : BuildSystem) : Entry :=
  Called (OpFindUp (configFiles b) (baseDirectory p) (root p)).

(** One of [b]'s markers is found on the way from the base directory up to
    the root. *)
Definition marker_found (w : World) (p : Project) (b : BuildSystem) : bool :=
  match findUp (fs w) (configFiles b) (baseDirectory p) (root p) with
  | Fulfilled config => truthy config
  | Failed _ => false
  end.

Definition framework_call (path0 : option string) (F : Framework) : Entry :=
  Called (OpFramework (framework_id F) path0).

(** What [detectFrameworksInPath] resolves to on project [p]. *)
Definition frameworks_in_path (w : World) (p : Project) (path0 : option string)
  : list DetectedFramework :=
  match mapM (fun F => fulfilled_value (framework_detect F p path0))
          (registeredFrameworks w) with
  | Some detected => filterByRelevance (omap id detected)
  | None => []
  end.

(** The path a member of the workspace is looked at. *)
Definition package_dir (w : World) (ws : WorkspaceInfo) (key : string) : option string :=
  Some (join (fs w) (rootDir ws) key).

(** The map holds the members of workspace [ws], each once, with what was
    detected at its path on project [p]. *)
Definition covers (w : World) (p : Project) (ws : WorkspaceInfo) (m : FrameworkMap)
  : Prop :=
  NoDup m.*1
  ∧ (∀ key, key ∈ m.*1 ↔ key ∈ path <$> packages ws)
  ∧ (∀ key v, (key, v) ∈ m → v = frameworks_in_path w p (package_dir w ws key)).

Definition package_calls (w : World) (ws : WorkspaceInfo) : list Entry :=
  concat (map (fun pkg => map (framework_call (package_dir w ws (path pkg)))
                            (registeredFrameworks w))
            (packages ws)).

(** The operations framework detection starts on project [p]. *)
Definition framework_calls (w : World) (p : Project) : list Entry :=
  match workspace p with
  | Obj ws => package_calls w ws
  | _ => map (framework_call None) (registeredFrameworks w)
  end.

(** The map framework detection builds on project [p]. *)
Definition detected_map (w : World) (p : Project) (m : FrameworkMap) : Prop :=
  match workspace p with
  | Obj ws => covers w (set_frameworks (Some []) p) ws m
  | _ => m = [("", frameworks_in_path w (set_frameworks (Some []) p) None)]
  end.

(** What the package-manager accessor does when it is resumed, its resolver
    having settled as [o]. *)
Definition pm_completion (o : Outcome (option PkgManagerFields)) (s : St)
  : Outcome (Nullable PkgManagerFields) * St :=
  match o with
  | Fulfilled pm =>
      (Fulfilled (of_option pm),
       record (Emitted (EvDetectPackageManager (of_option pm)))
         (update (set_packageManager (of_option pm)) s))
  | Failed _ => (Fulfilled Null, s)
  end.

(** ** Reading the journal *)

#[global] Instance Op_eq_dec : EqDecision Op.
Proof. solve_decision. Defined.

Definition is_call (op : Op) (x : Entry) : bool :=
  match x with
  | Called op' => bool_decide (op' = op)
  | _ => false
  end.

(** How often an operation was started. *)
Definition started (op : Op) (j : list Entry) : nat :=
  length (List.filter (is_call op) j).

Definition event_name (ev : Event) : string :=
  match ev with
  | EvDetectPackageManager _ => "detectPackageManager"
  | EvDetectWorkspaces _ => "detectWorkspaces"
  | EvDetectBuildsystems _ => "detectBuildsystems"
  | EvDetectFrameworks _ => "detectFrameworks"
  | EvDetectSettings _ => "detectSettings"
  end.

(** The names of the events of a journal, in the order they were emitted in. *)
Definition emitted (j : list Entry) : list string :=
  omap (fun x => match x with Emitted ev => Some (event_name ev) | _ => None end) j.

(** What the run of a stage adds to the journal: the operations its detection
    logic starts, then its event, or what its [catch] does. *)
Definition pm_journal (o : Outcome (option PkgManagerFields)) : list Entry :=
  Called OpDetectPackageManager ::
  match o with
  | Fulfilled pm => [Emitted (EvDetectPackageManager (of_option pm))]
  | Failed _ => []
  end.

Definition ws_journal (o : Outcome (option WorkspaceInfo)) : list Entry :=
  Called OpDetectWorkspaces ::
  match o with
  | Fulfilled ws => [Emitted (EvDetectWorkspaces (of_option ws))]
  | Failed e => [Reported e]
  end.

Definition bs_journal (w : World) (p : Project) (o : Outcome (list BuildSystem))
  : list Entry :=
  map (search_call p) (registeredBuildSystems w) ++
  [match o with
   | Fulfilled found => Emitted (EvDetectBuildsystems found)
   | Failed e => Reported e
   end].

Definition fw_journal (w : World) (p : Project) (m : FrameworkMap) : list Entry :=
  framework_calls w p ++ [Emitted (EvDetectFrameworks m)].

(** ** Stored results *)

(** The stage's field is no longer [undefined]. *)
Definition is_stored {A} (field : Project → option A) (p : Project) : Prop :=
  field p ≠ None.

Definition is_run {A} (field : Project → Nullable A) (p : Project) : Prop :=
  field p ≠ Undefined.

(** No stage has run. *)
Definition fresh (p : Project) : Prop :=
  packageManager p = Undefined ∧ workspace p = Undefined
  ∧ buildSystems p = None ∧ frameworks p = None.

(** A call that finds the stage's field set after an earlier call settles as
    the earlier call did and leaves the state, journal included, as it is:
    no operation is started, nothing is emitted or reported. The world may
    have changed in between. *)
Definition memoized {A} (accessor : World → Async A) (stored : Project → Prop)
  : Prop :=
  ∀ w1 w2 s,
    stored (proj (exec (accessor w1) s).2) →
    exec (accessor w2) (exec (accessor w1) s).2 = exec (accessor w1) s.

(** A first run whose detection logic does not throw stores its result. *)
Definition stores_on_success : Prop :=
  ∀ w s,
    (is_Some (fulfilled_value (resolvePackageManager w (proj s))) →
     is_run packageManager (proj (exec (detectPackageManager w) s).2))
    ∧ (is_Some (fulfilled_value
         (resolveWorkspaces w (proj (exec (detectPackageManager w) s).2))) →
       is_run workspace (proj (exec (detectWorkspaces w) s).2))
    ∧ (Forall (fun b => is_Some (fulfilled_value (search w (proj s) b)))
         (registeredBuildSystems w) →
       is_stored buildSystems (proj (exec (detectBuildSystem w) s).2))
    ∧ is_stored frameworks (proj (exec (detectFrameworks w) s).2)
    ∧ is_stored settings (proj (exec (getBuildSettings w) s).2).

(** The stages of the pipeline. *)
Inductive Stage : Type :=
| StagePackageManager
| StageWorkspace
| StageBuildSystems
| StageFrameworks
| StageSettings.

#[global] Instance Stage_eq_dec : EqDecision Stage.
Proof. solve_decision. Defined.

(** The stage whose detection logic awaits the operation. *)
Definition stage_of (op : Op) : Stage :=
  match op with
  | OpDetectPackageManager => StagePackageManager
  | OpDetectWorkspaces => StageWorkspace
  | OpFindUp _ _ _ => StageBuildSystems
  | OpFramework _ _ => StageFrameworks
  | OpGetBuildSettings => StageSettings
  end.

(** The field of a stage, whatever its type. *)
Inductive Stored : Type :=
| StoredPackageManager (v : Nullable PkgManagerFields)
| StoredWorkspace (v : Nullable WorkspaceInfo)
| StoredBuildSystems (v : option (list BuildSystem))
| StoredFrameworks (v : option FrameworkMap)
| StoredSettings (v : option (list Settings)).

Definition stored (st : Stage) (p : Project) : Stored :=
  match st with
  | StagePackageManager => StoredPackageManager (packageManager p)
  | StageWorkspace => StoredWorkspace (workspace p)
  | StageBuildSystems => StoredBuildSystems (buildSystems p)
  | StageFrameworks => StoredFrameworks (frameworks p)
  | StageSettings => StoredSettings (settings p)
  end.

(** The stage's field is no longer unset. *)
Definition has_run (st : Stage) (p : Project) : Prop :=
  match st with
  | StagePackageManager => is_run packageManager p
  | StageWorkspace => is_run workspace p
  | StageBuildSystems => is_stored buildSystems p
  | StageFrameworks => is_stored frameworks p
  | StageSettings => is_stored settings p
  end.

(** The state a call of the stage's accessor leaves. *)
Definition after_call (st : Stage) (w : World) (s : St) : St :=
  match st with
  | StagePackageManager => (exec (detectPackageManager w) s).2
  | StageWorkspace => (exec (detectWorkspaces w) s).2
  | StageBuildSystems => (exec (detectBuildSystem w) s).2
  | StageFrameworks => (exec (detectFrameworks w) s).2
  | StageSettings => (exec (getBuildSettings w) s).2
  end.

(** The life of a context: accessors called one after the other, each in
    the world of its time. *)
Definition lifetime (calls : list (Stage * World)) (s : St) : St :=
  foldl (fun s0 c => after_call c.1 c.2 s0) s calls.

(** No operation of stage [st] is among the entries. *)
Definition foreign (st : Stage) (j : list Entry) : Prop :=
  Forall (fun x => ∀ op, x = Called op → stage_of op ≠ st) j.

(** The operations of stage [st] that were started. *)
Definition detections (st : Stage) (j : list Entry) : list Op :=
  omap (fun x => match x with
                 | Called op => if decide (stage_of op = st) then Some op else None
                 | _ => None
                 end) j.

(** From [s] to [s'] the journal has only grown, and for every stage that
    had run the field is as it was and no operation was started. *)
Definition keeps (s s' : St) : Prop :=
  ∃ J, journal s' = journal s ++ J
     ∧ ∀ st, has_run st (proj s) →
         stored st (proj s') = stored st (proj s) ∧ foreign st J.

(** A call of an accessor that finds the field set returns it and leaves the
    state, journal included, as it is. *)
Definition returns_stored : Prop :=
  ∀ w s,
    (is_run packageManager (proj s) →
     exec (detectPackageManager w) s = (Fulfilled (packageManager (proj s)), s))
    ∧ (is_run workspace (proj s) →
       exec (detectWorkspaces w) s = (Fulfilled (workspace (proj s)), s))
    ∧ (is_stored buildSystems (proj s) →
       exec (detectBuildSystem w) s = (Fulfilled (buildSystems (proj s)), s))
    ∧ (∀ m, frameworks (proj s) = Some m →
         exec (detectFrameworks w) s = (Fulfilled (Obj (values_flat m)), s))
    ∧ (is_stored settings (proj s) →
       exec (getBuildSettings w) s = (Fulfilled (settings (proj s)), s)).

(** Once the field of a stage is set, no call of any accessor changes it or
    starts an operation of the stage, however long the context lives. *)
Definition run_once : Prop :=
  ∀ calls st s,
    has_run st (proj s) →
    stored st (proj (lifetime calls s)) = stored st (proj s)
    ∧ detections st (journal (lifetime calls s)) = detections st (journal s).

(** ** Worlds *)

(** No collaborator of the first three stages throws. *)
Definition readable (w : World) : Prop :=
  (∀ p, is_Some (fulfilled_value (resolvePackageManager w p)))
  ∧ (∀ p, is_Some (fulfilled_value (resolveWorkspaces w p)))
  ∧ (∀ names c r, is_Some (fulfilled_value (findUp (fs w) names c r))).

(** The world [w], its operations completing in the orders [c] gives. *)
Definition with_completion (c : Site → list nat) (w : World) : World :=
  {| fs := fs w;
     resolvePackageManager := resolvePackageManager w;
     resolveWorkspaces := resolveWorkspaces w;
     registeredBuildSystems := registeredBuildSystems w;
     registeredFrameworks := registeredFrameworks w;
     generateBuildSettings := generateBuildSettings w;
     completion := c |}.

(** Modelled from the spec: the package-manager resolver, [detectPackageManager]
    of ./package-managers/detect-package-manager.js, which is not among the
    sources. The known descriptors are tried in their order of priority,
    each looked for by its lockfiles from the base directory up to the root;
    the first whose marker is found is the result, and [null] when none is. *)
Fixpoint spec_detectPackageManager (f : FileSystem)
    (available : list PkgManagerFields) (p : Project)
  : Outcome (option PkgManagerFields) :=
  match available with
  | [] => Fulfilled None
  | d :: rest =>
      match findUp f (lockFiles d) (baseDirectory p) (root p) with
      | Fulfilled marker =>
          if truthy marker then Fulfilled (Some d)
          else spec_detectPackageManager f rest p
      | Failed e => Failed e
      end
  end.

(** Modelled from the spec: the workspace resolver, [detectWorkspaces] of
    ./workspaces/detect-workspace.js, which is not among the sources. With
    [null] for package manager it short-circuits to [null]; otherwise the
    workspace is located ([locate]: the search for the uppermost manifest
    and the expansion of its globs). *)
Definition spec_detectWorkspaces
    (locate : Project → Outcome (option WorkspaceInfo)) (p : Project)
  : Outcome (option WorkspaceInfo) :=
  match packageManager p with
  | Null => Fulfilled None
  | _ => locate p
  end.

(** The world [w], its two resolvers being the ones the specification
    describes. *)
Definition as_specified (available : list PkgManagerFields)
    (locate : Project → Outcome (option WorkspaceInfo)) (w : World) : World :=
  {| fs := fs w;
     resolvePackageManager := spec_detectPackageManager (fs w) available;
     resolveWorkspaces := spec_detectWorkspaces locate;
     registeredBuildSystems := registeredBuildSystems w;
     registeredFrameworks := registeredFrameworks w;
     generateBuildSettings := generateBuildSettings w;
     completion := completion w |}.

(** ** Paths *)

(** [r] is a directory strictly above [b]. *)
Definition strict_ancestor (r b : string) : bool :=
  String.prefix (r ++ "/") b.

(** ** Concrete file systems, worlds and projects *)

Definition starts_with_slash (s : string) : bool :=
  match s with
  | String c _ => Ascii.eqb c "/"%char
  | EmptyString => false
  end.

Definition posix_join (a b : string) : string :=
  if String.eqb a "" then b
  else if String.eqb b "" then a
  else (a ++ "/" ++ b)%string.

(** [path.resolve] on paths that need no normalising. *)
Definition posix_resolve (cwd0 a b : string) : string :=
  if starts_with_slash b then b
  else if starts_with_slash a then posix_join a b
  else posix_join cwd0 (posix_join a b).

Definition posix_relative (from to : string) : string :=
  if String.eqb from to then ""
  else if String.prefix (from ++ "/") to
       then String.substring (S (String.length from))
              (String.length to - S (String.length from)) to
       else to.

(** A file system whose working directory is /work and where an upward
    search finds the names listed in [present], in the directory it starts
    from. *)
Definition fs_with (present : list string) : FileSystem :=
  {| cwd := "/work";
     resolve := posix_resolve "/work";
     isAbsolute := starts_with_slash;
     relative := posix_relative;
     join := posix_join;
     findUp := fun names cwd0 _ =>
       Fulfilled (match filter (fun n => n ∈ present) names with
                  | n :: _ => Some (posix_join cwd0 n)
                  | [] => None
                  end) |}.

Definition npm : PkgManagerFields :=
  {| pm_name := "npm"; installCommand := "npm install"; runCommand := "npm run";
     lockFiles := ["package-lock.json"] |}.

Definition next_js : DetectedFramework :=
  {| fw_id := "next"; fw_name := "Next.js"; category := "generator";
     confidence := Highest |}.


(** A detector that finds Next.js in /work/pkg-a only. *)
Definition Next : Framework :=
  {| framework_id := "next";
     framework_detect := fun _ path0 =>
       Fulfilled (if decide (path0 = Some "/work/pkg-a") then Some next_js else None) |}.

(** A project that is no JavaScript project: nothing is found, nothing fails. *)
Definition plain_world : World :=
  {| fs := fs_with [];
     resolvePackageManager := fun _ => Fulfilled None;
     resolveWorkspaces := fun _ => Fulfilled None;
     registeredBuildSystems := [Buck];
     registeredFrameworks := [Next];
     generateBuildSettings := fun _ => Fulfilled [];
     completion := fun _ => [] |}.

(** A detector that cannot read the files it looks at. *)
Definition Unreadable : Framework :=
  {| framework_id := "gatsby";
     framework_detect := fun _ _ => Failed "EACCES" |}.

(** A world where nothing can be read: every collaborator throws. *)
Definition unreadable_world : World :=
  {| fs := {| cwd := "/work";
              resolve := posix_resolve "/work";
              isAbsolute := starts_with_slash;
              relative := posix_relative;
              join := posix_join;
              findUp := fun _ _ _ => Failed "EACCES" |};
     resolvePackageManager := fun _ => Failed "EACCES";
     resolveWorkspaces := fun _ => Failed "EACCES";
     registeredBuildSystems := [Buck];
     registeredFrameworks := [Unreadable];
     generateBuildSettings := fun _ => Failed "EACCES";
     completion := fun _ => [] |}.

Definition Bazel : BuildSystem :=
  {| bs_id := "bazel"; bs_name := "Bazel";
     configFiles := [".bazelrc"; "WORKSPACE"] |}.

(** An npm workspace of two members, with a BUCK file; of the operations
    started together, the one started last completes first. *)
Definition monorepo : WorkspaceInfo :=
  {| rootDir := "/work";
     packages := [ {| path := "pkg-a"; pkg_name := Some "a" |};
                   {| path := "pkg-b"; pkg_name := None |} ] |}.

Definition monorepo_world : World :=
  {| fs := fs_with ["BUCK"];
     resolvePackageManager := fun _ => Fulfilled (Some npm);
     resolveWorkspaces := fun _ => Fulfilled (Some monorepo);
     registeredBuildSystems := [Bazel; Buck];
     registeredFrameworks := [Next];
     generateBuildSettings := fun _ => Fulfilled [];
     completion := fun _ => [1; 0] |}.

(** [new Project(fs)], nothing called yet. *)
Definition fresh_state : St :=
  {| proj := (new_Project (fs_with []) None None).1; journal := [] |}.





(** A site that is no workspace and whose settings are generated: one
    build. *)
Definition site_settings : Settings :=
  {| buildCommand := "npm run build"; publishDirectory := "dist";
     settingsBaseDirectory := ""; derivedFrom := "next" |}.

Definition built_world : World :=
  {| fs := fs_with [];
     resolvePackageManager := fun _ => Fulfilled (Some npm);
     resolveWorkspaces := fun _ => Fulfilled None;
     registeredBuildSystems := [Buck];
     registeredFrameworks := [Next];
     generateBuildSettings := fun _ => Fulfilled [site_settings];
     completion := fun _ => [] |}.

(** ** The settings stage *)

(** What the settings stage adds to the journal once framework detection has
    settled, the generation of the settings having settled as [o]. *)
Definition settings_journal (o : Outcome (list Settings)) : list Entry :=
  [Called OpGetBuildSettings;
   match o with
   | Fulfilled l => Emitted (EvDetectSettings l)
   | Failed e => Reported e
   end].

(** ** The order of completion *)

(** The tasks of a [Promise.all] over [n] tasks in the order in which they
    complete when they are resumed in the order [order]: every index below
    [n], at the place where it is named first ([seen]: the tasks that have
    completed already). *)
Fixpoint completions (n : nat) (seen order : list nat) : list nat :=
  match order with
  | [] => []
  | i :: rest =>
      if decide (i < n ∧ i ∉ seen) then i :: completions n (i :: seen) rest
      else completions n seen rest
  end.

(** The entry of the map of frameworks for the [i]-th member of workspace
    [ws], detection having run on project [p]. *)
Definition member_entry (w : World) (p : Project) (ws : WorkspaceInfo) (i : nat)
  : option (string * list DetectedFramework) :=
  pkg ← packages ws !! i;
  Some (path pkg, frameworks_in_path w p (package_dir w ws (path pkg))).

(** ** Up to the first [await] *)

(** The state on which a call first stops: the one it settles on, or the one
    it is suspended on at its first [await]. *)
Definition first_stop {A} (t : Task A) : St :=
  match t with
  | Resolved _ s => s
  | Rejected _ s => s
  | Suspended s _ => s
  end.

(** A function that, up to its first [await], writes no settings. *)
Definition writes_no_settings {A} (m : Async A) : Prop :=
  ∀ s, settings (proj (first_stop (m s))) = settings (proj s).

(** * The rest of the class

    The methods of [Project] that are no stage of the pipeline: the run
    command of an npm script, the version of Node.js, and the two readers
    of package.json. They run one file operation after the other, so they
    are embedded as functions that return, with their result, the fields
    they have written and the file operations they have started. *)

(** ** JavaScript values *)

(** A value as [JSON.parse] or a YAML parser builds it, or [undefined]. An
    object is the list of its own enumerable properties, in the order in
    which they are enumerated, no key twice; a number is kept as it is
    written. *)
#[warnings="-register-all"]
Inductive JsValue : Type :=
| JsUndefined
| JsNull
| JsBool (b : bool)
| JsNumber (literal : string)
| JsString (s : string)
| JsArray (items : list JsValue)
| JsObject (props : list (string * JsValue)).

(** [{...o, [k]: v}]: the property keeps its place when [o] has it. *)
Fixpoint with_property (k : string) (v : JsValue) (o : list (string * JsValue))
  : list (string * JsValue) :=
  match o with
  | [] => [(k, v)]
  | (k', v') :: o' =>
      if String.eqb k' k then (k, v) :: o' else (k', v') :: with_property k v o'
  end.

(** The own property [k] of an object. *)
Fixpoint own_property (k : string) (o : list (string * JsValue)) : option JsValue :=
  match o with
  | [] => None
  | (k', v') :: o' => if String.eqb k' k then Some v' else own_property k o'
  end.

(** [PackageJson] (read-pkg): the object a package.json parses to. *)
Definition PackageJson := list (string * JsValue).

(** ** The file operations *)

(** The operations of [FileSystem] (./file-system.js) these methods await,
    each with the arguments it is given. *)
Module Reads.
Record t : Type := {
  (** [gracefullyReadFile(path)]: the content, [null] for a file that is missing *)
  gracefullyReadFile : string -> Outcome (option string);
  (** [findUp(name, {cwd, stopAt})] *)
  findUp : string -> string -> option string -> Outcome (option string);
  (** [findUpMultiple(name, {cwd, stopAt})] *)
  findUpMultiple : string -> string -> option string -> Outcome (list string);
  (** [readJSON(path)] *)
  readJSON : string -> Outcome PackageJson;
  dirname : string -> string;
}.
End Reads.

Inductive FileOp : Type :=
| ReadFile (file : string)
| FindUp (name cwd : string) (stopAt : option string)
| FindUpMultiple (name cwd : string) (stopAt : option string)
| ReadJSON (file : string).

(** ** The version of Node.js *)

(** What [parse] and [coerce] of semver are given: a string, a version
    parsed already, [null] or [undefined]. *)
Inductive Version (V : Type) : Type :=
| VString (s : string)
| VParsed (v : V)
| VNull
| VUndefined.
Arguments VString {V} s.
Arguments VParsed {V} v.
Arguments VNull {V}.
Arguments VUndefined {V}.

(** [parse(version, {loose})] and [coerce(version, {loose})] of semver, for
    versions of type [V] (the class [SemVer]); [null] is [None]. *)
Record Semver (V : Type) : Type := {
  parse : Version V -> bool -> option V;
  coerce : Version V -> bool -> option V;
}.
Arguments parse {V} _ _ _.
Arguments coerce {V} _ _ _.

(** A [SemVer | null] as an argument. *)
Definition of_parsed {V} (o : option V) : Version V :=
  match o with Some v => VParsed v | None => VNull end.

(** A [string | undefined] as an argument. *)
Definition of_variable {V} (o : option string) : Version V :=
  match o with Some s => VString s | None => VUndefined end.

(** The fields of the class the stages do not use: [_nodeVersion],
    [#environment] (what [env[key]] is, for every key) and
    [jsWorkspaceRoot]. *)
Record Fields (V : Type) : Type := {
  _nodeVersion : option V;
  environment : string -> option string;
  jsWorkspaceRoot : option string;
}.
Arguments _nodeVersion {V} _.
Arguments environment {V} _ _.
Arguments jsWorkspaceRoot {V} _.

(** The fields of a new instance. *)
Definition new_Fields {V} : Fields V :=
  {| _nodeVersion := None; environment := fun _ => None; jsWorkspaceRoot := None |}.

Definition setNodeVersion {V} (lib : Semver V) (version : string) (i : Fields V)
  : Fields V :=
  {| _nodeVersion := parse lib (VString version) false;
     environment := environment i; jsWorkspaceRoot := jsWorkspaceRoot i |}.

Definition setEnvironment {V} (env : string -> option string) (i : Fields V)
  : Fields V :=
  {| _nodeVersion := _nodeVersion i; environment := env;
     jsWorkspaceRoot := jsWorkspaceRoot i |}.

Definition getEnv {V} (i : Fields V) (key : string) : option string :=
  environment i key.

Definition getCurrentNodeVersion {V} (lib : Semver V) (f : Reads.t) (i : Fields V)
  : Outcome (option V) * list FileOp :=
  match _nodeVersion i with
  | Some v => (Fulfilled (Some v), [])
  | None =>
      match parse lib (of_parsed (coerce lib (of_variable (getEnv i "NODE_VERSION")) false))
              true with
      | Some nodeEnv => (Fulfilled (Some nodeEnv), [])
      | None =>
          match Reads.gracefullyReadFile f ".nvmrc" with
          | Failed e => (Failed e, [ReadFile ".nvmrc"])
          | Fulfilled nvmrc =>
              if truthy nvmrc
              then (Fulfilled
                      (parse lib (of_parsed (coerce lib (of_variable nvmrc) true)) false),
                    [ReadFile ".nvmrc"])
              else
                match Reads.gracefullyReadFile f ".node_version" with
                | Failed e => (Failed e, [ReadFile ".nvmrc"; ReadFile ".node_version"])
                | Fulfilled nodeVersion =>
                    (Fulfilled
                       (if truthy nodeVersion
                        then parse lib
                               (of_parsed (coerce lib (of_variable nodeVersion) true))
                               false
                        else None),
                     [ReadFile ".nvmrc"; ReadFile ".node_version"])
                end
          end
      end
  end.

(** ** The run command of an npm script *)

(** [npmRunCommand]: [AVAILABLE_PACKAGE_MANAGERS.npm.runCommand] of
    ./package-managers/detect-package-manager.js. *)
Definition getNpmScriptCommand (npmRunCommand : string) (p : Project)
    (npmScript : string) : string :=
  let runCmd :=
    match packageManager p with
    | Obj pm => if truthy (Some (runCommand pm)) then runCommand pm else npmRunCommand
    | _ => npmRunCommand
    end in
  runCmd ++ " " ++ npmScript.

(** ** package.json *)

Definition set_jsWorkspaceRoot {V} (dir : string) (i : Fields V) : Fields V :=
  {| _nodeVersion := _nodeVersion i; environment := environment i;
     jsWorkspaceRoot := Some dir |}.

Definition getRootPackageJSON {V} (f : Reads.t) (p : Project) (i : Fields V)
  : Outcome PackageJson * Fields V * list FileOp :=
  let search := FindUpMultiple "package.json" (baseDirectory p) (root p) in
  match Reads.findUpMultiple f "package.json" (baseDirectory p) (root p) with
  | Failed e => (Failed e, i, [search])
  | Fulfilled found =>
      let rootJSONPath := last found in
      if truthy rootJSONPath
      then (Reads.readJSON f (default "" rootJSONPath),
            set_jsWorkspaceRoot (Reads.dirname f (default "" rootJSONPath)) i,
            [search; ReadJSON (default "" rootJSONPath)])
      else (Fulfilled [], i, [search])
  end.

Definition getPackageJSON (f : Reads.t) (p : Project) (startDirectory : option string)
  : Outcome PackageJson * list FileOp :=
  let cwd0 :=
    if truthy startDirectory then default "" startDirectory else baseDirectory p in
  let search := FindUp "package.json" cwd0 (root p) in
  match Reads.findUp f "package.json" cwd0 (root p) with
  | Failed e => (Failed e, [search])
  | Fulfilled pkgPath =>
      if truthy pkgPath
      then
        match Reads.readJSON f (default "" pkgPath) with
        | Failed e => (Failed e, [search; ReadJSON (default "" pkgPath)])
        | Fulfilled json =>
            (Fulfilled (with_property "pkgPath" (JsString (default "" pkgPath)) json),
             [search; ReadJSON (default "" pkgPath)])
        end
      else (Fulfilled [("pkgPath", JsNull)], [search])
  end.

(** ** The sources of the version of Node.js *)

(** What the environment gives. *)
Definition from_environment {V} (lib : Semver V) (i : Fields V) : option V :=
  parse lib (of_parsed (coerce lib (of_variable (getEnv i "NODE_VERSION")) false)) true.

(** What a file of content [content] gives. *)
Definition from_file {V} (lib : Semver V) (content : string) : option V :=
  parse lib (of_parsed (coerce lib (VString content) true)) false.

(** ** Concrete libraries and files *)

(** A semver that knows Node.js 18.17.0, written in full or as its major
    version. *)
Definition node18 : Semver (nat * nat * nat) :=
  {| parse := fun x _ =>
       match x with
       | VParsed v => Some v
       | VString s => if String.eqb s "18.17.0" then Some (18, 17, 0) else None
       | _ => None
       end;
     coerce := fun x _ =>
       match x with
       | VParsed v => Some v
       | VString s =>
           if String.eqb s "18.17.0" then Some (18, 17, 0)
           else if String.eqb s "18" then Some (18, 0, 0) else None
       | _ => None
       end |}.

(** The files of /work: the two version files with the contents given, and
    a package.json in each of the directories [manifests], the nearest
    first; every package.json is [json]. *)
Definition files_of (nvmrc node_version : option string) (manifests : list string)
    (json : Outcome PackageJson) : Reads.t :=
  {| Reads.gracefullyReadFile := fun file =>
       Fulfilled (if String.eqb file ".nvmrc" then nvmrc
                  else if String.eqb file ".node_version" then node_version
                  else None);
     Reads.findUp := fun name _ _ =>
       Fulfilled (head (map (fun dir => posix_join dir name) manifests));
     Reads.findUpMultiple := fun name _ _ =>
       Fulfilled (map (fun dir => posix_join dir name) manifests);
     Reads.readJSON := fun _ => json;
     Reads.dirname := fun file =>
       String.substring 0 (String.length file - String.length "/package.json") file |}.

(** * The commits of a range (git-utils)

    [getCommits] of packages/git-utils/src/commits.ts. A string is the
    sequence of its bytes in UTF-8; a character below 128, as the two
    separators are, is one byte and part of no other character. *)

Module Commits.

(** [s.split(sep)] for a separator of one character: the fields of [s], the
    first apart from the others. *)
Fixpoint fields (sep : ascii) (s : string) : string * list string :=
  match s with
  | EmptyString => (EmptyString, [])
  | String c rest =>
      let '(first, others) := fields sep rest in
      if Ascii.eqb c sep then (EmptyString, first :: others)
      else (String c first, others)
  end.

Definition split (sep : ascii) (s : string) : list string :=
  let '(first, others) := fields sep s in first :: others.

(** [l.join(sep)] for a separator of one character. *)
Fixpoint join (sep : ascii) (l : list string) : string :=
  match l with
  | [] => EmptyString
  | [x] => x
  | x :: rest => (x ++ String sep (join sep rest))%string
  end.

(** RS, the record separator, [\u001E]. *)
Definition GIT_PRETTY_SEPARATOR : ascii := ascii_of_nat 30.

Definition newline : ascii := ascii_of_nat 10.

Definition placeholders : list string :=
  ["%H"; "%p"; "%an"; "%ae"; "%ai"; "%cn"; "%ce"; "%ci"; "%f"].

Definition GIT_PRETTY_FORMAT : string := join GIT_PRETTY_SEPARATOR placeholders.

(** A field is [undefined] when the line has too few of them. *)
Record CommitAuthor : Type := {
  name : option string;
  email : option string;
  date : option string;
}.

Record Commit : Type := {
  sha : option string;
  parents : option string;
  author : CommitAuthor;
  committer : CommitAuthor;
  message : option string;
}.

Definition getCommit (line : string) : Commit :=
  let parts := split GIT_PRETTY_SEPARATOR line in
  {| sha := parts !! 0;
     parents := parts !! 1;
     author := {| name := parts !! 2; email := parts !! 3; date := parts !! 4 |};
     committer := {| name := parts !! 5; email := parts !! 6; date := parts !! 7 |};
     message := parts !! 8 |}.

(** [git] of ./exec.js: the output of the command, or what it throws. *)
Definition getCommits {C} (git : list string -> C -> Outcome string)
    (base head : string) (cwd : C) : Outcome (list Commit) :=
  match git ["log"; ("--pretty=" ++ GIT_PRETTY_FORMAT)%string;
             (base ++ "..." ++ head)%string] cwd with
  | Fulfilled stdout => Fulfilled (map getCommit (split newline stdout))
  | Failed e => Failed e
  end.

(** The character is in the string. *)
Fixpoint has_char (c : ascii) (s : string) : bool :=
  match s with
  | EmptyString => false
  | String c' rest => Ascii.eqb c' c || has_char c rest
  end.

(** How often it is. *)
Fixpoint count_char (c : ascii) (s : string) : nat :=
  match s with
  | EmptyString => 0
  | String c' rest => (if Ascii.eqb c' c then 1 else 0) + count_char c rest
  end.

(** The line [git log] prints in [GIT_PRETTY_FORMAT] for a commit whose
    placeholders expand as [value] says. *)
Definition printed (value : string -> string) : string :=
  join GIT_PRETTY_SEPARATOR (value <$> placeholders).

(** The commit with these values. *)
Definition commit_of (value : string -> string) : Commit :=
  {| sha := Some (value "%H");
     parents := Some (value "%p");
     author := {| name := Some (value "%an"); email := Some (value "%ae");
                  date := Some (value "%ai") |};
     committer := {| name := Some (value "%cn"); email := Some (value "%ce");
                     date := Some (value "%ci") |};
     message := Some (value "%f") |}.

(** No value of the commit holds a separator. *)
Definition printable (value : string -> string) : Prop :=
  Forall (fun ph => has_char GIT_PRETTY_SEPARATOR (value ph) = false
                  ∧ has_char newline (value ph) = false) placeholders.

(** A commit of this repository, and a [git] that prints what it is given. *)
Definition first_commit (ph : string) : string :=
  if String.eqb ph "%H" then "8f2c1d7" else
  if String.eqb ph "%an" then "Ada Lovelace" else
  if String.eqb ph "%f" then "Initial-commit" else "".

Definition git_printing (stdout : string) : list string -> unit -> Outcome string :=
  fun _ _ => Fulfilled stdout.

End Commits.

(** * The example of a validation error (config)

    [getExample], which prints the value found invalid under the keys of
    its path, beside an example of a valid one. *)

Module Example.

(** A part of the path of a property: an integer (an index), or anything
    else, which is used as the key it prints as. *)
Inductive Part : Type :=
| Index (i : Z)
| Key (key : string).

Definition setInvalidValuePart (value : JsValue) (part : Part) : JsValue :=
  match part with
  | Index _ => JsArray [value]
  | Key key =>
      match value with
      | JsUndefined => JsObject []
      | _ => JsObject [(key, value)]
      end
  end.

(** What the function is given to print with: [dump] of js-yaml,
    [String.prototype.trim], indent-string, and the two styles of chalk. *)
Record Printer : Type := {
  dump : JsValue -> string;
  trim : string -> string;
  indentString : string -> nat -> string;
  red_bold : string -> string;
  green_bold : string -> string;
}.

Definition serializeValue (pr : Printer) (value : JsValue) : string :=
  trim pr (dump pr value).

(** [prevPath.reverse()] reverses the array it is called on: the function
    returns, with its result, the array as it leaves it. *)
Definition getInvalidValue (pr : Printer) (value : JsValue) (prevPath : list Part)
  : string * list Part :=
  let reversed := reverse prevPath in
  let invalidValue := foldl setInvalidValuePart value reversed in
  (serializeValue pr invalidValue, reversed).

(** [example]: a value, or a function of the value and the key. *)
Inductive ExampleOf : Type :=
| Static (example : JsValue)
| Computed (example : JsValue -> string -> JsValue).

Definition newline : string := String (ascii_of_nat 10) EmptyString.

Definition getExample (pr : Printer) (value : JsValue) (key : string)
    (prevPath : list Part) (example : ExampleOf) : string * list Part :=
  let exampleA :=
    match example with
    | Static e => e
    | Computed f => f value key
    end in
  let '(invalid, prevPath') := getInvalidValue pr value prevPath in
  (newline ++ red_bold pr "Invalid syntax" ++ newline ++ newline
   ++ indentString pr invalid 2 ++ newline ++ newline
   ++ green_bold pr "Valid syntax" ++ newline ++ newline
   ++ indentString pr (serializeValue pr exampleA) 2,
   prevPath')%string.




End Example.

(** * The integrations of a site (config)

    [mergeIntegrations] of packages/config/src/integrations.ts: the
    integrations enabled on the site (from the API) merged with those the
    configuration file names. *)

Module Integrations.

(** The [dev] table of an integration of the configuration file. *)
Record Dev : Type := {
  path : string;
  force_run_in_build : option bool;
}.

(** The property [dev] of such an integration: absent, there with the value
    [undefined], or a table. The function tests it in three ways, which
    differ on the second. *)
Inductive DevProperty : Type :=
| NoDev
| DevUndefined
| DevTable (d : Dev).

Record ConfigIntegration : Type := {
  name : string;
  dev : DevProperty;
}.

(** ['dev' in configIntegration] *)
Definition has_dev (c : ConfigIntegration) : bool :=
  match dev c with NoDev => false | _ => true end.

(** [typeof configIntegration.dev !== 'undefined'], and the truthiness of
    [configIntegration.dev], which is the same for a table. *)
Definition dev_defined (c : ConfigIntegration) : bool :=
  match dev c with DevTable _ => true | _ => false end.

(** [IntegrationResponse] (./types/api.js): the properties the function
    reads or writes. *)
Record IntegrationResponse : Type := {
  slug : string;
  version : option string;
  has_build : option bool;
}.

(** An integration available to the site, as [getAvailableIntegrations] of
    ./api/integrations.js lists it. *)
Module Available.
Record t : Type := {
  slug : string;
  hostSiteUrl : option string;
  hasBuild : option bool;
}.
End Available.

(** An element of the result: an integration of the API as it is, or
    [{...configIntegration, slug, version, has_build}], or
    [{slug, version, has_build}]. *)
Inductive Integration : Type :=
| Response (r : IntegrationResponse)
| Configured (c : ConfigIntegration) (r : IntegrationResponse).

Definition slug_of (i : Integration) : string :=
  match i with
  | Response r => slug r
  | Configured _ r => slug r
  end.

Definition find_available (availableIntegrations : list Available.t) (n : string)
  : option Available.t :=
  List.find (fun availableIntegration => String.eqb (Available.slug availableIntegration) n)
    availableIntegrations.

(** [{slug, version, has_build}] for the integration of that name among the
    available ones; [None] is [undefined]. *)
Definition listed (availableIntegrations : list Available.t) (n : string)
  : option Integration :=
  integration ← find_available availableIntegrations n;
  Some (Response {| slug := Available.slug integration;
                    version := Available.hostSiteUrl integration;
                    has_build := Some (default false (Available.hasBuild integration)) |}).

(** The function mapped over the integrations of the configuration file
    that are kept. *)
Definition resolveConfigIntegration (apiIntegrations : list IntegrationResponse)
    (availableIntegrations : list Available.t) (context : string)
    (configIntegration : ConfigIntegration) : option Integration :=
  match dev configIntegration with
  | DevTable d =>
      if String.eqb context "dev" then
        let integrationInstance :=
          List.find (fun apiIntegration =>
                       String.eqb (slug apiIntegration) (name configIntegration))
            apiIntegrations in
        let availableIntegration :=
          find_available availableIntegrations (name configIntegration) in
        Some (Configured configIntegration
                {| slug := name configIntegration;
                   version :=
                     if truthy (Some (path d)) then None
                     else a ← availableIntegration; Available.hostSiteUrl a;
                   has_build :=
                     Some (match i ← integrationInstance; has_build i with
                           | Some b => b
                           | None => default false (force_run_in_build d)
                           end) |})
      else listed availableIntegrations (name configIntegration)
  | _ => listed availableIntegrations (name configIntegration)
  end.

(** [getAvailableIntegrations({testOpts, offline})] is awaited first; [{}]
    is the default of [testOpts], [[]] that of [configIntegrations]. *)
Definition mergeIntegrations {T}
    (getAvailableIntegrations : T -> bool -> Outcome (list Available.t))
    (no_options : T)
    (configIntegrations : option (list ConfigIntegration))
    (apiIntegrations : list IntegrationResponse)
    (context : string) (testOpts : option T) (offline : bool)
  : Outcome (list Integration) :=
  let configIntegrations := default [] configIntegrations in
  match getAvailableIntegrations (default no_options testOpts) offline with
  | Failed e => Failed e
  | Fulfilled availableIntegrations =>
      let resolvedApiIntegrations :=
        List.filter
          (fun integration =>
             negb (existsb
                     (fun configIntegration =>
                        String.eqb (name configIntegration) (slug integration)
                        && dev_defined configIntegration
                        && String.eqb context "dev")
                     configIntegrations))
          apiIntegrations in
      let resolvedConfigIntegrations :=
        omap (resolveConfigIntegration apiIntegrations availableIntegrations context)
          (List.filter
             (fun configIntegration =>
                forallb (fun apiIntegration =>
                           negb (String.eqb (slug apiIntegration)
                                   (name configIntegration)))
                  apiIntegrations
                || (has_dev configIntegration && String.eqb context "dev"))
             configIntegrations) in
      Fulfilled (map Response resolvedApiIntegrations ++ resolvedConfigIntegrations)
  end.

(** The site of the examples: the API has [analytics] enabled; the
    configuration file names it with a local path, and names [forms], which
    is available. *)
Definition analytics : IntegrationResponse :=
  {| slug := "analytics"; version := Some "https://analytics.example"; has_build := Some true |}.

Definition local_analytics : ConfigIntegration :=
  {| name := "analytics";
     dev := DevTable {| path := "../analytics"; force_run_in_build := None |} |}.

Definition forms : ConfigIntegration := {| name := "forms"; dev := NoDev |}.

Definition available_forms : Available.t :=
  {| Available.slug := "forms"; Available.hostSiteUrl := Some "https://forms.example";
     Available.hasBuild := None |}.

Definition site_api : unit -> bool -> Outcome (list Available.t) :=
  fun _ _ => Fulfilled [available_forms].

End Integrations.

(** * Running asynchronous functions *)

Section Run.
Context {A B : Type}.

Lemma run_bind (t : Task A) (f : A -> Async B) :
  run (task_bind t f) =
    match run t with
    | (Fulfilled a, s) => run (f a s)
    | (Failed e, s) => (Failed e, s)
    end.
Proof. induction t as [a s|e s|s k IH]; simpl; auto. Qed.

Lemma run_catch (t : Task A) (h : Err -> Async A) :
  run (task_catch t h) =
    match run t with
    | (Fulfilled a, s) => (Fulfilled a, s)
    | (Failed e, s) => run (h e s)
    end.
Proof. induction t as [a s|e s|s k IH]; simpl; auto. Qed.

Lemma exec_bind (m : Async A) (f : A -> Async B) s :
  exec (bind m f) s =
    match exec m s with
    | (Fulfilled a, s') => exec (f a) s'
    | (Failed e, s') => (Failed e, s')
    end.
Proof. apply run_bind. Qed.

Lemma exec_try_catch (m : Async A) (h : Err -> Async A) s :
  exec (try_catch m h) s =
    match exec m s with
    | (Fulfilled a, s') => (Fulfilled a, s')
    | (Failed e, s') => exec (h e) s'
    end.
Proof. apply run_catch. Qed.

Lemma exec_call (op : Op) (f : Project -> Outcome A) s :
  exec (call op f) s = (f (proj s), record (Called op) s).
Proof. unfold exec, call; simpl. by destruct (f (proj s)). Qed.
End Run.

Lemma exec_ret {A} (a : A) s : exec (ret a) s = (Fulfilled a, s).
Proof. done. Qed.
Lemma exec_throw {A} e s : exec (@throw A e) s = (Failed e, s).
Proof. done. Qed.
Lemma exec_this s : exec this s = (Fulfilled (proj s), s).
Proof. done. Qed.
Lemma exec_assign f s : exec (assign f) s = (Fulfilled tt, update f s).
Proof. done. Qed.
Lemma exec_emit ev s : exec (emit ev) s = (Fulfilled tt, record (Emitted ev) s).
Proof. done. Qed.
Lemma exec_report e s : exec (report e) s = (Fulfilled tt, record (Reported e) s).
Proof. done. Qed.

Create Rewrite HintDb exec.
#[local] Hint Rewrite @exec_bind @exec_try_catch @exec_call @exec_ret @exec_throw
  exec_this exec_assign exec_emit exec_report : exec.

Lemma journal_app_nil s : journal_app [] s = s.
Proof. destruct s; unfold journal_app; simpl. by rewrite app_nil_r. Qed.

Lemma journal_app_app l1 l2 s :
  journal_app l2 (journal_app l1 s) = journal_app (l1 ++ l2) s.
Proof. unfold journal_app; simpl. by rewrite app_assoc. Qed.

(** ** Completing the tasks of a [Promise.all] *)

Section Settle.
Context {B : Type}.
Implicit Types (slots : list (Slot B)) (order : list nat).

Lemma settle_all_length order : ∀ slots s slots' s',
  settle_all order slots s = (Fulfilled slots', s') →
  length slots' = length slots.
Proof.
  induction order as [|i order IH]; intros slots s slots' s' H; simpl in H.
  - by inversion H.
  - destruct (slots !! i) as [[k|b|e]|] eqn:Hi; try (by eapply IH).
    destruct (run (k s)) as [[b|e] s1]; [|done].
    apply IH in H. by rewrite length_insert in H.
Qed.

(** A task the order names has completed, and a completed task stays so. *)
Lemma settle_all_covers order : ∀ slots s slots' s' i,
  settle_all order slots s = (Fulfilled slots', s') →
  i ∈ order ∨ ¬ pending_at slots i →
  ¬ pending_at slots' i.
Proof.
  induction order as [|j order IH]; intros slots s slots' s' i H Hi; simpl in H.
  - inversion H; subst. destruct Hi as [Hi|Hi]; [by apply elem_of_nil in Hi|done].
  - assert (Hstep : ∀ slots1 s1,
               settle_all order slots1 s1 = (Fulfilled slots', s') →
               (i = j → ¬ pending_at slots1 i) →
               (¬ pending_at slots i → ¬ pending_at slots1 i) →
               ¬ pending_at slots' i).
    { intros slots1 s1 H1 Hj Hk. eapply IH; [exact H1|].
      destruct Hi as [Hi|Hi]; [|by right; auto].
      apply elem_of_cons in Hi as [->|Hi]; [right; auto|by left]. }
    destruct (slots !! j) as [[k|b|e]|] eqn:Hj.
    + destruct (run (k s)) as [[b|e] s1]; [|done].
      eapply Hstep; [exact H| |].
      * intros -> [k' Hk']. rewrite list_lookup_insert_eq in Hk'; [done|].
        by eapply lookup_lt_Some.
      * intros Hn [k' Hk']. destruct (decide (j = i)) as [->|Hne].
        -- rewrite list_lookup_insert_eq in Hk'; [done|]. by eapply lookup_lt_Some.
        -- rewrite list_lookup_insert_ne in Hk'; [|done]. apply Hn. by exists k'.
    + eapply Hstep; [exact H| |done]. intros -> [k' Hk']. congruence.
    + eapply Hstep; [exact H| |done]. intros -> [k' Hk']. congruence.
    + eapply Hstep; [exact H| |done]. intros -> [k' Hk']. congruence.
Qed.

(** An invariant over the slots and the state that every completion keeps
    holds when all have completed. *)
Lemma settle_all_inv (Inv : list (Slot B) → St → Prop) :
  (∀ slots s i k, Inv slots s → slots !! i = Some (Pending k) →
     ∃ b s', run (k s) = (Fulfilled b, s') ∧ Inv (<[i := Done b]> slots) s') →
  ∀ order slots s, Inv slots s →
    ∃ slots' s', settle_all order slots s = (Fulfilled slots', s') ∧ Inv slots' s'.
Proof.
  intros Hstep. induction order as [|i order IH]; intros slots s HI; simpl.
  - eauto.
  - destruct (slots !! i) as [[k|b|e]|] eqn:Hi; auto.
    destruct (Hstep _ _ _ _ HI Hi) as (b & s1 & -> & HI1). auto.
Qed.

Lemma settle_all_pure order : ∀ slots s,
  (∀ i k, slots !! i = Some (Pending k) → ∃ o, settles_to k o) →
  (settle_all order slots s).2 = s.
Proof.
  induction order as [|i order IH]; intros slots s Hp; simpl; [done|].
  destruct (slots !! i) as [[k|b|e]|] eqn:Hi; auto.
  destruct (Hp _ _ Hi) as [o Ho]. rewrite Ho. destruct o as [b|e]; [|done].
  apply IH. intros j k' Hj. destruct (decide (i = j)) as [->|Hne].
  - rewrite list_lookup_insert_eq in Hj; [done|]. by eapply lookup_lt_Some.
  - rewrite list_lookup_insert_ne in Hj; [|done]. eauto.
Qed.

(** A task that rejects is still pending when nothing has rejected. *)
Lemma settle_all_keeps order : ∀ slots s slots' s' i k e,
  settle_all order slots s = (Fulfilled slots', s') →
  slots !! i = Some (Pending k) →
  settles_to k (Failed e) →
  slots' !! i = Some (Pending k).
Proof.
  induction order as [|j order IH]; intros slots s slots' s' i k e H Hi Hk;
    simpl in H.
  - by inversion H; subst.
  - destruct (slots !! j) as [[k'|b|e']|] eqn:Hj; try (by eapply IH).
    destruct (run (k' s)) as [[b|e'] s1] eqn:Hr; [|done].
    eapply IH; [exact H| |exact Hk].
    destruct (decide (j = i)) as [->|Hne].
    + rewrite Hi in Hj. inversion Hj; subst. rewrite Hk in Hr. done.
    + by rewrite list_lookup_insert_ne.
Qed.
End Settle.

Section Settle_failed.
Context {B : Type}.

(** The rejection of the whole is the rejection of one of the tasks. *)
Lemma settle_all_failed (Q : (St → Task B) → Err → Prop) order :
  ∀ (slots : list (Slot B)) s e s',
  settle_all order slots s = (Failed e, s') →
  (∀ i k s0 s1 e0, slots !! i = Some (Pending k) →
     run (k s0) = (Failed e0, s1) → Q k e0) →
  ∃ k, Q k e ∧ ∃ i, slots !! i = Some (Pending k).
Proof.
  induction order as [|j order IH]; intros slots s e s' H HQ; simpl in H;
    [done|].
  destruct (slots !! j) as [[k|b|e']|] eqn:Hj; try (by eapply IH).
  destruct (run (k s)) as [[b|e'] s1] eqn:Hr.
  - destruct (IH _ _ _ _ H) as (k' & Hk' & i & Hi).
    + intros i k' s0 s2 e0 Hi. destruct (decide (j = i)) as [->|Hne].
      * rewrite list_lookup_insert_eq in Hi; [done|]. by eapply lookup_lt_Some.
      * rewrite list_lookup_insert_ne in Hi; [|done]. eauto.
    + exists k'. split; [done|]. destruct (decide (j = i)) as [->|Hne].
      * rewrite list_lookup_insert_eq in Hi; [done|]. by eapply lookup_lt_Some.
      * rewrite list_lookup_insert_ne in Hi; [|done]. eauto.
  - inversion H; subst. exists k. split; eauto.
Qed.
End Settle_failed.

Lemma exec_promise_all {B} order (tasks : list (Async B)) s :
  exec (promise_all order tasks) s =
    match first_broken (start_all tasks s).1 with
    | Some e => (Failed e, (start_all tasks s).2)
    | None =>
        match settle_all (order ++ seq 0 (length (start_all tasks s).1))
                (start_all tasks s).1 (start_all tasks s).2 with
        | (Fulfilled slots', s3) => (Fulfilled (omap done_value slots'), s3)
        | (Failed e, s3) => (Failed e, s3)
        end
    end.
Proof.
  unfold exec, promise_all. destruct (start_all tasks s) as [slots s1]; simpl.
  destruct (first_broken slots); [done|].
  by destruct (settle_all _ slots s1) as [[slots'|e] s3].
Qed.

Section Start.
Context {X B : Type} (T : X → Async B).
Context (J : X → list Entry) (P : X → (St → Task B) → Prop).

(** Tasks that are suspended at a first [await], having journalled [J]. *)
Lemma start_all_suspended p xs :
  (∀ x s, proj s = p →
     ∃ k, T x s = Suspended (journal_app (J x) s) k ∧ P x k) →
  ∀ s, proj s = p →
    ∃ slots,
      start_all (map T xs) s = (slots, journal_app (concat (map J xs)) s)
      ∧ Forall2 (fun slot x => ∃ k, slot = Pending k ∧ P x k) slots xs.
Proof.
  intros HT. induction xs as [|x xs IH]; intros s Hs; simpl.
  - exists []. by rewrite journal_app_nil.
  - destruct (HT x s Hs) as (k & -> & Hk).
    destruct (IH (journal_app (J x) s)) as (slots & -> & Hslots); [done|].
    exists (Pending k :: slots). rewrite journal_app_app. split; [done|].
    constructor; eauto.
Qed.
End Start.

Lemma first_broken_pending {X B} (P : X → (St → Task B) → Prop) slots xs :
  Forall2 (fun slot x => ∃ k, slot = Pending k ∧ P x k) slots xs →
  first_broken slots = None.
Proof. induction 1 as [|slot x slots xs (k & -> & _) _ IH]; simpl; auto. Qed.

Section Pure_tasks.
Context {X B : Type} (T : X → Async B).
Context (J : X → list Entry) (O : X → Outcome B).

Lemma done_values slots xs :
  Forall2 (slot_ok O) slots xs →
  (∀ i, ¬ pending_at slots i) →
  omap done_value slots = omap (fun x => fulfilled_value (O x)) xs.
Proof.
  induction 1 as [|slot x slots xs (b & Hb & Hslot) _ IH]; intros Hn; [done|].
  destruct Hslot as [->|(k & -> & _)].
  - simpl. rewrite Hb; simpl. f_equal. apply IH.
    intros i [k Hk]. apply (Hn (S i)). by exists k.
  - exfalso. apply (Hn 0). by exists k.
Qed.

(** [Promise.all] over operations that are started and, when they settle,
    leave the project alone: all are journalled in the order they are
    started in; the results come in that order too, whatever the order of
    completion; if one fails, the whole fails with a failure of one. *)
Lemma promise_all_pure p order xs :
  (∀ x s, proj s = p →
     ∃ k, T x s = Suspended (journal_app (J x) s) k ∧ settles_to k (O x)) →
  ∀ s, proj s = p →
    ∃ K, promise_all order (map T xs) s
         = Suspended (journal_app (concat (map J xs)) s) K
      ∧ ∀ s2, ∃ r, run (K s2) = (r, s2)
         ∧ (Forall (fun x => is_Some (fulfilled_value (O x))) xs →
            r = Fulfilled (omap (fun x => fulfilled_value (O x)) xs))
         ∧ (Exists (fun x => fulfilled_value (O x) = None) xs →
            ∃ e, r = Failed e ∧ Exists (fun x => O x = Failed e) xs).
Proof.
  intros HT s Hs. unfold promise_all.
  destruct (start_all_suspended T J (fun x k => settles_to k (O x)) p xs HT s Hs)
    as (slots & -> & Hslots).
  eexists; split; [done|]. intros s2. cbv beta.
  rewrite (first_broken_pending _ _ _ Hslots).
  set (ord := order ++ seq 0 (length slots)).
  assert (Hpure : ∀ i k, slots !! i = Some (Pending k) → ∃ o, settles_to k o).
  { intros i k Hi. destruct (Forall2_lookup_l _ _ _ _ _ Hslots Hi)
      as (x & _ & k' & Hk' & Hx). inversion Hk'; subst. eauto. }
  assert (Hfail : ∀ e s3, settle_all ord slots s2 = (Failed e, s3) →
                          ∃ x, x ∈ xs ∧ O x = Failed e).
  { intros e s3 Hsettle.
    destruct (settle_all_failed (fun k e0 => ∃ x, x ∈ xs ∧ O x = Failed e0)
                ord slots s2 e s3 Hsettle) as (k & Hk & _); [|done].
    intros i k s0 s1 e0 Hi Hr.
    destruct (Forall2_lookup_l _ _ _ _ _ Hslots Hi)
      as (x & Hx & k' & Hk' & Hset). inversion Hk'; subst k'.
    rewrite Hset in Hr. inversion Hr. exists x. split; [|done].
    apply list_elem_of_lookup. eauto. }
  pose proof (settle_all_pure ord slots s2 Hpure) as Hst.
  destruct (settle_all ord slots s2) as [[slots'|e] s3] eqn:Hsettle;
    simpl in Hst; subst s3; simpl.
  - eexists; split; [done|]. split.
    + intros Hall. f_equal.
      destruct (settle_all_inv (fun sl _ => Forall2 (slot_ok O) sl xs)) with
        (order := ord) (slots := slots) (s := s2) as (sl & s' & Heq & Hinv).
      * intros sl s0 i k Hinv Hi.
        destruct (Forall2_lookup_l _ _ _ _ _ Hinv Hi)
          as (x & Hx & b & Hb & [?|(k' & Hk' & Hset)]); [done|].
        inversion Hk'; subst k'. exists b, s0. split; [by rewrite Hset, Hb|].
        rewrite <- (list_insert_id xs i x Hx). apply Forall2_insert; [done|].
        exists b. eauto.
      * clear -Hslots Hall. induction Hslots as [|?? ?? (k & -> & Hk) _ IH].
        { constructor. }
        apply Forall_cons in Hall as [[b Hb] Hall]. constructor; [|auto].
        exists b. destruct (O y) eqn:HO; simplify_eq/=. eauto.
      * rewrite Hsettle in Heq. inversion Heq; subst sl s'.
        apply done_values; [done|]. intros i Hi.
        destruct Hi as [k Hk]. pose proof (lookup_lt_Some _ _ _ Hk) as Hlt.
        rewrite (settle_all_length _ _ _ _ _ Hsettle) in Hlt.
        eapply (settle_all_covers ord); [exact Hsettle| |by exists k].
        left. subst ord. apply elem_of_app. right. apply elem_of_seq. lia.
    + intros Hex. exfalso. apply Exists_exists in Hex as (x & Hx & Hnone).
      apply list_elem_of_lookup in Hx as [i Hi].
      destruct (Forall2_lookup_r _ _ _ _ _ Hslots Hi) as (slot & Hsl & k & -> & Hk).
      destruct (O x) as [b|e] eqn:HO; [done|].
      pose proof (settle_all_keeps _ _ _ _ _ _ _ _ Hsettle Hsl Hk) as Hkeep.
      eapply (settle_all_covers ord); [exact Hsettle| |by exists k].
      left. subst ord. apply elem_of_app. right. apply elem_of_seq.
      apply lookup_lt_Some in Hsl. lia.
  - eexists; split; [done|]. destruct (Hfail _ _ eq_refl) as (x & Hx & HO).
    split.
    + intros Hall. exfalso.
      eapply Forall_forall in Hall; [|exact Hx]. rewrite HO in Hall.
      by destruct Hall.
    + intros _. exists e. split; [done|]. apply Exists_exists. eauto.
Qed.
End Pure_tasks.

(** * The stages, one by one *)

Ltac exec_step := autorewrite with exec; simpl.

Lemma exec_detectPackageManager w s :
  exec (detectPackageManager w) s =
    if is_defined (packageManager (proj s))
    then (Fulfilled (packageManager (proj s)), s)
    else match resolvePackageManager w (proj s) with
         | Fulfilled pm =>
             (Fulfilled (of_option pm),
              record (Emitted (EvDetectPackageManager (of_option pm)))
                (update (set_packageManager (of_option pm))
                   (record (Called OpDetectPackageManager) s)))
         | Failed _ => (Fulfilled Null, record (Called OpDetectPackageManager) s)
         end.
Proof.
  unfold detectPackageManager. exec_step.
  destruct (is_defined (packageManager (proj s))); [done|]. exec_step.
  destruct (resolvePackageManager w (proj s)); by exec_step.
Qed.

Lemma exec_detectWorkspaces w s :
  exec (detectWorkspaces w) s =
    if is_defined (workspace (proj s))
    then (Fulfilled (workspace (proj s)), s)
    else
      let s1 := (exec (detectPackageManager w) s).2 in
      match resolveWorkspaces w (proj s1) with
      | Fulfilled ws =>
          (Fulfilled (of_option ws),
           record (Emitted (EvDetectWorkspaces (of_option ws)))
             (update (set_workspace (of_option ws))
                (record (Called OpDetectWorkspaces) s1)))
      | Failed e =>
          (Fulfilled Null, record (Reported e) (record (Called OpDetectWorkspaces) s1))
      end.
Proof.
  unfold detectWorkspaces. exec_step.
  destruct (is_defined (workspace (proj s))); [done|]. exec_step.
  rewrite exec_detectPackageManager.
  destruct (is_defined (packageManager (proj s))); simpl.
  - exec_step. destruct (resolveWorkspaces w (proj s)); by exec_step.
  - destruct (resolvePackageManager w (proj s)); simpl; exec_step.
    + match goal with |- context [resolveWorkspaces w ?p] =>
        destruct (resolveWorkspaces w p) end; by exec_step.
    + destruct (resolveWorkspaces w (proj s)); by exec_step.
Qed.

Lemma detectPackageManager_resolves w s :
  ∃ v, exec (detectPackageManager w) s
       = (Fulfilled v, (exec (detectPackageManager w) s).2).
Proof.
  rewrite exec_detectPackageManager.
  destruct (is_defined _); [eauto|].
  destruct (resolvePackageManager w (proj s)); eauto.
Qed.

Lemma detectWorkspaces_resolves w s :
  ∃ v, exec (detectWorkspaces w) s
       = (Fulfilled v, (exec (detectWorkspaces w) s).2).
Proof.
  rewrite exec_detectWorkspaces.
  destruct (is_defined _); [eauto|]. simpl.
  destruct (resolveWorkspaces w _); eauto.
Qed.

Lemma omap_mapM {X B} (f : X → option B) xs bs :
  mapM f xs = Some bs → omap f xs = bs.
Proof.
  intros HM. apply mapM_Some_1 in HM.
  induction HM as [|x b xs bs Hx _ IH]; [done|].
  cbn. rewrite Hx. cbn. f_equal. exact IH.
Qed.

Section Pure_exec.
Context {X B : Type} (T : X → Async B).
Context (J : X → list Entry) (O : X → Outcome B).

Lemma exec_promise_all_pure p order xs :
  (∀ x s, proj s = p →
     ∃ k, T x s = Suspended (journal_app (J x) s) k ∧ settles_to k (O x)) →
  ∀ s, proj s = p →
    match mapM (fun x => fulfilled_value (O x)) xs with
    | Some bs =>
        exec (promise_all order (map T xs)) s
        = (Fulfilled bs, journal_app (concat (map J xs)) s)
    | None =>
        ∃ e, Exists (fun x => O x = Failed e) xs
           ∧ exec (promise_all order (map T xs)) s
             = (Failed e, journal_app (concat (map J xs)) s)
    end.
Proof.
  intros HT s Hs.
  destruct (promise_all_pure T J O p order xs HT s Hs) as (K & HK & Hrun).
  unfold exec. rewrite HK. simpl.
  destruct (Hrun (journal_app (concat (map J xs)) s)) as (r & -> & Hok & Hko).
  destruct (mapM _ xs) as [bs|] eqn:HM.
  - rewrite Hok.
    + by rewrite (omap_mapM _ _ _ HM).
    + apply (mapM_is_Some_1 (fun x => fulfilled_value (O x))). by rewrite HM.
  - apply mapM_None_1 in HM. destruct (Hko HM) as (e & -> & He). eauto.
Qed.
End Pure_exec.

Lemma concat_map_singleton {X Y} (f : X → Y) xs :
  concat (map (fun x => [f x]) xs) = map f xs.
Proof. induction xs; simpl; congruence. Qed.

(** ** Build systems *)

Lemma detect_shape w b s :
  ∃ k, detect w b s = Suspended (journal_app [search_call (proj s) b] s) k
     ∧ settles_to k (search w (proj s) b).
Proof.
  unfold detect, bind, this, call; simpl. eexists; split; [done|].
  intros s'. unfold search.
  destruct (findUp _ _ _ _) as [config|e]; simpl; [|done].
  by destruct (truthy config).
Qed.

Lemma exec_detectBuildSystem w s :
  buildSystems (proj s) = None →
  let s1 := (exec (detectWorkspaces w) s).2 in
  let s2 := journal_app (map (search_call (proj s1)) (registeredBuildSystems w)) s1 in
  match mapM (fun b => fulfilled_value (search w (proj s1) b))
          (registeredBuildSystems w) with
  | Some found =>
      exec (detectBuildSystem w) s
      = (Fulfilled (Some (omap id found)),
         record (Emitted (EvDetectBuildsystems (omap id found)))
           (update (set_buildSystems (Some (omap id found))) s2))
  | None =>
      ∃ e, Exists (fun b => search w (proj s1) b = Failed e) (registeredBuildSystems w)
         ∧ exec (detectBuildSystem w) s
           = (Fulfilled (Some []), record (Reported e) s2)
  end.
Proof.
  intros Hunset s1 s2. unfold detectBuildSystem. exec_step. rewrite Hunset.
  exec_step. destruct (detectWorkspaces_resolves w s) as [v ->]. fold s1.
  exec_step.
  pose proof (exec_promise_all_pure (detect w)
                (fun b => [search_call (proj s1) b]) (search w (proj s1))
                (proj s1) (completion w SiteBuildSystems)
                (registeredBuildSystems w)) as Hall.
  rewrite concat_map_singleton in Hall. specialize (Hall ltac:(
    intros b s0 Hs0; rewrite <- Hs0; apply detect_shape) s1 eq_refl).
  fold s2 in Hall.
  destruct (mapM _ (registeredBuildSystems w)) as [found|].
  - rewrite Hall. by exec_step.
  - destruct Hall as (e & He & ->). exists e. split; [done|]. by exec_step.
Qed.

Lemma detectBuildSystem_resolves w s :
  ∃ v, exec (detectBuildSystem w) s
       = (Fulfilled (Some v), (exec (detectBuildSystem w) s).2).
Proof.
  destruct (buildSystems (proj s)) as [l|] eqn:Hbs.
  - unfold detectBuildSystem. exec_step. rewrite Hbs. eauto.
  - pose proof (exec_detectBuildSystem w s Hbs) as H; simpl in H.
    destruct (mapM _ _); [rewrite H; eauto|].
    destruct H as (e & _ & ->). eauto.
Qed.

(** ** The map of frameworks *)

Lemma map_set_keys k v m key :
  key ∈ (map_set k v m).*1 ↔ key = k ∨ key ∈ m.*1.
Proof.
  induction m as [|[k' v'] m IH]; simpl.
  - rewrite list_elem_of_singleton, elem_of_nil. tauto.
  - destruct (String.eqb_spec k' k) as [->|Hne]; simpl.
    + rewrite !elem_of_cons. tauto.
    + rewrite !elem_of_cons, IH. tauto.
Qed.

Lemma map_set_NoDup k v m : NoDup m.*1 → NoDup (map_set k v m).*1.
Proof.
  induction m as [|[k' v'] m IH]; simpl; intros Hm.
  - apply NoDup_singleton.
  - apply NoDup_cons in Hm as [Hk' Hm].
    destruct (String.eqb_spec k' k) as [->|Hne]; simpl.
    + by apply NoDup_cons.
    + apply NoDup_cons. split; [|auto].
      rewrite map_set_keys. intros [?|?]; [congruence|done].
Qed.

Lemma map_set_entries k v m key x :
  (key, x) ∈ map_set k v m → (key = k ∧ x = v) ∨ (key, x) ∈ m.
Proof.
  induction m as [|[k' v'] m IH]; simpl.
  - rewrite list_elem_of_singleton. intros [= -> ->]. by left.
  - destruct (String.eqb_spec k' k) as [->|Hne]; rewrite !elem_of_cons.
    + intros [[= -> ->]|?]; [by left|right; by right].
    + intros [?|H]; [right; by left|]. destruct (IH H); [by left|right; by right].
Qed.

Lemma map_get_entries k v m : NoDup m.*1 → (k, v) ∈ m → map_get k m = Some v.
Proof.
  induction m as [|[k' v'] m IH]; simpl; intros Hm Hin.
  - by apply elem_of_nil in Hin.
  - apply NoDup_cons in Hm as [Hk' Hm]. apply elem_of_cons in Hin as [[= <- <-]|Hin].
    + by rewrite String.eqb_refl.
    + destruct (String.eqb_spec k' k) as [->|Hne]; [|auto].
      exfalso. apply Hk'. apply list_elem_of_fmap. by exists (k, v).
Qed.

(** ** Frameworks *)

Lemma detectFrameworksInPath_shape w path0 s :
  ∃ k, detectFrameworksInPath w path0 s
       = Suspended (journal_app (map (framework_call path0) (registeredFrameworks w)) s) k
     ∧ settles_to k (Fulfilled (frameworks_in_path w (proj s) path0)).
Proof.
  unfold detectFrameworksInPath, try_catch, bind.
  destruct (promise_all_pure
              (fun F => call (OpFramework (framework_id F) path0)
                          (fun p => framework_detect F p path0))
              (fun F => [framework_call path0 F])
              (fun F => framework_detect F (proj s) path0)
              (proj s) (completion w (SiteFrameworks path0))
              (registeredFrameworks w)) with (s := s) as (K & -> & HK); [|done|].
  { intros F s0 Hs0. unfold call. rewrite Hs0. eexists; split; [done|].
    intros s'. by destruct (framework_detect F (proj s) path0). }
  rewrite concat_map_singleton. simpl. eexists; split; [done|].
  intros s'. rewrite run_catch, run_bind.
  destruct (HK s') as (r & -> & Hok & Hko). unfold frameworks_in_path.
  destruct (mapM _ _) as [detected|] eqn:HM.
  - rewrite Hok.
    + by rewrite (omap_mapM _ _ _ HM).
    + apply (mapM_is_Some_1 (fun F => fulfilled_value (framework_detect F (proj s) path0))).
      by rewrite HM.
  - apply mapM_None_1 in HM. by destruct (Hko HM) as (e & -> & _).
Qed.

Lemma exec_detectFrameworksInPath w path0 s :
  exec (detectFrameworksInPath w path0) s
  = (Fulfilled (frameworks_in_path w (proj s) path0),
     journal_app (map (framework_call path0) (registeredFrameworks w)) s).
Proof.
  unfold exec. destruct (detectFrameworksInPath_shape w path0 s) as (k & -> & Hk).
  simpl. apply Hk.
Qed.

Lemma exec_frameworks_set k v s :
  exec (frameworks_set k v) s =
    match frameworks (proj s) with
    | Some m => (Fulfilled tt, update (set_frameworks (Some (map_set k v m))) s)
    | None => (Failed TypeError, s)
    end.
Proof. unfold frameworks_set. exec_step. by destruct (frameworks (proj s)). Qed.

Lemma detectFrameworksInPackage_shape w pkg s ws :
  workspace (proj s) = Obj ws →
  ∃ k, detectFrameworksInPackage w pkg s
       = Suspended (journal_app (map (framework_call (package_dir w ws (path pkg)))
                                   (registeredFrameworks w)) s) k
     ∧ ∀ s', run (k s')
             = exec (frameworks_set (path pkg)
                       (frameworks_in_path w (proj s) (package_dir w ws (path pkg)))) s'.
Proof.
  intros Hws. unfold detectFrameworksInPackage, bind at 1, this. simpl.
  rewrite Hws. unfold bind.
  destruct (detectFrameworksInPath_shape w (package_dir w ws (path pkg)) s)
    as (k & Hk & Hset). unfold package_dir in Hk. rewrite Hk. simpl.
  eexists; split; [done|]. intros s'. cbv beta. rewrite run_bind, Hset. done.
Qed.

Lemma set_frameworks_id p : set_frameworks (frameworks p) p = p.
Proof. by destruct p. Qed.

(** The fan-out over the members of a workspace, for every order in which
    the members complete. *)
Lemma exec_fan_out w s ws :
  workspace (proj s) = Obj ws →
  frameworks (proj s) = Some [] →
  ∃ m rs,
    exec (promise_all (completion w SitePackages)
            (map (detectFrameworksInPackage w) (packages ws))) s
    = (Fulfilled rs,
       update (set_frameworks (Some m)) (journal_app (package_calls w ws) s))
    ∧ covers w (proj s) ws m.
Proof.
  intros Hws Hfw.
  set (resk := fun key => frameworks_in_path w (proj s) (package_dir w ws key)).
  set (P := fun (x : WorkspacePackage) (k : St → Task unit) =>
              ∀ s', run (k s') = exec (frameworks_set (path x) (resk (path x))) s').
  rewrite exec_promise_all.
  destruct (start_all_suspended (detectFrameworksInPackage w)
              (fun pkg => map (framework_call (package_dir w ws (path pkg)))
                            (registeredFrameworks w))
              P (proj s) (packages ws)) with (s := s)
    as (slots & Hstart & Hslots); [|done|].
  { intros x s0 Hs0.
    destruct (detectFrameworksInPackage_shape w x s0 ws) as (k & Hk & Hrun);
      [by rewrite Hs0|].
    exists k. split; [done|]. intros s'. rewrite Hrun. unfold resk. by rewrite Hs0. }
  rewrite Hstart; simpl. fold (package_calls w ws).
  rewrite (first_broken_pending _ _ _ Hslots).
  set (s1 := journal_app (package_calls w ws) s).
  set (ord := completion w SitePackages ++ seq 0 (length slots)).
  set (Inv := fun (sl : list (Slot unit)) (s' : St) =>
     ∃ m, s' = update (set_frameworks (Some m)) s1
        ∧ NoDup m.*1
        ∧ (∀ key v, (key, v) ∈ m → v = resk key)
        ∧ (∀ key, key ∈ m.*1 ↔
             ∃ i x b, packages ws !! i = Some x ∧ path x = key
                      ∧ sl !! i = Some (Done b))
        ∧ Forall2 (fun slot x => (∃ b, slot = Done b)
                                 ∨ ∃ k, slot = Pending k ∧ P x k) sl (packages ws)).
  destruct (settle_all_inv Inv) with (order := ord) (slots := slots) (s := s1)
    as (slots' & s' & Heq & m & -> & Hnd & Hval & Hkeys & Hfa).
  - intros sl s0 i k (m & -> & Hnd & Hval & Hkeys & Hfa) Hi.
    destruct (Forall2_lookup_l _ _ _ _ _ Hfa Hi)
      as (x & Hx & [[b ?]|(k' & Hk' & HP)]); [done|].
    inversion Hk'; subst k'.
    exists tt, (update (set_frameworks (Some (map_set (path x) (resk (path x)) m))) s1).
    split; [by rewrite HP, exec_frameworks_set|].
    exists (map_set (path x) (resk (path x)) m).
    split; [done|]. split; [by apply map_set_NoDup|]. split; [|split].
    + intros key v Hin. apply map_set_entries in Hin as [[-> ->]|Hin]; eauto.
    + intros key. rewrite map_set_keys, Hkeys. split.
      * intros [->|(j & y & b & Hy & Hp & Hj)].
        -- exists i, x, tt. rewrite list_lookup_insert_eq; [done|].
           by eapply lookup_lt_Some.
        -- exists j, y, b. split; [done|]. split; [done|].
           rewrite list_lookup_insert_ne; [done|]. intros ->. congruence.
      * intros (j & y & b & Hy & Hp & Hj). destruct (decide (i = j)) as [->|Hne].
        -- left. congruence.
        -- right. rewrite list_lookup_insert_ne in Hj; [|done]. eauto 10.
    + rewrite <- (list_insert_id (packages ws) i x Hx).
      apply Forall2_insert; [done|]. left; eauto.
  - exists []. split; [|split; [constructor|split; [|split]]].
    + unfold update, s1, journal_app; cbn [proj journal]. f_equal.
      rewrite <- (set_frameworks_id (proj s)) at 1. by f_equal.
    + intros ?? Hin; by apply elem_of_nil in Hin.
    + intros key. split; [intros Hin; by apply elem_of_nil in Hin|].
      intros (i & x & b & Hx & _ & Hi).
      destruct (Forall2_lookup_r _ _ _ _ _ Hslots Hx) as (slot & Hsl & k & -> & _).
      congruence.
    + eapply Forall2_impl; [exact Hslots|]. intros slot x (k & -> & Hk).
      right; eauto.
  - rewrite Heq. exists m, (omap done_value slots'). split; [done|].
    split; [done|]. split; [|done].
    intros key. rewrite Hkeys, list_elem_of_fmap. split.
    + intros (i & x & b & Hx & Hp & _). exists x. split; [done|].
      apply list_elem_of_lookup; eauto.
    + intros (x & -> & Hin). apply list_elem_of_lookup in Hin as [i Hi].
      destruct (Forall2_lookup_r _ _ _ _ _ Hfa Hi)
        as (slot & Hsl & [[b ->]|(k & -> & _)]); [eauto 10|].
      exfalso. eapply (settle_all_covers ord); [exact Heq| |by exists k].
      left. apply elem_of_app; right. apply elem_of_seq.
      apply lookup_lt_Some in Hsl.
      rewrite (settle_all_length _ _ _ _ _ Heq) in Hsl. lia.
Qed.

Lemma exec_detectFrameworks w s :
  frameworks (proj s) = None →
  let s1 := (exec (detectBuildSystem w) s).2 in
  ∃ m, exec (detectFrameworks w) s
       = (Fulfilled (Obj (values_flat m)),
          record (Emitted (EvDetectFrameworks m))
            (update (set_frameworks (Some m))
               (journal_app (framework_calls w (proj s1)) s1)))
     ∧ detected_map w (proj s1) m.
Proof.
  intros Hunset s1. unfold detectFrameworks. exec_step. rewrite Hunset.
  exec_step. destruct (detectBuildSystem_resolves w s) as [v ->]. fold s1.
  exec_step. unfold framework_calls, detected_map.
  destruct (workspace (proj s1)) as [| |ws] eqn:Hws.
  - exec_step. rewrite exec_detectFrameworksInPath, exec_frameworks_set. simpl.
    exec_step. eauto.
  - exec_step. rewrite exec_detectFrameworksInPath, exec_frameworks_set. simpl.
    exec_step. eauto.
  - exec_step.
    destruct (exec_fan_out w (update (set_frameworks (Some [])) s1) ws)
      as (m & rs & -> & Hm); [done..|].
    exec_step. eauto.
Qed.

Lemma detectFrameworks_resolves w s :
  ∃ v, exec (detectFrameworks w) s
       = (Fulfilled (Obj v), (exec (detectFrameworks w) s).2).
Proof.
  destruct (frameworks (proj s)) as [m|] eqn:Hfw.
  - unfold detectFrameworks. exec_step. rewrite Hfw. eauto.
  - destruct (exec_detectFrameworks w s Hfw) as (m & -> & _). eauto.
Qed.

(** ** Settings *)

Lemma exec_getBuildSettings w s :
  settings (proj s) = None →
  let s1 := (exec (detectFrameworks w) (update (set_settings (Some [])) s)).2 in
  exec (getBuildSettings w) s =
    match generateBuildSettings w (proj s1) with
    | Fulfilled l =>
        (Fulfilled (Some l),
         record (Emitted (EvDetectSettings l))
           (update (set_settings (Some l)) (record (Called OpGetBuildSettings) s1)))
    | Failed e =>
        (Fulfilled (settings (proj s1)),
         record (Reported e) (record (Called OpGetBuildSettings) s1))
    end.
Proof.
  intros Hunset s1. unfold getBuildSettings. exec_step. rewrite Hunset.
  exec_step.
  destruct (detectFrameworks_resolves w (update (set_settings (Some [])) s))
    as [v ->]. fold s1. exec_step.
  destruct (generateBuildSettings w (proj s1)); by exec_step.
Qed.

(** ** What a stage leaves of the project *)

Lemma set_packageManager_id p : set_packageManager (packageManager p) p = p.
Proof. by destruct p. Qed.
Lemma set_workspace_id p : set_workspace (workspace p) p = p.
Proof. by destruct p. Qed.
Lemma set_buildSystems_id p : set_buildSystems (buildSystems p) p = p.
Proof. by destruct p. Qed.

Lemma detectPackageManager_frame w s :
  ∃ a, proj (exec (detectPackageManager w) s).2 = set_packageManager a (proj s).
Proof.
  rewrite exec_detectPackageManager.
  destruct (is_defined _); simpl.
  - exists (packageManager (proj s)). by rewrite set_packageManager_id.
  - destruct (resolvePackageManager w (proj s)); simpl; [eauto|].
    exists (packageManager (proj s)). by rewrite set_packageManager_id.
Qed.

Lemma detectWorkspaces_frame w s :
  ∃ a b, proj (exec (detectWorkspaces w) s).2
         = set_workspace b (set_packageManager a (proj s)).
Proof.
  rewrite exec_detectWorkspaces.
  destruct (is_defined _); simpl.
  - exists (packageManager (proj s)), (workspace (proj s)).
    by rewrite set_packageManager_id, set_workspace_id.
  - destruct (detectPackageManager_frame w s) as [a Ha].
    destruct (resolveWorkspaces w _); simpl; rewrite Ha; [eauto|].
    exists a, (workspace (proj s)). by destruct (proj s).
Qed.

Lemma detectBuildSystem_frame w s :
  ∃ a b c, proj (exec (detectBuildSystem w) s).2
           = set_buildSystems c (set_workspace b (set_packageManager a (proj s))).
Proof.
  destruct (buildSystems (proj s)) as [l|] eqn:Hbs.
  - unfold detectBuildSystem. exec_step. rewrite Hbs. simpl.
    exists (packageManager (proj s)), (workspace (proj s)), (buildSystems (proj s)).
    by destruct (proj s).
  - pose proof (exec_detectBuildSystem w s Hbs) as H; simpl in H.
    destruct (detectWorkspaces_frame w s) as (a & b & Hab).
    destruct (mapM _ _).
    + rewrite H; simpl. rewrite Hab. eauto.
    + destruct H as (e & _ & ->); simpl. rewrite Hab.
      exists a, b, (buildSystems (proj s)). by destruct (proj s).
Qed.

Lemma detectFrameworks_frame w s :
  ∃ a b c d, proj (exec (detectFrameworks w) s).2
             = set_frameworks d
                 (set_buildSystems c (set_workspace b (set_packageManager a (proj s)))).
Proof.
  destruct (frameworks (proj s)) as [m|] eqn:Hfw.
  - unfold detectFrameworks. exec_step. rewrite Hfw. simpl.
    exists (packageManager (proj s)), (workspace (proj s)), (buildSystems (proj s)),
      (frameworks (proj s)). by destruct (proj s).
  - destruct (exec_detectFrameworks w s Hfw) as (m & -> & _); simpl.
    destruct (detectBuildSystem_frame w s) as (a & b & c & ->). eauto.
Qed.

(** * The claims *)

(** ** Safety *)

(** C7: each of the five stage accessors resolves to a value and never
    rejects, from every state of the project and in every world, that is
    however the collaborators fail when detection logic awaits them. *)
Theorem accessors_never_reject (w : World) (s : St) :
  (∃ v, (exec (detectPackageManager w) s).1 = Fulfilled v)
  ∧ (∃ v, (exec (detectWorkspaces w) s).1 = Fulfilled v)
  ∧ (∃ v, (exec (detectBuildSystem w) s).1 = Fulfilled v)
  ∧ (∃ v, (exec (detectFrameworks w) s).1 = Fulfilled v)
  ∧ (∃ v, (exec (getBuildSettings w) s).1 = Fulfilled v).
Proof.
  repeat split.
  - destruct (detectPackageManager_resolves w s) as [v ->]. eauto.
  - destruct (detectWorkspaces_resolves w s) as [v ->]. eauto.
  - destruct (detectBuildSystem_resolves w s) as [v ->]. eauto.
  - destruct (detectFrameworks_resolves w s) as [v ->]. eauto.
  - destruct (settings (proj s)) as [l|] eqn:Hs.
    + unfold getBuildSettings. exec_step. rewrite Hs. eauto.
    + rewrite (exec_getBuildSettings w s Hs).
      destruct (generateBuildSettings w _); eauto.
Qed.

(** ** Memoization *)

Lemma detectPackageManager_cached w s :
  is_run packageManager (proj s) →
  exec (detectPackageManager w) s = (Fulfilled (packageManager (proj s)), s).
Proof.
  intros Hrun. rewrite exec_detectPackageManager.
  unfold is_run in Hrun. by destruct (packageManager (proj s)).
Qed.

Lemma detectWorkspaces_cached w s :
  is_run workspace (proj s) →
  exec (detectWorkspaces w) s = (Fulfilled (workspace (proj s)), s).
Proof.
  intros Hrun. rewrite exec_detectWorkspaces.
  unfold is_run in Hrun. by destruct (workspace (proj s)).
Qed.

Lemma detectBuildSystem_cached w s :
  is_stored buildSystems (proj s) →
  exec (detectBuildSystem w) s = (Fulfilled (buildSystems (proj s)), s).
Proof.
  intros Hrun. unfold detectBuildSystem. exec_step.
  unfold is_stored in Hrun. by destruct (buildSystems (proj s)).
Qed.

Lemma detectFrameworks_cached w s m :
  frameworks (proj s) = Some m →
  exec (detectFrameworks w) s = (Fulfilled (Obj (values_flat m)), s).
Proof. intros Hm. unfold detectFrameworks. exec_step. by rewrite Hm. Qed.

Lemma getBuildSettings_cached w s :
  is_stored settings (proj s) →
  exec (getBuildSettings w) s = (Fulfilled (settings (proj s)), s).
Proof.
  intros Hrun. unfold getBuildSettings. exec_step.
  unfold is_stored in Hrun. by destruct (settings (proj s)).
Qed.

Lemma detectPackageManager_memoized :
  memoized detectPackageManager (is_run packageManager).
Proof.
  intros w1 w2 s Hst. rewrite detectPackageManager_cached; [|done].
  revert Hst. rewrite exec_detectPackageManager. unfold is_run.
  destruct (packageManager (proj s)) eqn:Hpm; simpl; rewrite ?Hpm; try done.
  destruct (resolvePackageManager w1 (proj s)); simpl; [done|].
  by rewrite Hpm.
Qed.

Lemma detectWorkspaces_memoized : memoized detectWorkspaces (is_run workspace).
Proof.
  intros w1 w2 s Hst. rewrite detectWorkspaces_cached; [|done].
  revert Hst. rewrite exec_detectWorkspaces. unfold is_run.
  destruct (workspace (proj s)) eqn:Hws; simpl; rewrite ?Hws; try done.
  destruct (detectPackageManager_frame w1 s) as [a Ha].
  destruct (resolveWorkspaces w1 _); simpl; [done|].
  by rewrite Ha; simpl; rewrite Hws.
Qed.

Lemma detectBuildSystem_memoized :
  memoized detectBuildSystem (is_stored buildSystems).
Proof.
  intros w1 w2 s Hst. rewrite detectBuildSystem_cached; [|done].
  revert Hst. unfold is_stored.
  destruct (buildSystems (proj s)) as [l|] eqn:Hbs.
  - unfold detectBuildSystem. exec_step. rewrite Hbs. simpl. by rewrite Hbs.
  - pose proof (exec_detectBuildSystem w1 s Hbs) as H; simpl in H.
    destruct (detectWorkspaces_frame w1 s) as (a & b & Hab).
    destruct (mapM _ _); [by rewrite H|].
    destruct H as (e & _ & ->); simpl. by rewrite Hab; simpl; rewrite Hbs.
Qed.

Lemma detectFrameworks_memoized :
  memoized detectFrameworks (is_stored frameworks).
Proof.
  intros w1 w2 s _.
  destruct (frameworks (proj s)) as [m|] eqn:Hfw.
  - rewrite (detectFrameworks_cached w1 s m Hfw); simpl.
    by apply detectFrameworks_cached.
  - destruct (exec_detectFrameworks w1 s Hfw) as (m & -> & _); simpl.
    by apply detectFrameworks_cached.
Qed.

Lemma settings_kept_by_detectFrameworks w s :
  settings (proj (exec (detectFrameworks w) s).2) = settings (proj s).
Proof. by destruct (detectFrameworks_frame w s) as (a & b & c & d & ->). Qed.

Lemma getBuildSettings_memoized :
  memoized getBuildSettings (is_stored settings).
Proof.
  intros w1 w2 s _.
  destruct (settings (proj s)) as [l|] eqn:Hs.
  - rewrite (getBuildSettings_cached w1 s); [|by unfold is_stored; rewrite Hs].
    simpl. apply getBuildSettings_cached. unfold is_stored. by rewrite Hs.
  - rewrite (exec_getBuildSettings w1 s Hs).
    pose proof (settings_kept_by_detectFrameworks w1
                  (update (set_settings (Some [])) s)) as Hkept; simpl in Hkept.
    destruct (generateBuildSettings w1 _); simpl.
    + by rewrite getBuildSettings_cached.
    + rewrite getBuildSettings_cached; simpl; [done|].
      unfold is_stored. by rewrite Hkept.
Qed.

Lemma search_same_site w p p' b :
  baseDirectory p' = baseDirectory p → root p' = root p →
  search w p' b = search w p b.
Proof. intros Hb Hr. unfold search. by rewrite Hb, Hr. Qed.

Lemma first_runs_store : stores_on_success.
Proof.
  intros w s. split; [|split; [|split; [|split]]].
  - intros [pm Hpm]. rewrite exec_detectPackageManager. unfold is_run.
    destruct (packageManager (proj s)) eqn:Hf; simpl; try (by rewrite Hf).
    destruct (resolvePackageManager w (proj s)); [|done]. simpl. by destruct a.
  - intros [ws Hws]. rewrite exec_detectWorkspaces. unfold is_run.
    destruct (workspace (proj s)) eqn:Hf; simpl; try (by rewrite Hf).
    destruct (resolveWorkspaces w _); [|done]. simpl. by destruct a.
  - intros Hall. unfold is_stored.
    destruct (buildSystems (proj s)) as [l|] eqn:Hbs.
    + unfold detectBuildSystem. exec_step. by rewrite Hbs; simpl; rewrite Hbs.
    + pose proof (exec_detectBuildSystem w s Hbs) as H; simpl in H.
      destruct (detectWorkspaces_frame w s) as (a & b & Hab).
      destruct (mapM _ _) eqn:HM; [by rewrite H|].
      exfalso. apply mapM_None_1 in HM. apply Exists_exists in HM as (x & Hx & Hn).
      eapply Forall_forall in Hall; [|exact Hx].
      rewrite (search_same_site w (proj s)) in Hn; [|by rewrite Hab..].
      rewrite Hn in Hall. by destruct Hall.
  - unfold is_stored. destruct (frameworks (proj s)) as [m|] eqn:Hfw.
    + rewrite (detectFrameworks_cached w s m Hfw). simpl. by rewrite Hfw.
    + by destruct (exec_detectFrameworks w s Hfw) as (m & -> & _).
  - unfold is_stored. destruct (settings (proj s)) as [l|] eqn:Hs.
    + rewrite getBuildSettings_cached; simpl; rewrite ?Hs; unfold is_stored;
        by rewrite ?Hs.
    + rewrite (exec_getBuildSettings w s Hs).
      pose proof (settings_kept_by_detectFrameworks w
                    (update (set_settings (Some [])) s)) as Hkept; simpl in Hkept.
      destruct (generateBuildSettings w _); simpl; [done|]. by rewrite Hkept.
Qed.


(** ** The life of a context *)

Lemma has_run_stored st p p' :
  stored st p' = stored st p → has_run st p → has_run st p'.
Proof. destruct st; simpl; unfold is_run, is_stored; by intros [= ->]. Qed.

Lemma foreign_app st j1 j2 : foreign st j1 → foreign st j2 → foreign st (j1 ++ j2).
Proof. apply Forall_app_2. Qed.

Lemma foreign_called st op j :
  stage_of op ≠ st → foreign st j → foreign st (Called op :: j).
Proof. intros Hne Hj. constructor; [|done]. by intros op' [= <-]. Qed.

Lemma foreign_emitted st ev j : foreign st j → foreign st (Emitted ev :: j).
Proof. intros Hj. by constructor. Qed.

Lemma foreign_reported st e j : foreign st j → foreign st (Reported e :: j).
Proof. intros Hj. by constructor. Qed.

Ltac solve_foreign :=
  repeat first
    [ apply Forall_nil_2
    | apply foreign_emitted
    | apply foreign_reported
    | apply foreign_called; [done|] ].

Lemma foreign_search_calls st p l :
  st ≠ StageBuildSystems → foreign st (map (search_call p) l).
Proof.
  intros Hne. induction l; simpl; [constructor|].
  apply foreign_called; [by intros <-|done].
Qed.

Lemma foreign_framework_call st path0 l :
  st ≠ StageFrameworks → foreign st (map (framework_call path0) l).
Proof.
  intros Hne. induction l; simpl; [constructor|].
  apply foreign_called; [by intros <-|done].
Qed.

Lemma foreign_framework_calls st w p :
  st ≠ StageFrameworks → foreign st (framework_calls w p).
Proof.
  intros Hne. unfold framework_calls.
  destruct (workspace p) as [| |ws]; try by apply foreign_framework_call.
  unfold package_calls. induction (packages ws) as [|pkg l IH]; simpl;
    [constructor|].
  apply foreign_app; [by apply foreign_framework_call|done].
Qed.

Lemma detections_foreign st j J :
  foreign st J → detections st (j ++ J) = detections st j.
Proof.
  intros HJ. unfold detections. rewrite omap_app.
  rewrite <- (app_nil_r (omap _ j)) at 2. f_equal.
  induction HJ as [|x J Hx _ IH]; [done|]. cbn.
  destruct x as [op| |]; try exact IH.
  destruct (decide (stage_of op = st)) as [Heq|_]; [|exact IH].
  by destruct (Hx op eq_refl).
Qed.

Lemma keeps_refl s : keeps s s.
Proof.
  exists []. split; [by rewrite app_nil_r|]. intros st _. split; [done|constructor].
Qed.

Lemma keeps_trans s s1 s2 : keeps s s1 → keeps s1 s2 → keeps s s2.
Proof.
  intros (J1 & Hj1 & H1) (J2 & Hj2 & H2). exists (J1 ++ J2).
  split; [by rewrite Hj2, Hj1, app_assoc|].
  intros st Hst. destruct (H1 st Hst) as [Heq1 Hf1].
  destruct (H2 st) as [Heq2 Hf2]; [by eapply has_run_stored|].
  split; [by rewrite Heq2|by apply foreign_app].
Qed.

Lemma keeps_step s s1 s' J :
  keeps s s1 →
  journal s' = journal s1 ++ J →
  (∀ st, has_run st (proj s) →
     stored st (proj s') = stored st (proj s1) ∧ foreign st J) →
  keeps s s'.
Proof.
  intros (J1 & Hj1 & H1) Hj HJ. exists (J1 ++ J).
  split; [by rewrite Hj, Hj1, app_assoc|].
  intros st Hst. destruct (H1 st Hst) as [Heq1 Hf1].
  destruct (HJ st Hst) as [Heq Hf].
  split; [by rewrite Heq|by apply foreign_app].
Qed.

Lemma detectPackageManager_keeps w s : keeps s (exec (detectPackageManager w) s).2.
Proof.
  rewrite exec_detectPackageManager.
  destruct (packageManager (proj s)) eqn:Hpm; simpl; try apply keeps_refl.
  destruct (resolvePackageManager w (proj s)) as [pm|e]; simpl.
  - apply (keeps_step s s _
             [Called OpDetectPackageManager;
              Emitted (EvDetectPackageManager (of_option pm))]);
      [apply keeps_refl|by simpl; rewrite <- app_assoc|].
    intros st Hst. destruct st; simpl in *;
      try (by unfold is_run in Hst; rewrite Hpm in Hst);
      (split; [done|]); solve_foreign.
  - apply (keeps_step s s _ [Called OpDetectPackageManager]);
      [apply keeps_refl|done|].
    intros st Hst. destruct st; simpl in *;
      try (by unfold is_run in Hst; rewrite Hpm in Hst);
      (split; [done|]); solve_foreign.
Qed.

Lemma detectWorkspaces_keeps w s : keeps s (exec (detectWorkspaces w) s).2.
Proof.
  rewrite exec_detectWorkspaces.
  destruct (workspace (proj s)) eqn:Hws; simpl; try apply keeps_refl.
  pose proof (detectPackageManager_keeps w s) as Hup.
  set (s1 := (exec (detectPackageManager w) s).2) in *.
  destruct (resolveWorkspaces w (proj s1)) as [ws|e]; simpl.
  - apply (keeps_step s s1 _
             [Called OpDetectWorkspaces; Emitted (EvDetectWorkspaces (of_option ws))]);
      [done|by simpl; rewrite <- app_assoc|].
    intros st Hst. destruct st; simpl in *;
      try (by unfold is_run in Hst; rewrite Hws in Hst);
      (split; [done|]); solve_foreign.
  - apply (keeps_step s s1 _ [Called OpDetectWorkspaces; Reported e]);
      [done|by simpl; rewrite <- app_assoc|].
    intros st Hst. destruct st; simpl in *;
      try (by unfold is_run in Hst; rewrite Hws in Hst);
      (split; [done|]); solve_foreign.
Qed.

Lemma detectBuildSystem_keeps w s : keeps s (exec (detectBuildSystem w) s).2.
Proof.
  destruct (buildSystems (proj s)) as [l|] eqn:Hbs.
  - rewrite detectBuildSystem_cached; [apply keeps_refl|].
    unfold is_stored. by rewrite Hbs.
  - pose proof (exec_detectBuildSystem w s Hbs) as H; simpl in H.
    pose proof (detectWorkspaces_keeps w s) as Hup.
    set (s1 := (exec (detectWorkspaces w) s).2) in *.
    assert (Hne : ∀ st, has_run st (proj s) → st ≠ StageBuildSystems).
    { intros st Hst ->. simpl in Hst. unfold is_stored in Hst. by rewrite Hbs in Hst. }
    destruct (mapM _ _) as [found|].
    + rewrite H. simpl.
      apply (keeps_step s s1 _
               (map (search_call (proj s1)) (registeredBuildSystems w)
                  ++ [Emitted (EvDetectBuildsystems (omap id found))]));
        [done|by simpl; rewrite <- app_assoc|].
      intros st Hst. pose proof (Hne st Hst). split.
      * by destruct st.
      * apply foreign_app; [by apply foreign_search_calls|solve_foreign].
    + destruct H as (e & _ & ->). simpl.
      apply (keeps_step s s1 _
               (map (search_call (proj s1)) (registeredBuildSystems w)
                  ++ [Reported e]));
        [done|by simpl; rewrite <- app_assoc|].
      intros st Hst. pose proof (Hne st Hst). split.
      * by destruct st.
      * apply foreign_app; [by apply foreign_search_calls|solve_foreign].
Qed.

Lemma detectFrameworks_keeps w s : keeps s (exec (detectFrameworks w) s).2.
Proof.
  destruct (frameworks (proj s)) as [m|] eqn:Hfw.
  - rewrite (detectFrameworks_cached w s m Hfw). apply keeps_refl.
  - destruct (exec_detectFrameworks w s Hfw) as (m & -> & _). simpl.
    pose proof (detectBuildSystem_keeps w s) as Hup.
    set (s1 := (exec (detectBuildSystem w) s).2) in *.
    apply (keeps_step s s1 _
             (framework_calls w (proj s1) ++ [Emitted (EvDetectFrameworks m)]));
      [done|by simpl; rewrite <- app_assoc|].
    intros st Hst.
    assert (Hne : st ≠ StageFrameworks).
    { intros ->. simpl in Hst. unfold is_stored in Hst. by rewrite Hfw in Hst. }
    split.
    + by destruct st.
    + apply foreign_app; [by apply foreign_framework_calls|solve_foreign].
Qed.

Lemma getBuildSettings_keeps w s : keeps s (exec (getBuildSettings w) s).2.
Proof.
  destruct (settings (proj s)) as [l|] eqn:Hs.
  - rewrite getBuildSettings_cached; [apply keeps_refl|].
    unfold is_stored. by rewrite Hs.
  - rewrite (exec_getBuildSettings w s Hs).
    pose proof (detectFrameworks_keeps w (update (set_settings (Some [])) s)) as Hup.
    set (s1 := (exec (detectFrameworks w) (update (set_settings (Some [])) s)).2) in *.
    assert (Hne : ∀ st, has_run st (proj s) → st ≠ StageSettings).
    { intros st Hst ->. simpl in Hst. unfold is_stored in Hst. by rewrite Hs in Hst. }
    assert (Hup' : keeps s s1).
    { destruct Hup as (J & Hj & HJ). exists J. split; [done|].
      intros st Hst. pose proof (Hne st Hst).
      destruct (HJ st) as [Heq Hf]; [by destruct st|].
      split; [|done]. rewrite Heq. by destruct st. }
    destruct (generateBuildSettings w (proj s1)) as [l|e]; simpl.
    + apply (keeps_step s s1 _ [Called OpGetBuildSettings; Emitted (EvDetectSettings l)]);
        [done|by simpl; rewrite <- app_assoc|].
      intros st Hst. pose proof (Hne st Hst). split; [by destruct st|].
      destruct st; try done; solve_foreign.
    + apply (keeps_step s s1 _ [Called OpGetBuildSettings; Reported e]);
        [done|by simpl; rewrite <- app_assoc|].
      intros st Hst. pose proof (Hne st Hst). split; [by destruct st|].
      destruct st; try done; solve_foreign.
Qed.

Lemma lifetime_keeps calls : ∀ s, keeps s (lifetime calls s).
Proof.
  induction calls as [|[st w] calls IH]; intros s; [apply keeps_refl|].
  simpl. eapply keeps_trans; [|apply IH].
  destruct st; simpl.
  - apply detectPackageManager_keeps.
  - apply detectWorkspaces_keeps.
  - apply detectBuildSystem_keeps.
  - apply detectFrameworks_keeps.
  - apply getBuildSettings_keeps.
Qed.

Lemma stored_results_stay : run_once.
Proof.
  intros calls st s Hst. destruct (lifetime_keeps calls s) as (J & Hj & HJ).
  destruct (HJ st Hst) as [Heq Hf]. split; [done|].
  rewrite Hj. by apply detections_foreign.
Qed.

Lemma stored_results_are_returned : returns_stored.
Proof.
  intros w s. split; [apply detectPackageManager_cached|].
  split; [apply detectWorkspaces_cached|].
  split; [apply detectBuildSystem_cached|].
  split; [apply detectFrameworks_cached|apply getBuildSettings_cached].
Qed.

(** C1, as the code has it: for each of the five stage accessors, a call that
    finds the stage's field no longer unset returns the stored result and
    runs nothing (no operation of the detection logic is started, nothing is
    emitted or reported); once the field is set, no call of any accessor, in
    whatever world and however many follow, changes it or starts an
    operation of the stage again; a call made after an earlier call that
    left the field set returns what that call returned; and a first run
    whose detection logic does not throw leaves the field set, so that
    detection then has run once. *)
Theorem memoization :
  returns_stored
  ∧ run_once
  ∧ memoized detectPackageManager (is_run packageManager)
  ∧ memoized detectWorkspaces (is_run workspace)
  ∧ memoized detectBuildSystem (is_stored buildSystems)
  ∧ memoized detectFrameworks (is_stored frameworks)
  ∧ memoized getBuildSettings (is_stored settings)
  ∧ stores_on_success.
Proof.
  split; [exact stored_results_are_returned|].
  split; [exact stored_results_stay|].
  split; [exact detectPackageManager_memoized|].
  split; [exact detectWorkspaces_memoized|].
  split; [exact detectBuildSystem_memoized|].
  split; [exact detectFrameworks_memoized|].
  split; [exact getBuildSettings_memoized|].
  exact first_runs_store.
Qed.

(** The workspace of the monorepo once resolved, a second call of the
    workspace accessor, made in a world where every collaborator throws,
    returns the workspace of the first; and after calls of the settings and
    workspace accessors in that world the workspace is still the one
    stored, the workspace resolver having been started once. *)
Lemma memoization_witness :
  let s1 := (exec (detectWorkspaces monorepo_world) fresh_state).2 in
  let s2 := lifetime [(StageSettings, unreadable_world);
                      (StageWorkspace, unreadable_world)] s1 in
  is_run workspace (proj s1)
  ∧ exec (detectWorkspaces unreadable_world) s1
    = exec (detectWorkspaces monorepo_world) fresh_state
  ∧ workspace (proj s2) = workspace (proj s1)
  ∧ detections StageWorkspace (journal s2) = [OpDetectWorkspaces].
Proof.
  intros s1 s2.
  assert (Hrun : is_run workspace (proj s1)) by (vm_compute; discriminate).
  destruct memoization as (_ & Honce & _ & Hmemo & _).
  destruct (Honce [(StageSettings, unreadable_world);
                   (StageWorkspace, unreadable_world)] StageWorkspace s1 Hrun)
    as [Hstored Hdet].
  split; [exact Hrun|].
  split; [exact (Hmemo monorepo_world unreadable_world fresh_state Hrun)|].
  split.
  { exact (f_equal (fun x => match x with StoredWorkspace v => v | _ => Null end)
             Hstored). }
  fold s2 in Hdet. rewrite Hdet. vm_compute. reflexivity.
Defined.

(** C1 as stated fails where the first run ended in an internal error: the
    package-manager resolver throws, the accessor returns [null] and leaves
    the field unset, and the next call runs detection again. *)
Lemma detection_runs_again_after_an_error :
  let s1 := (exec (detectPackageManager unreadable_world) fresh_state).2 in
  let s2 := (exec (detectPackageManager unreadable_world) s1).2 in
  packageManager (proj s1) = Undefined
  ∧ journal s2 = [Called OpDetectPackageManager; Called OpDetectPackageManager]
  ∧ started OpDetectPackageManager (journal s2) = 2.
Proof. vm_compute. auto. Qed.

(** ** Degraded results *)

Lemma detectBuildSystem_degraded w s :
  buildSystems (proj s) = None →
  let s1 := (exec (detectWorkspaces w) s).2 in
  Exists (fun b => fulfilled_value (search w (proj s1) b) = None)
    (registeredBuildSystems w) →
  ∃ e, Exists (fun b => search w (proj s1) b = Failed e) (registeredBuildSystems w)
     ∧ exec (detectBuildSystem w) s
       = (Fulfilled (Some []),
          record (Reported e)
            (journal_app (map (search_call (proj s1)) (registeredBuildSystems w)) s1))
     ∧ buildSystems (proj s1) = None.
Proof.
  intros Hbs s1 Hex. pose proof (exec_detectBuildSystem w s Hbs) as H; simpl in H.
  fold s1 in H. rewrite (mapM_None_2 _ _ Hex) in H. destruct H as (e & He & Heq).
  exists e. split; [done|]. split; [done|]. subst s1.
  by destruct (detectWorkspaces_frame w s) as (a & b & ->).
Qed.

(** C2, as the code has it. When the detection logic of a stage throws [e]:
    - the package-manager accessor returns [null]; it reports nothing and
      leaves its field unset;
    - the workspace accessor reports [e] once and returns [null]; its field
      stays unset;
    - the build-system accessor reports once the error of a search that
      failed and returns [[]]; its field stays unset;
    - a framework detector that throws makes the list of its path empty,
      without a report;
    - the settings accessor reports [e] once and returns the [[]] it stored
      before detection;
    - and later stages still complete: when a search of build-system
      detection throws, [detectFrameworks] resolves to the frameworks it
      detects, with that one report in the journal and [buildSystems] unset;
    - the frameworks accessor resolves to a list in every case: no failure
      of detection logic reaches its own catch, which would return [null]. *)
Theorem degraded_results (w : World) (s : St) (e : Err) :
  (packageManager (proj s) = Undefined →
   resolvePackageManager w (proj s) = Failed e →
   exec (detectPackageManager w) s
   = (Fulfilled Null, record (Called OpDetectPackageManager) s))
  ∧ (workspace (proj s) = Undefined →
     let s1 := (exec (detectPackageManager w) s).2 in
     resolveWorkspaces w (proj s1) = Failed e →
     exec (detectWorkspaces w) s
     = (Fulfilled Null, record (Reported e) (record (Called OpDetectWorkspaces) s1))
     ∧ workspace (proj s1) = Undefined)
  ∧ (buildSystems (proj s) = None →
     let s1 := (exec (detectWorkspaces w) s).2 in
     Exists (fun b => fulfilled_value (search w (proj s1) b) = None)
       (registeredBuildSystems w) →
     ∃ e', Exists (fun b => search w (proj s1) b = Failed e')
             (registeredBuildSystems w)
         ∧ exec (detectBuildSystem w) s
           = (Fulfilled (Some []),
              record (Reported e')
                (journal_app (map (search_call (proj s1)) (registeredBuildSystems w)) s1))
         ∧ buildSystems (proj s1) = None)
  ∧ (∀ path0,
       Exists (fun F => fulfilled_value (framework_detect F (proj s) path0) = None)
         (registeredFrameworks w) →
       exec (detectFrameworksInPath w path0) s
       = (Fulfilled [],
          journal_app (map (framework_call path0) (registeredFrameworks w)) s))
  ∧ (settings (proj s) = None →
     let s1 := (exec (detectFrameworks w) (update (set_settings (Some [])) s)).2 in
     generateBuildSettings w (proj s1) = Failed e →
     exec (getBuildSettings w) s
     = (Fulfilled (Some []), record (Reported e) (record (Called OpGetBuildSettings) s1))
     ∧ settings (proj s1) = Some [])
  ∧ (buildSystems (proj s) = None →
     frameworks (proj s) = None →
     let s1 := (exec (detectWorkspaces w) s).2 in
     Exists (fun b => fulfilled_value (search w (proj s1) b) = None)
       (registeredBuildSystems w) →
     ∃ e' m s',
       exec (detectFrameworks w) s = (Fulfilled (Obj (values_flat m)), s')
       ∧ journal s'
         = (journal s1 ++ map (search_call (proj s1)) (registeredBuildSystems w)
              ++ [Reported e'])
             ++ framework_calls w (proj s1) ++ [Emitted (EvDetectFrameworks m)]
       ∧ buildSystems (proj s') = None
       ∧ frameworks (proj s') = Some m)
  ∧ (∃ v, (exec (detectFrameworks w) s).1 = Fulfilled (Obj v)).
Proof.
  split; [|split; [|split; [|split; [|split; [|split]]]]];
    [| | | | | |by destruct (detectFrameworks_resolves w s) as [v ->]; eauto].
  - intros Hpm He. rewrite exec_detectPackageManager, Hpm; simpl. by rewrite He.
  - intros Hws s1 He. rewrite exec_detectWorkspaces, Hws; simpl. fold s1.
    rewrite He. split; [done|]. subst s1.
    by destruct (detectPackageManager_frame w s) as [a ->].
  - apply detectBuildSystem_degraded.
  - intros path0 Hex. rewrite exec_detectFrameworksInPath.
    unfold frameworks_in_path. by rewrite (mapM_None_2 _ _ Hex).
  - intros Hs s1 He. rewrite (exec_getBuildSettings w s Hs). fold s1. rewrite He.
    assert (Hkept : settings (proj s1) = Some []).
    { subst s1. by rewrite settings_kept_by_detectFrameworks. }
    by rewrite Hkept.
  - intros Hbs Hfw s1 Hex.
    destruct (detectBuildSystem_degraded w s Hbs Hex) as (e' & _ & Heq & Hnone).
    fold s1 in Heq, Hnone.
    destruct (exec_detectFrameworks w s Hfw) as (m & Hrun & _).
    rewrite Heq in Hrun; simpl in Hrun.
    exists e', m. eexists. split; [exact Hrun|]. simpl.
    split; [by rewrite <- !app_assoc|]. done.
Qed.

(** Where nothing can be read, every stage degrades in this way. *)
Lemma degraded_results_witness :
  let w := unreadable_world in
  let s := fresh_state in
  exec (detectPackageManager w) s
  = (Fulfilled Null, record (Called OpDetectPackageManager) s)
  ∧ exec (detectWorkspaces w) s
    = (Fulfilled Null,
       record (Reported "EACCES")
         (record (Called OpDetectWorkspaces) (exec (detectPackageManager w) s).2))
  ∧ (exec (detectBuildSystem w) s).1 = Fulfilled (Some [])
  ∧ (exec (detectFrameworksInPath w None) s).1 = Fulfilled []
  ∧ (exec (getBuildSettings w) s).1 = Fulfilled (Some [])
  ∧ (∃ m, (exec (detectFrameworks w) s).1 = Fulfilled (Obj (values_flat m))).
Proof.
  intros w s.
  destruct (degraded_results w s "EACCES")
    as (Hpm & Hws & Hbs & Hfw & Hst & Hdown & _).
  split; [by apply Hpm|]. split; [by apply Hws|].
  split.
  { destruct Hbs as (e' & _ & -> & _); [done| |done].
    apply Exists_cons_hd. vm_compute. reflexivity. }
  split.
  { rewrite Hfw; [done|]. apply Exists_cons_hd. vm_compute. reflexivity. }
  split.
  { destruct Hst as [-> _]; [done| |done]. vm_compute. reflexivity. }
  destruct Hdown as (e' & m & s' & -> & _); [done|done| |by exists m].
  apply Exists_cons_hd. vm_compute. reflexivity.
Defined.

(** C2 as stated fails: when the package-manager resolver throws, the
    accessor stores no [null] (the field stays undefined) and reports
    nothing; when the workspace resolver throws, the error is reported but
    no [null] is stored either. *)
Lemma error_is_not_stored :
  let s1 := (exec (detectPackageManager unreadable_world) fresh_state).2 in
  let s2 := (exec (detectWorkspaces unreadable_world) fresh_state).2 in
  packageManager (proj s1) = Undefined
  ∧ journal s1 = [Called OpDetectPackageManager]
  ∧ workspace (proj s2) = Undefined
  ∧ journal s2 = [Called OpDetectPackageManager; Called OpDetectWorkspaces;
                  Reported "EACCES"].
Proof. vm_compute. auto. Qed.

(** ** The order of the stages *)

Lemma emitted_app j1 j2 : emitted (j1 ++ j2) = emitted j1 ++ emitted j2.
Proof. apply omap_app. Qed.

Lemma emitted_search_calls p l : emitted (map (search_call p) l) = [].
Proof. induction l; simpl; auto. Qed.

Lemma emitted_framework_call path0 l : emitted (map (framework_call path0) l) = [].
Proof. induction l; simpl; auto. Qed.

Lemma emitted_framework_calls w p : emitted (framework_calls w p) = [].
Proof.
  unfold framework_calls.
  destruct (workspace p) as [| |ws]; try apply emitted_framework_call.
  unfold package_calls. induction (packages ws) as [|pkg l IH]; [done|].
  simpl. by rewrite emitted_app, IH, emitted_framework_call.
Qed.

Lemma detectFrameworks_journal w s :
  fresh (proj s) →
  ∃ o m s',
    exec (detectFrameworks w) s = (Fulfilled (Obj (values_flat m)), s')
    ∧ journal s'
      = journal s
          ++ pm_journal (resolvePackageManager w (proj s))
          ++ ws_journal (resolveWorkspaces w (proj (exec (detectPackageManager w) s).2))
          ++ bs_journal w (proj s) o
          ++ fw_journal w (proj s') m
    ∧ (Forall (fun b => is_Some (fulfilled_value (search w (proj s) b)))
         (registeredBuildSystems w) → is_Some (fulfilled_value o)).
Proof.
  intros (Hpm & Hws & Hbs & Hfw).
  destruct (exec_detectFrameworks w s Hfw) as (m & Hrun & _).
  pose proof (exec_detectBuildSystem w s Hbs) as Hb; simpl in Hb.
  pose proof (exec_detectWorkspaces w s) as Hw. rewrite Hws in Hw; simpl in Hw.
  pose proof (exec_detectPackageManager w s) as Hp. rewrite Hpm in Hp; simpl in Hp.
  destruct (detectWorkspaces_frame w s) as (a & b & Hab).
  set (s_pm := (exec (detectPackageManager w) s).2) in *.
  set (s_ws := (exec (detectWorkspaces w) s).2) in *.
  assert (Hj_pm : journal s_pm
                  = journal s ++ pm_journal (resolvePackageManager w (proj s))).
  { subst s_pm. rewrite Hp. destruct (resolvePackageManager w (proj s)); simpl;
      by rewrite <- ?app_assoc. }
  assert (Hj_ws : journal s_ws
                  = journal s_pm ++ ws_journal (resolveWorkspaces w (proj s_pm))).
  { subst s_ws. rewrite Hw. destruct (resolveWorkspaces w (proj s_pm)); simpl;
      by rewrite <- app_assoc. }
  assert (Hcall : search_call (proj s_ws) = search_call (proj s)).
  { unfold search_call. by rewrite Hab. }
  assert (Hsearch : ∀ b, search w (proj s_ws) b = search w (proj s) b).
  { intros b0. apply search_same_site; by rewrite Hab. }
  rewrite Hcall in Hb.
  destruct (mapM _ (registeredBuildSystems w)) as [found|] eqn:HM.
  - rewrite Hb in Hrun; simpl in Hrun.
    exists (Fulfilled (omap id found)), m. eexists. split; [exact Hrun|].
    simpl. split; [|by eauto].
    unfold fw_journal, bs_journal. rewrite Hj_ws, Hj_pm.
    by rewrite <- !app_assoc.
  - destruct Hb as (e & _ & Hb). rewrite Hb in Hrun; simpl in Hrun.
    exists (Failed e), m. eexists. split; [exact Hrun|]. simpl. split.
    + unfold fw_journal, bs_journal. rewrite Hj_ws, Hj_pm.
      by rewrite <- !app_assoc.
    + intros Hall. exfalso. apply mapM_None_1 in HM.
      apply Exists_exists in HM as (x & Hx & Hn).
      eapply Forall_forall in Hall; [|exact Hx].
      rewrite Hsearch in Hn. rewrite Hn in Hall. by destruct Hall.
Qed.

(** C3: the frameworks accessor, called on a project no stage of which has
    run, runs package-manager detection, then workspace detection, then the
    searches of build-system detection, then framework detection, and only
    then produces its result: the journal grows by the journals of the four
    stages in that order, each closed by the stage's event (or, for a stage
    whose detection threw, by what its catch does). So the events emitted
    are stage-completed events in the order of the pipeline, each at most
    once; and where no collaborator of the upstream stages throws, they are
    the four of them. *)
Theorem dependency_order (w : World) (s : St) :
  fresh (proj s) →
  ∃ o m s',
    exec (detectFrameworks w) s = (Fulfilled (Obj (values_flat m)), s')
    ∧ journal s'
      = journal s
          ++ pm_journal (resolvePackageManager w (proj s))
          ++ ws_journal (resolveWorkspaces w (proj (exec (detectPackageManager w) s).2))
          ++ bs_journal w (proj s) o
          ++ fw_journal w (proj s') m
    ∧ sublist (emitted (drop (length (journal s)) (journal s')))
        ["detectPackageManager"; "detectWorkspaces"; "detectBuildsystems";
         "detectFrameworks"]
    ∧ (readable w →
       emitted (drop (length (journal s)) (journal s'))
       = ["detectPackageManager"; "detectWorkspaces"; "detectBuildsystems";
          "detectFrameworks"]).
Proof.
  intros Hfresh. destruct (detectFrameworks_journal w s Hfresh)
    as (o & m & s' & Hrun & Hj & Hok).
  exists o, m, s'. split; [done|]. split; [done|].
  rewrite Hj, drop_app_length.
  unfold bs_journal, fw_journal.
  rewrite !emitted_app, emitted_framework_calls, emitted_search_calls. simpl.
  split.
  - apply (sublist_app _ ["detectPackageManager"] _
             ["detectWorkspaces"; "detectBuildsystems"; "detectFrameworks"]).
    { destruct (resolvePackageManager w (proj s)); simpl;
        [done|apply sublist_nil_l]. }
    apply (sublist_app _ ["detectWorkspaces"] _
             ["detectBuildsystems"; "detectFrameworks"]).
    { destruct (resolveWorkspaces w _); simpl; [done|apply sublist_nil_l]. }
    apply (sublist_app _ ["detectBuildsystems"] _ ["detectFrameworks"]); [|done].
    destruct o; simpl; [done|apply sublist_nil_l].
  - intros (Hr1 & Hr2 & Hr3).
    destruct (Hr1 (proj s)) as [pm Hpm].
    destruct (Hr2 (proj (exec (detectPackageManager w) s).2)) as [ws Hws].
    destruct Hok as [found Hfound].
    { apply Forall_forall. intros b _. unfold search.
      destruct (Hr3 (configFiles b) (baseDirectory (proj s)) (root (proj s)))
        as [c Hc]. destruct (findUp _ _ _ _); [eauto|done]. }
    destruct (resolvePackageManager w (proj s)); [|done].
    destruct (resolveWorkspaces w _); [|done].
    by destruct o.
Qed.

(** In the monorepo nothing throws: the four events come in order. *)
Lemma dependency_order_witness :
  fresh (proj fresh_state)
  ∧ emitted (journal (exec (detectFrameworks monorepo_world) fresh_state).2)
    = ["detectPackageManager"; "detectWorkspaces"; "detectBuildsystems";
       "detectFrameworks"].
Proof.
  assert (Hfresh : fresh (proj fresh_state)) by (vm_compute; auto).
  split; [exact Hfresh|].
  destruct (dependency_order monorepo_world fresh_state Hfresh)
    as (o & m & s' & Hrun & _ & _ & Hev).
  rewrite Hrun. simpl. apply Hev.
  repeat split; intros; vm_compute; eauto.
Defined.

(** ** The relevance resolver *)

(** Matches put at the places of others: what moves, and what stays. *)
Section Place.
Context (P : DetectedFramework → Prop) `{!∀ m, Decision (P m)}.





End Place.


(** The ranking of static-site generators above generic build tools. *)
Lemma categories_apart : static_site_generator ≠ build_tool.
Proof. done. Qed.









































(** ** The fan-out over a workspace *)

Lemma frameworks_in_path_none w p path0 :
  Forall (fun F => framework_detect F p path0 = Fulfilled None)
    (registeredFrameworks w) →
  frameworks_in_path w p path0 = [].
Proof.
  intros Hall. unfold frameworks_in_path.
  assert (HM : mapM (fun F => fulfilled_value (framework_detect F p path0))
                 (registeredFrameworks w)
               = Some ((fun _ => None) <$> registeredFrameworks w)).
  { apply mapM_Some_2. induction Hall as [|F l HF _ IH]; simpl; constructor; auto.
    by rewrite HF. }
  rewrite HM. clear. induction (registeredFrameworks w) as [|F l IH]; [done|].
  done.
Qed.

Lemma fan_out_covers (w : World) (s : St) :
  frameworks (proj s) = None →
  let s' := (exec (detectFrameworks w) s).2 in
  let p := set_frameworks (Some []) (proj s') in
  ∃ m, frameworks (proj s') = Some m
     ∧ match workspace (proj s') with
       | Obj ws =>
           NoDup m.*1
           ∧ (∀ key, key ∈ m.*1 ↔ key ∈ path <$> packages ws)
           ∧ (∀ pkg, pkg ∈ packages ws →
                map_get (path pkg) m
                = Some (frameworks_in_path w p (package_dir w ws (path pkg))))
           ∧ (∀ pkg, pkg ∈ packages ws →
                Forall (fun F => framework_detect F p (package_dir w ws (path pkg))
                                 = Fulfilled None) (registeredFrameworks w) →
                map_get (path pkg) m = Some [])
       | _ => m = [("", frameworks_in_path w p None)]
       end.
Proof.
  intros Hfw s' p. subst s' p.
  destruct (exec_detectFrameworks w s Hfw) as (m & -> & Hm). simpl.
  exists m. split; [done|]. unfold detected_map in Hm.
  destruct (workspace _) as [| |ws]; try done.
  destruct Hm as (Hnd & Hkeys & Hval).
  assert (Hget : ∀ pkg, pkg ∈ packages ws →
            map_get (path pkg) m
            = Some (frameworks_in_path w
                      (set_frameworks (Some [])
                         (proj (exec (detectBuildSystem w) s).2))
                      (package_dir w ws (path pkg)))).
  { intros pkg Hin.
    assert (Hk : path pkg ∈ m.*1).
    { apply Hkeys. apply list_elem_of_fmap. eauto. }
    apply list_elem_of_fmap in Hk as ([k v] & Hk & Hkv); simpl in Hk; subst k.
    rewrite <- (Hval _ _ Hkv). by apply map_get_entries. }
  split; [done|]. split; [done|]. split; [done|].
  intros pkg Hin Hnone. rewrite (Hget pkg Hin).
  by rewrite frameworks_in_path_none.
Qed.

(** C5: once framework detection has run, the map of frameworks holds, for a
    workspace, exactly the paths of the members, each once, with the list
    detected at the member's path (the empty list when no detector matches
    there); for a project that is no workspace, it holds the one entry of
    the root path. This for every order [c] in which the evaluations that
    are started together complete. *)
Theorem workspace_fan_out (w : World) (c : Site → list nat) (s : St) :
  frameworks (proj s) = None →
  let s' := (exec (detectFrameworks (with_completion c w)) s).2 in
  let p := set_frameworks (Some []) (proj s') in
  ∃ m, frameworks (proj s') = Some m
     ∧ match workspace (proj s') with
       | Obj ws =>
           NoDup m.*1
           ∧ (∀ key, key ∈ m.*1 ↔ key ∈ path <$> packages ws)
           ∧ (∀ pkg, pkg ∈ packages ws →
                map_get (path pkg) m
                = Some (frameworks_in_path w p (package_dir w ws (path pkg))))
           ∧ (∀ pkg, pkg ∈ packages ws →
                Forall (fun F => framework_detect F p (package_dir w ws (path pkg))
                                 = Fulfilled None) (registeredFrameworks w) →
                map_get (path pkg) m = Some [])
       | _ => m = [("", frameworks_in_path w p None)]
       end.
Proof. intros Hfw. exact (fan_out_covers (with_completion c w) s Hfw). Qed.

(** The monorepo, where the member listed last completes first and only
    pkg-a holds a framework: both members are in the map, pkg-b with the
    empty list. *)
Lemma workspace_fan_out_witness :
  let w := with_completion (fun _ => [1; 0]) monorepo_world in
  ∃ m, frameworks (proj (exec (detectFrameworks w) fresh_state).2) = Some m
     ∧ (∀ key, key ∈ m.*1 ↔ key ∈ ["pkg-a"; "pkg-b"])
     ∧ map_get "pkg-b" m = Some [].
Proof.
  intros w.
  destruct (workspace_fan_out monorepo_world (fun _ => [1; 0]) fresh_state eq_refl)
    as (m & Hm & H). fold w in Hm, H.
  assert (Hws : workspace (proj (exec (detectFrameworks w) fresh_state).2)
                = Obj monorepo) by (vm_compute; reflexivity).
  rewrite Hws in H. destruct H as (_ & Hkeys & _ & Hempty).
  exists m. split; [exact Hm|]. split; [exact Hkeys|].
  apply (Hempty {| path := "pkg-b"; pkg_name := None |}).
  - apply elem_of_cons. right. apply elem_of_cons. by left.
  - repeat constructor.
Defined.

(** ** Concurrent first calls *)

Lemma detectPackageManager_shape w s :
  packageManager (proj s) = Undefined →
  ∃ k, detectPackageManager w s
       = Suspended (record (Called OpDetectPackageManager) s) k
     ∧ ∀ s', run (k s') = pm_completion (resolvePackageManager w (proj s)) s'.
Proof.
  intros Hpm. unfold detectPackageManager, bind, this, try_catch, call. simpl.
  rewrite Hpm. simpl. eexists; split; [done|]. intros s'.
  by destruct (resolvePackageManager w (proj s)).
Qed.

Lemma settle_all_done {B} order (slots : list (Slot B)) s :
  (∀ i, ¬ pending_at slots i) →
  settle_all order slots s = (Fulfilled slots, s).
Proof.
  intros Hn. induction order as [|i order IH]; simpl; [done|].
  destruct (slots !! i) as [[k|b|e]|] eqn:Hi; try done.
  exfalso. apply (Hn i). by exists k.
Qed.

(** C6, as the code has it: two calls of the package-manager accessor made
    before its result is stored each start the resolver, whatever the order
    in which they are resumed; each stores the result and emits the event
    when it is resumed, and both return the same value, the resolver having
    been started twice on the same project. Nothing keeps the operation in
    flight for a second caller; only a call made once the field is set
    shares the stored result, and starts nothing. *)
Theorem concurrent_first_calls (w : World) (order : list nat) (s : St) :
  (packageManager (proj s) = Undefined →
   let o := resolvePackageManager w (proj s) in
   ∃ v s',
     exec (promise_all order [detectPackageManager w; detectPackageManager w]) s
     = (Fulfilled [v; v], s')
     ∧ journal s'
       = journal s
           ++ [Called OpDetectPackageManager; Called OpDetectPackageManager]
           ++ match o with
              | Fulfilled pm =>
                  [Emitted (EvDetectPackageManager (of_option pm));
                   Emitted (EvDetectPackageManager (of_option pm))]
              | Failed _ => []
              end
     ∧ v = match o with Fulfilled pm => of_option pm | Failed _ => Null end)
  ∧ (is_run packageManager (proj s) →
     exec (promise_all order [detectPackageManager w; detectPackageManager w]) s
     = (Fulfilled [packageManager (proj s); packageManager (proj s)], s)).
Proof.
  split.
  - intros Hpm o. rewrite exec_promise_all.
    destruct (start_all_suspended (fun _ : unit => detectPackageManager w)
                (fun _ => [Called OpDetectPackageManager])
                (fun _ k => ∀ s', run (k s') = pm_completion o s')
                (proj s) [tt; tt]) with (s := s) as (slots & Hstart & Hslots);
      [|done|].
    { intros _ s0 Hs0.
      destruct (detectPackageManager_shape w s0) as (k & Hk & Hrun);
        [by rewrite Hs0|].
      exists k. split; [done|]. intros s'. rewrite Hrun. subst o. by rewrite Hs0. }
    change (map (fun _ : unit => detectPackageManager w) [tt; tt])
      with [detectPackageManager w; detectPackageManager w] in Hstart.
    rewrite Hstart; simpl. rewrite (first_broken_pending _ _ _ Hslots).
    apply Forall2_cons_inv_r in Hslots as (sl1 & slots1 & (k1 & -> & Hk1) & Hslots & ->).
    apply Forall2_cons_inv_r in Hslots as (sl2 & slots2 & (k2 & -> & Hk2) & Hslots & ->).
    apply Forall2_nil_inv_r in Hslots as ->. simpl.
    set (s1 := journal_app _ s).
    set (v := match o with Fulfilled pm => of_option pm | Failed _ => Null end).
    set (eff := fun s0 => (pm_completion o s0).2).
    assert (Hc : ∀ s0, pm_completion o s0 = (Fulfilled v, eff s0)).
    { intros s0. subst v eff. unfold pm_completion. by destruct o. }
    set (Inv := fun (sl : list (Slot (Nullable PkgManagerFields))) (s' : St) =>
       (sl = [Pending k1; Pending k2] ∧ s' = s1)
       ∨ (sl = [Done v; Pending k2] ∧ s' = eff s1)
       ∨ (sl = [Pending k1; Done v] ∧ s' = eff s1)
       ∨ (sl = [Done v; Done v] ∧ s' = eff (eff s1))).
    destruct (settle_all_inv Inv) with (order := order ++ [0; 1])
      (slots := [Pending k1; Pending k2]) (s := s1)
      as (slots' & s' & Heq & HInv); [|by left|].
    { intros sl s0 i k HI Hi.
      destruct HI as [[-> ->]|[[-> ->]|[[-> ->]|[-> ->]]]];
        destruct i as [|[|i]]; simplify_eq/=;
        eexists _, _; (split; [by rewrite ?Hk1, ?Hk2, Hc|]); unfold Inv; simpl; auto. }
    assert (Hcov : ∀ i, i < 2 → ¬ pending_at slots' i).
    { intros i Hi. eapply (settle_all_covers (order ++ [0; 1])); [exact Heq|].
      left. apply elem_of_app. right. destruct i as [|[|i]]; [| |lia];
        rewrite !elem_of_cons; auto. }
    rewrite Heq.
    destruct HInv as [[-> ->]|[[-> ->]|[[-> ->]|[-> ->]]]].
    + exfalso. apply (Hcov 0); [lia|]. by exists k1.
    + exfalso. apply (Hcov 1); [lia|]. by exists k2.
    + exfalso. apply (Hcov 0); [lia|]. by exists k1.
    + exists v. eexists. split; [done|]. split; [|done].
      subst eff s1 o. unfold pm_completion.
      destruct (resolvePackageManager w (proj s)); simpl;
        by rewrite <- ?app_assoc.
  - intros Hrun. unfold is_run in Hrun. rewrite exec_promise_all.
    assert (Hstart : ∀ s0, proj s0 = proj s →
              detectPackageManager w s0 = Resolved (packageManager (proj s)) s0).
    { intros s0 Hs0. unfold detectPackageManager, bind, this. simpl. rewrite Hs0.
      by destruct (packageManager (proj s)). }
    simpl. rewrite !Hstart by done. simpl.
    rewrite settle_all_done; [done|].
    intros i [k Hk]. by destruct i as [|[|i]].
Qed.

(** In the monorepo, two first calls resumed in either order leave two
    resolver calls and two events in the journal. *)
Lemma concurrent_first_calls_witness :
  ∃ s', exec (promise_all [1; 0]
                [detectPackageManager monorepo_world;
                 detectPackageManager monorepo_world]) fresh_state
        = (Fulfilled [Obj npm; Obj npm], s')
      ∧ journal s'
        = [Called OpDetectPackageManager; Called OpDetectPackageManager;
           Emitted (EvDetectPackageManager (Obj npm));
           Emitted (EvDetectPackageManager (Obj npm))].
Proof.
  destruct (proj1 (concurrent_first_calls monorepo_world [1; 0] fresh_state) eq_refl)
    as (v & s' & Hrun & Hj & Hv).
  exists s'. simpl in Hv. subst v. split; [exact Hrun|exact Hj].
Defined.

(** C6 as stated fails: two callers that call the package-manager accessor
    of a fresh project together each trigger the resolver; detection runs
    twice, and the event is emitted twice. *)
Lemma concurrent_callers_detect_twice :
  let s' := (exec (promise_all [0; 1]
                     [detectPackageManager monorepo_world;
                      detectPackageManager monorepo_world]) fresh_state).2 in
  started OpDetectPackageManager (journal s') = 2
  ∧ emitted (journal s') = ["detectPackageManager"; "detectPackageManager"].
Proof. vm_compute. auto. Qed.

(** ** Build systems *)

Lemma found_is_filter w p l found :
  mapM (fun b => fulfilled_value (search w p b)) l = Some found →
  omap id found = filter (fun b => marker_found w p b) l.
Proof.
  intros HM. apply mapM_Some_1 in HM.
  induction HM as [|x y l found Hx _ IH]; [done|].
  rewrite filter_cons. unfold search, marker_found in *.
  destruct (findUp _ _ _ _) as [config|]; [|done].
  simpl in Hx. injection Hx as <-.
  destruct (truthy config); cbn; [f_equal|]; exact IH.
Qed.

(** C8: when no search throws, the build systems detected are those of the
    registry one of whose markers the upward search from the base directory
    to the root finds, and no others, in the order of the registry; this for
    every order [c] in which the searches complete. *)
Theorem build_systems_in_registration_order
    (w : World) (c : Site → list nat) (s : St) :
  buildSystems (proj s) = None →
  Forall (fun b => is_Some (fulfilled_value
                      (findUp (fs w) (configFiles b)
                         (baseDirectory (proj s)) (root (proj s)))))
    (registeredBuildSystems w) →
  ∃ found s',
    exec (detectBuildSystem (with_completion c w)) s = (Fulfilled (Some found), s')
    ∧ buildSystems (proj s') = Some found
    ∧ found = filter (fun b => marker_found w (proj s) b) (registeredBuildSystems w)
    ∧ (∀ b, b ∈ found ↔ b ∈ registeredBuildSystems w ∧ marker_found w (proj s) b)
    ∧ sublist found (registeredBuildSystems w).
Proof.
  intros Hbs Hall.
  pose proof (exec_detectBuildSystem (with_completion c w) s Hbs) as H; simpl in H.
  destruct (detectWorkspaces_frame (with_completion c w) s) as (a & b & Hab).
  set (s1 := (exec (detectWorkspaces (with_completion c w)) s).2) in *.
  assert (Hsearch : ∀ b0, fulfilled_value (search (with_completion c w) (proj s1) b0)
                          = fulfilled_value (search w (proj s) b0)).
  { intros b0. unfold search. by rewrite Hab. }
  rewrite (mapM_ext _ _ _ Hsearch) in H.
  destruct (mapM _ (registeredBuildSystems w)) as [found|] eqn:HM.
  - exists (omap id found). eexists. split; [exact H|]. split; [done|].
    rewrite (found_is_filter _ _ _ _ HM). split; [done|]. split.
    + intros b0. rewrite list_elem_of_filter. tauto.
    + apply sublist_filter.
  - exfalso. apply mapM_None_1 in HM. apply Exists_exists in HM as (x & Hx & Hn).
    eapply Forall_forall in Hall; [|exact Hx]. unfold search in Hn.
    destruct (findUp _ _ _ _); [done|]. by destruct Hall.
Qed.

(** In the monorepo, whose registry is Bazel then Buck and where a BUCK
    file is found, Buck alone is detected. *)
Lemma build_systems_in_registration_order_witness :
  ∃ s', exec (detectBuildSystem (with_completion (fun _ => [1; 0]) monorepo_world))
          fresh_state
        = (Fulfilled (Some [Buck]), s').
Proof.
  destruct (build_systems_in_registration_order monorepo_world (fun _ => [1; 0])
              fresh_state eq_refl) as (found & s' & Hrun & _ & Hfound & _).
  - repeat constructor; vm_compute; eauto.
  - exists s'. rewrite Hrun, Hfound. vm_compute. reflexivity.
Defined.

(** ** A project without a package manager *)

Lemma spec_detectPackageManager_none f available p :
  Forall (fun d => ∃ marker,
            findUp f (lockFiles d) (baseDirectory p) (root p) = Fulfilled marker
            ∧ truthy marker = false) available →
  spec_detectPackageManager f available p = Fulfilled None.
Proof.
  induction 1 as [|d l (marker & Hfind & Hfalse) _ IH]; simpl; [done|].
  by rewrite Hfind, Hfalse.
Qed.

(** C9, with the two resolvers as the specification describes them: in a
    project where the marker of no known package manager is found, the
    package-manager accessor resolves to [null], and the workspace accessor
    resolves to [null] without the workspace being looked for (whatever
    [locate] would have answered); both store [null] and emit their event,
    and nothing is reported. *)
Theorem no_package_manager (w : World) (available : list PkgManagerFields)
    (locate : Project → Outcome (option WorkspaceInfo)) (s : St) :
  packageManager (proj s) = Undefined →
  workspace (proj s) = Undefined →
  Forall (fun d => ∃ marker,
            findUp (fs w) (lockFiles d) (baseDirectory (proj s)) (root (proj s))
            = Fulfilled marker
            ∧ truthy marker = false) available →
  let w' := as_specified available locate w in
  let s1 := record (Emitted (EvDetectPackageManager Null))
              (update (set_packageManager Null)
                 (record (Called OpDetectPackageManager) s)) in
  let s2 := record (Emitted (EvDetectWorkspaces Null))
              (update (set_workspace Null)
                 (record (Called OpDetectWorkspaces) s1)) in
  exec (detectPackageManager w') s = (Fulfilled Null, s1)
  ∧ exec (detectWorkspaces w') s = (Fulfilled Null, s2)
  ∧ journal s2
    = journal s ++ [Called OpDetectPackageManager;
                    Emitted (EvDetectPackageManager Null);
                    Called OpDetectWorkspaces;
                    Emitted (EvDetectWorkspaces Null)].
Proof.
  intros Hpm Hws Hnone w' s1 s2.
  assert (Hrun : exec (detectPackageManager w') s = (Fulfilled Null, s1)).
  { rewrite exec_detectPackageManager, Hpm. simpl.
    by rewrite spec_detectPackageManager_none. }
  split; [exact Hrun|]. split.
  - rewrite exec_detectWorkspaces, Hws. simpl. by rewrite Hrun.
  - simpl. by rewrite <- !app_assoc.
Qed.

(** In a project with no lockfile, npm being the one package manager that
    is known, both accessors resolve to [null], though locating a workspace
    would throw. *)
Lemma no_package_manager_witness :
  let w' := as_specified [npm] (fun _ => Failed "ENOENT") plain_world in
  (exec (detectPackageManager w') fresh_state).1 = Fulfilled Null
  ∧ (exec (detectWorkspaces w') fresh_state).1 = Fulfilled Null
  ∧ journal (exec (detectWorkspaces w') fresh_state).2
    = [Called OpDetectPackageManager; Emitted (EvDetectPackageManager Null);
       Called OpDetectWorkspaces; Emitted (EvDetectWorkspaces Null)].
Proof.
  intros w'.
  destruct (no_package_manager plain_world [npm] (fun _ => Failed "ENOENT")
              fresh_state eq_refl eq_refl) as (Hpm & Hws & Hj).
  - repeat constructor. exists None. by vm_compute.
  - fold w' in Hpm, Hws. rewrite Hpm, Hws. simpl. split; [done|]. split; [done|].
    exact Hj.
Defined.

(** ** The constructor *)

(** C10, as the code has it: the base directory is what [fs.resolve] makes
    of the root and the base directory given; a root that is not given, or
    that resolves to the base directory, is left undefined; so a root that
    is defined is the resolved root and differs from the base directory; and
    the base directory is absolute when [fs.resolve] returns absolute paths. *)
Theorem constructor_root (f : FileSystem) (baseDirectory0 root0 : option string) :
  let p := (new_Project f baseDirectory0 root0).1 in
  let base := resolve f (if truthy root0 then default "" root0 else "")
                (default (cwd f) baseDirectory0) in
  baseDirectory p = base
  ∧ (truthy root0 = false → root p = None)
  ∧ (resolve f (cwd f) (default "" root0) = base → root p = None)
  ∧ (∀ r, root p = Some r →
       r = resolve f (cwd f) (default "" root0) ∧ r ≠ baseDirectory p)
  ∧ ((∀ a b, isAbsolute f (resolve f a b) = true) →
     isAbsolute f (baseDirectory p) = true).
Proof.
  intros p base. subst p base. unfold new_Project. simpl.
  assert (Hd : match baseDirectory0 with Some b => b | None => cwd f end
               = default (cwd f) baseDirectory0) by (by destruct baseDirectory0).
  rewrite Hd. split; [done|]. split; [|split; [|split]].
  - by intros ->.
  - intros Heq. destruct (truthy root0); [|done].
    rewrite Heq. by rewrite String.eqb_refl.
  - intros r. destruct (truthy root0); [|done].
    destruct (String.eqb_spec (resolve f (cwd f) (default "" root0))
                (resolve f (default "" root0) (default (cwd f) baseDirectory0)))
      as [Heq|Hne]; [done|].
    intros [= <-]. done.
  - intros Habs. apply Habs.
Qed.

Lemma posix_resolve_absolute a b :
  starts_with_slash (posix_resolve "/work" a b) = true.
Proof.
  unfold posix_resolve.
  destruct (starts_with_slash b) eqn:Hb; [done|].
  destruct (starts_with_slash a) eqn:Ha.
  - unfold posix_join. destruct a as [|c a]; [done|]. simpl.
    destruct (String.eqb b ""); simpl; exact Ha.
  - unfold posix_join at 1. simpl. by destruct (String.eqb (posix_join a b) "").
Qed.

(** The site of a repository: /repo is the root, /repo/site the base. *)
Lemma constructor_root_witness :
  let p := (new_Project (fs_with []) (Some "site") (Some "/repo")).1 in
  root p = Some "/repo"
  ∧ baseDirectory p = "/repo/site"
  ∧ "/repo" ≠ baseDirectory p
  ∧ starts_with_slash (baseDirectory p) = true.
Proof.
  intros p.
  destruct (constructor_root (fs_with []) (Some "site") (Some "/repo"))
    as (Hbase & _ & _ & Hroot & Habs).
  fold p in Hbase, Hroot, Habs.
  assert (Hr : root p = Some "/repo") by (vm_compute; reflexivity).
  split; [exact Hr|]. split; [rewrite Hbase; vm_compute; reflexivity|].
  split; [exact (proj2 (Hroot _ Hr))|].
  apply Habs. intros a b. apply posix_resolve_absolute.
Defined.

(** C10 as stated fails: a base directory given as an absolute path outside
    the root is kept as it is, and the root stays defined though it is no
    ancestor of it. *)
Lemma root_need_not_be_an_ancestor :
  let p := (new_Project (fs_with []) (Some "/elsewhere") (Some "/repo")).1 in
  root p = Some "/repo"
  ∧ baseDirectory p = "/elsewhere"
  ∧ strict_ancestor "/repo" (baseDirectory p) = false.
Proof. vm_compute. auto. Qed.

(** * The pipeline as a whole *)

Lemma started_app op j1 j2 : started op (j1 ++ j2) = started op j1 + started op j2.
Proof. unfold started. by rewrite List.filter_app, length_app. Qed.

Lemma started_foreign op j : foreign (stage_of op) j → started op j = 0.
Proof.
  unfold foreign, started. induction 1 as [|x j Hx _ IH]; [done|]. simpl.
  destruct x as [op'| |]; simpl; try done.
  destruct (bool_decide_reflect (op' = op)) as [->|]; [|done].
  by destruct (Hx op eq_refl).
Qed.

Lemma fresh_set_settings v p : fresh p → fresh (set_settings v p).
Proof. by intros (? & ? & ? & ?). Qed.

(** X1: a first call of the settings accessor stores the empty list, runs
    framework detection (and with it every stage before) and only then
    generates the settings, once, on a project whose frameworks are stored;
    what it returns is what it stores: the settings generated, or the empty
    list when the generation throws. On a project no stage of which has run
    the events come in the order of the pipeline, [detectSettings] last, and
    they are the five of them where nothing throws. *)
Theorem settings_run_last (w : World) (s : St) :
  settings (proj s) = None →
  let s1 := (exec (detectFrameworks w) (update (set_settings (Some [])) s)).2 in
  let o := generateBuildSettings w (proj s1) in
  let s' := (exec (getBuildSettings w) s).2 in
  is_stored frameworks (proj s1)
  ∧ settings (proj s1) = Some []
  ∧ (exec (getBuildSettings w) s).1 = Fulfilled (Some (default [] (fulfilled_value o)))
  ∧ settings (proj s') = Some (default [] (fulfilled_value o))
  ∧ journal s' = journal s1 ++ settings_journal o
  ∧ started OpGetBuildSettings (journal s') = S (started OpGetBuildSettings (journal s))
  ∧ (fresh (proj s) →
     sublist (emitted (drop (length (journal s)) (journal s')))
       ["detectPackageManager"; "detectWorkspaces"; "detectBuildsystems";
        "detectFrameworks"; "detectSettings"]
     ∧ (readable w → is_Some (fulfilled_value o) →
        emitted (drop (length (journal s)) (journal s'))
        = ["detectPackageManager"; "detectWorkspaces"; "detectBuildsystems";
           "detectFrameworks"; "detectSettings"])).
Proof.
  intros Hs s1 o s'.
  pose proof (exec_getBuildSettings w s Hs) as Hrun; simpl in Hrun.
  fold s1 o in Hrun.
  pose proof (settings_kept_by_detectFrameworks w
                (update (set_settings (Some [])) s)) as Hkept.
  simpl in Hkept. fold s1 in Hkept.
  assert (Hj : journal s' = journal s1 ++ settings_journal o).
  { subst s'. rewrite Hrun. destruct o; simpl; by rewrite <- app_assoc. }
  split; [apply first_runs_store|]. split; [done|].
  split; [subst s'; rewrite Hrun; destruct o; simpl; by rewrite ?Hkept|].
  split; [subst s'; rewrite Hrun; destruct o; simpl; by rewrite ?Hkept|].
  split; [done|]. split.
  - destruct (detectFrameworks_keeps w (update (set_settings (Some [])) s))
      as (J & HJ & Hkeeps). fold s1 in HJ. simpl in HJ.
    destruct (Hkeeps StageSettings) as [_ Hf]; [done|].
    rewrite Hj, HJ, !started_app, (started_foreign OpGetBuildSettings J Hf).
    assert (Hone : started OpGetBuildSettings (settings_journal o) = 1)
      by (by destruct o).
    lia.
  - intros Hfresh.
    destruct (detectFrameworks_journal w (update (set_settings (Some [])) s))
      as (o' & m & s1' & Hfw & Hj1 & Hok); [by apply fresh_set_settings|].
    assert (s1' = s1) as -> by (subst s1; by rewrite Hfw).
    change (journal (update (set_settings (Some [])) s)) with (journal s) in Hj1.
    rewrite Hj, Hj1, <- !app_assoc, drop_app_length.
    unfold bs_journal, fw_journal.
    rewrite !emitted_app, emitted_framework_calls, emitted_search_calls. simpl.
    split.
    + apply (sublist_app _ ["detectPackageManager"] _
               ["detectWorkspaces"; "detectBuildsystems"; "detectFrameworks";
                "detectSettings"]).
      { destruct (resolvePackageManager w _); simpl; [done|apply sublist_nil_l]. }
      apply (sublist_app _ ["detectWorkspaces"] _
               ["detectBuildsystems"; "detectFrameworks"; "detectSettings"]).
      { destruct (resolveWorkspaces w _); simpl; [done|apply sublist_nil_l]. }
      apply (sublist_app _ ["detectBuildsystems"] _
               ["detectFrameworks"; "detectSettings"]).
      { destruct o'; simpl; [done|apply sublist_nil_l]. }
      apply sublist_skip. destruct o; simpl; [done|apply sublist_nil_l].
    + intros (Hr1 & Hr2 & Hr3) [l Hl].
      destruct Hok as [found Hfound].
      { apply Forall_forall. intros b _. unfold search.
        match goal with |- context [findUp ?a ?b ?c ?d] =>
          destruct (Hr3 b c d) as [c0 Hc]; destruct (findUp a b c d) end;
          [eauto|done]. }
      match goal with |- context [resolvePackageManager w ?p] =>
        destruct (Hr1 p) as [pm Hpm]; destruct (resolvePackageManager w p) end;
        [|done].
      match goal with |- context [resolveWorkspaces w ?p] =>
        destruct (Hr2 p) as [ws Hws]; destruct (resolveWorkspaces w p) end;
        [|done].
      destruct o'; [|done]. by destruct o.
Qed.

(** The monorepo, where nothing throws: the five events, in order. *)
Lemma settings_run_last_witness :
  settings (proj fresh_state) = None
  ∧ fresh (proj fresh_state)
  ∧ emitted (drop (length (journal fresh_state))
               (journal (exec (getBuildSettings monorepo_world) fresh_state).2))
    = ["detectPackageManager"; "detectWorkspaces"; "detectBuildsystems";
       "detectFrameworks"; "detectSettings"].
Proof.
  assert (Hfresh : fresh (proj fresh_state)) by (vm_compute; auto).
  split; [reflexivity|]. split; [exact Hfresh|].
  destruct (settings_run_last monorepo_world fresh_state eq_refl)
    as (_ & _ & _ & _ & _ & _ & Hev).
  destruct (Hev Hfresh) as [_ Hall]. apply Hall.
  - repeat split; intros; vm_compute; eauto.
  - vm_compute; eauto.
Defined.

(** * What the accessors write *)

Lemma getBuildSettings_frame w s :
  ∃ a b c d e, proj (exec (getBuildSettings w) s).2
               = set_settings e
                   (set_frameworks d
                      (set_buildSystems c (set_workspace b (set_packageManager a (proj s))))).
Proof.
  destruct (settings (proj s)) as [l|] eqn:Hs.
  - rewrite getBuildSettings_cached; [|by unfold is_stored; rewrite Hs]. simpl.
    exists (packageManager (proj s)), (workspace (proj s)), (buildSystems (proj s)),
      (frameworks (proj s)), (settings (proj s)). by destruct (proj s).
  - rewrite (exec_getBuildSettings w s Hs).
    destruct (detectFrameworks_frame w (update (set_settings (Some [])) s))
      as (a & b & c & d & Hfr).
    destruct (generateBuildSettings w _) as [l|e]; simpl; rewrite Hfr; simpl.
    + by exists a, b, c, d, (Some l).
    + by exists a, b, c, d, (Some []).
Qed.

Lemma after_call_frame st w s :
  ∃ a b c d e, proj (after_call st w s)
               = set_settings e
                   (set_frameworks d
                      (set_buildSystems c (set_workspace b (set_packageManager a (proj s))))).
Proof.
  destruct st; simpl.
  - destruct (detectPackageManager_frame w s) as (a & ->).
    exists a, (workspace (proj s)), (buildSystems (proj s)), (frameworks (proj s)),
      (settings (proj s)). by destruct (proj s).
  - destruct (detectWorkspaces_frame w s) as (a & b & ->).
    exists a, b, (buildSystems (proj s)), (frameworks (proj s)), (settings (proj s)).
    by destruct (proj s).
  - destruct (detectBuildSystem_frame w s) as (a & b & c & ->).
    exists a, b, c, (frameworks (proj s)), (settings (proj s)). by destruct (proj s).
  - destruct (detectFrameworks_frame w s) as (a & b & c & d & ->).
    exists a, b, c, d, (settings (proj s)). by destruct (proj s).
  - apply getBuildSettings_frame.
Qed.

(** X2: an accessor writes the field of its stage and of the stages it
    runs first, and nothing else. No accessor writes the field of a later
    stage (the package-manager accessor leaves the four other fields as they
    are, the frameworks accessor the settings); and however long the context
    lives, [root], [baseDirectory] and [relativeBaseDirectory] are those the
    constructor set. *)
Theorem accessors_write_upstream_only (w : World) (s : St) :
  (let p' := proj (exec (detectPackageManager w) s).2 in
   workspace p' = workspace (proj s) ∧ buildSystems p' = buildSystems (proj s)
   ∧ frameworks p' = frameworks (proj s) ∧ settings p' = settings (proj s))
  ∧ (let p' := proj (exec (detectWorkspaces w) s).2 in
     buildSystems p' = buildSystems (proj s)
     ∧ frameworks p' = frameworks (proj s) ∧ settings p' = settings (proj s))
  ∧ (let p' := proj (exec (detectBuildSystem w) s).2 in
     frameworks p' = frameworks (proj s) ∧ settings p' = settings (proj s))
  ∧ settings (proj (exec (detectFrameworks w) s).2) = settings (proj s)
  ∧ ∀ calls,
      root (proj (lifetime calls s)) = root (proj s)
      ∧ baseDirectory (proj (lifetime calls s)) = baseDirectory (proj s)
      ∧ relativeBaseDirectory (proj (lifetime calls s))
        = relativeBaseDirectory (proj s).
Proof.
  split; [by destruct (detectPackageManager_frame w s) as (a & ->)|].
  split; [by destruct (detectWorkspaces_frame w s) as (a & b & ->)|].
  split; [by destruct (detectBuildSystem_frame w s) as (a & b & c & ->)|].
  split; [by destruct (detectFrameworks_frame w s) as (a & b & c & d & ->)|].
  intros calls. revert s.
  induction calls as [|[st w'] calls IH]; intros s; [done|]. simpl.
  destruct (IH (after_call st w' s)) as (-> & -> & ->).
  by destruct (after_call_frame st w' s) as (a & b & c & d & e & ->).
Qed.

(** * What framework detection returns *)

Lemma concat_Permutation {X} (l1 l2 : list (list X)) :
  l1 ≡ₚ l2 → concat l1 ≡ₚ concat l2.
Proof.
  induction 1 as [|x l1 l2 _ IH|x y l|l1 l2 l3 _ IH1 _ IH2]; simpl.
  - done.
  - by rewrite IH.
  - rewrite !app_assoc. by rewrite (Permutation_app_comm y x).
  - by rewrite IH1.
Qed.

Lemma covers_flat w p ws m :
  covers w p ws m →
  values_flat m
  ≡ₚ concat ((fun key => frameworks_in_path w p (package_dir w ws key))
             <$> remove_dups (path <$> packages ws)).
Proof.
  intros (Hnd & Hkeys & Hval). unfold values_flat.
  assert (Hm : m.*2 = (fun key => frameworks_in_path w p (package_dir w ws key))
                      <$> m.*1).
  { clear Hnd Hkeys. induction m as [|[k v] m IH]; [done|]. simpl. f_equal.
    - apply Hval. by left.
    - apply IH. intros key x Hin. apply Hval. by right. }
  rewrite Hm. apply concat_Permutation, fmap_Permutation.
  apply NoDup_Permutation; [done|apply NoDup_remove_dups|].
  intros key. by rewrite Hkeys, elem_of_remove_dups.
Qed.

(** X3: a first call of the frameworks accessor returns, for a workspace,
    the lists detected at the paths of the members, each path once, put
    together in some order; for a project that is no workspace, the list
    detected at the root path. So every framework of every member is in the
    result, and nothing else is, in whatever order the members complete. *)
Theorem frameworks_returned (w : World) (s : St) :
  frameworks (proj s) = None →
  let s' := (exec (detectFrameworks w) s).2 in
  let p := set_frameworks (Some []) (proj s') in
  ∃ l, (exec (detectFrameworks w) s).1 = Fulfilled (Obj l)
     ∧ match workspace (proj s') with
       | Obj ws =>
           l ≡ₚ concat ((fun key => frameworks_in_path w p (package_dir w ws key))
                         <$> remove_dups (path <$> packages ws))
       | _ => l = frameworks_in_path w p None
       end.
Proof.
  intros Hfw s' p. subst s' p.
  destruct (exec_detectFrameworks w s Hfw) as (m & -> & Hm). simpl.
  exists (values_flat m). split; [done|]. unfold detected_map in Hm.
  destruct (workspace _) as [| |ws];
    try (subst m; unfold values_flat; simpl; by rewrite app_nil_r).
  by apply covers_flat.
Qed.

(** The monorepo: Next.js, found in pkg-a only, is what is returned. *)
Lemma frameworks_returned_witness :
  frameworks (proj fresh_state) = None
  ∧ (exec (detectFrameworks monorepo_world) fresh_state).1 = Fulfilled (Obj [next_js]).
Proof.
  split; [reflexivity|].
  destruct (frameworks_returned monorepo_world fresh_state eq_refl)
    as (l & Hl & Hperm).
  assert (Hws : workspace (proj (exec (detectFrameworks monorepo_world) fresh_state).2)
                = Obj monorepo) by (vm_compute; reflexivity).
  rewrite Hws in Hperm. vm_compute in Hperm.
  apply Permutation_singleton_r in Hperm. by rewrite Hl, Hperm.
Defined.

(** * The order in which the members of a workspace are listed *)

Section Completions.
Context {X B : Type} (xs : list X) (val : X → B) (eff : X → St → St).
Context (I : St → Prop).

(** Tasks that complete by [eff] are completed in the order [completions]
    gives. *)
Lemma settle_all_completions :
  (∀ x s, I s → I (eff x s)) →
  ∀ order slots seen s,
    I s →
    Forall2 (fun slot x =>
               (∃ b, slot = Done b)
               ∨ ∃ k, slot = Pending k
                      ∧ ∀ s0, I s0 → run (k s0) = (Fulfilled (val x), eff x s0))
      slots xs →
    (∀ i, i ∈ seen ↔ ∃ b, slots !! i = Some (Done b)) →
    ∃ slots',
      settle_all order slots s
      = (Fulfilled slots',
         foldl (fun s0 i => from_option (fun x => eff x s0) s0 (xs !! i)) s
           (completions (length xs) seen order)).
Proof.
  intros HI. induction order as [|i order IH]; intros slots seen s Hs Hfa Hseen;
    simpl; [eauto|].
  pose proof (Forall2_length _ _ _ Hfa) as Hlen.
  destruct (slots !! i) as [[k|b|e]|] eqn:Hi.
  - destruct (Forall2_lookup_l _ _ _ _ _ Hfa Hi)
      as (x & Hx & [[b ?]|(k' & Hk' & Hrun)]); [done|].
    inversion Hk'; subst k'. rewrite (Hrun s Hs).
    rewrite decide_True.
    2:{ split; [apply lookup_lt_Some in Hx; lia|].
        rewrite Hseen. intros [b Hb]. congruence. }
    simpl. rewrite Hx. simpl. apply IH; [by apply HI| |].
    + rewrite <- (list_insert_id xs i x Hx). apply Forall2_insert; [done|].
      left; eauto.
    + intros j. rewrite elem_of_cons, Hseen. split.
      * intros [->|[b Hb]].
        -- exists (val x). rewrite list_lookup_insert_eq; [done|].
           by eapply lookup_lt_Some.
        -- exists b. rewrite list_lookup_insert_ne; [done|]. intros ->. congruence.
      * intros [b Hb]. destruct (decide (j = i)) as [->|Hne]; [by left|].
        right. rewrite list_lookup_insert_ne in Hb; eauto.
  - rewrite decide_False; [by apply IH|].
    intros [_ Hn]. apply Hn, Hseen. eauto.
  - destruct (Forall2_lookup_l _ _ _ _ _ Hfa Hi) as (x & _ & [[b ?]|(k & ? & _)]);
      done.
  - rewrite decide_False; [by apply IH|].
    intros [Hlt _]. apply lookup_ge_None in Hi. lia.
Qed.
End Completions.

Lemma completions_app n l1 : ∀ seen l2,
  completions n seen (l1 ++ l2)
  = completions n seen l1
    ++ completions n (reverse (completions n seen l1) ++ seen) l2.
Proof.
  induction l1 as [|i l1 IH]; intros seen l2; simpl; [done|].
  destruct (decide (i < n ∧ i ∉ seen)); [|apply IH].
  simpl. rewrite IH. f_equal. f_equal.
  by rewrite reverse_cons, <- app_assoc.
Qed.

(** Indices that have not completed complete in the order they are named in. *)
Lemma completions_fresh n l : ∀ seen,
  NoDup l → (∀ i, i ∈ l → i < n ∧ i ∉ seen) → completions n seen l = l.
Proof.
  induction l as [|i l IH]; intros seen Hnd Hl; simpl; [done|].
  apply NoDup_cons in Hnd as [Hi Hnd].
  rewrite decide_True; [|apply Hl; by left]. f_equal. apply IH; [done|].
  intros j Hj. destruct (Hl j) as [Hlt Hn]; [by right|]. split; [done|].
  rewrite elem_of_cons. intros [->|?]; done.
Qed.

Lemma completions_seen n l : ∀ seen,
  (∀ i, i ∈ l → i < n → i ∈ seen) → completions n seen l = [].
Proof.
  induction l as [|i l IH]; intros seen Hl; simpl; [done|].
  rewrite decide_False.
  - apply IH. intros j Hj. apply Hl. by right.
  - intros [Hlt Hn]. apply Hn, Hl; [by left|done].
Qed.

(** An order that names every task once is the order of completion. *)
Lemma completions_permutation n order :
  order ≡ₚ seq 0 n → completions n [] (order ++ seq 0 n) = order.
Proof.
  intros Hp.
  assert (Hin : ∀ i, i ∈ order ↔ i < n).
  { intros i. rewrite Hp, elem_of_seq. lia. }
  rewrite completions_app, completions_fresh.
  - rewrite completions_seen; [by rewrite app_nil_r|].
    intros i _ Hlt. rewrite app_nil_r, elem_of_reverse. by apply Hin.
  - rewrite Hp. apply NoDup_seq.
  - intros i Hi. split; [by apply Hin|]. apply not_elem_of_nil.
Qed.

Lemma map_set_fresh k v m : k ∉ m.*1 → map_set k v m = m ++ [(k, v)].
Proof.
  induction m as [|[k' v'] m IH]; simpl; intros Hk; [done|].
  apply not_elem_of_cons in Hk as [Hne Hk].
  destruct (String.eqb_spec k' k) as [->|_]; [done|]. by rewrite IH.
Qed.

Lemma update_set_frameworks a b s :
  update (set_frameworks a) (update (set_frameworks b) s)
  = update (set_frameworks a) s.
Proof. done. Qed.

(** The fan-out over the members of a workspace whose paths differ, the
    members completing in an order that names each once. *)
Lemma exec_fan_out_order w s ws :
  workspace (proj s) = Obj ws →
  frameworks (proj s) = Some [] →
  NoDup (path <$> packages ws) →
  completion w SitePackages ≡ₚ seq 0 (length (packages ws)) →
  ∃ rs,
    exec (promise_all (completion w SitePackages)
            (map (detectFrameworksInPackage w) (packages ws))) s
    = (Fulfilled rs,
       update (set_frameworks
                 (Some (omap (member_entry w (proj s) ws) (completion w SitePackages))))
         (journal_app (package_calls w ws) s)).
Proof.
  intros Hws Hfw Hnd Hperm.
  set (resk := fun key => frameworks_in_path w (proj s) (package_dir w ws key)).
  set (P := fun (x : WorkspacePackage) (k : St → Task unit) =>
              ∀ s', run (k s') = exec (frameworks_set (path x) (resk (path x))) s').
  rewrite exec_promise_all.
  destruct (start_all_suspended (detectFrameworksInPackage w)
              (fun pkg => map (framework_call (package_dir w ws (path pkg)))
                            (registeredFrameworks w))
              P (proj s) (packages ws)) with (s := s)
    as (slots & Hstart & Hslots); [|done|].
  { intros x s0 Hs0.
    destruct (detectFrameworksInPackage_shape w x s0 ws) as (k & Hk & Hrun);
      [by rewrite Hs0|].
    exists k. split; [done|]. intros s'. rewrite Hrun. unfold resk. by rewrite Hs0. }
  rewrite Hstart; simpl. fold (package_calls w ws).
  rewrite (first_broken_pending _ _ _ Hslots).
  set (s1 := journal_app (package_calls w ws) s).
  set (eff := fun (x : WorkspacePackage) (s0 : St) =>
     update (fun p => set_frameworks
                        (Some (map_set (path x) (resk (path x))
                                 (default [] (frameworks p)))) p) s0).
  destruct (settle_all_completions (packages ws) (fun _ => tt) eff
              (fun s0 => is_Some (frameworks (proj s0))))
    with (order := completion w SitePackages ++ seq 0 (length slots))
         (slots := slots) (seen := @nil nat) (s := s1) as (slots' & ->).
  - intros x s0 _. by eexists.
  - simpl. by rewrite Hfw.
  - eapply Forall2_impl; [exact Hslots|]. intros slot x (k & -> & Hk).
    right. exists k. split; [done|]. intros s0 [m Hm].
    rewrite Hk, exec_frameworks_set, Hm. unfold eff, update. simpl.
    by rewrite Hm.
  - intros i. split; [intros Hi; by apply elem_of_nil in Hi|].
    intros [b Hb]. destruct (Forall2_lookup_l _ _ _ _ _ Hslots Hb)
      as (x & _ & k & ? & _). done.
  - exists (omap done_value slots'). f_equal.
    rewrite (Forall2_length _ _ _ Hslots), completions_permutation by done.
    assert (Hs1 : s1 = update (set_frameworks (Some [])) s1).
    { unfold update, s1, journal_app; cbn [proj journal]. f_equal.
      rewrite <- (set_frameworks_id (proj s)) at 1. by f_equal. }
    rewrite Hs1 at 1.
    assert (Hin : ∀ i, i ∈ completion w SitePackages → i < length (packages ws)).
    { intros i. rewrite Hperm, elem_of_seq. lia. }
    assert (Hndo : NoDup (completion w SitePackages)).
    { rewrite Hperm. apply NoDup_seq. }
    change (omap (member_entry w (proj s) ws) (completion w SitePackages))
      with ([] ++ omap (member_entry w (proj s) ws) (completion w SitePackages)).
    assert (Hm : ∀ i x, i ∈ completion w SitePackages →
                   packages ws !! i = Some x → path x ∉ (@nil (string * list DetectedFramework)).*1).
    { intros. apply not_elem_of_nil. }
    clear Hperm. revert Hin Hndo Hm.
    generalize (@nil (string * list DetectedFramework)).
    induction (completion w SitePackages) as [|i rest IH]; intros m Hin Hndo Hm.
    + simpl. by rewrite app_nil_r.
    + apply NoDup_cons in Hndo as [Hi Hndo].
      destruct (lookup_lt_is_Some_2 (packages ws) i) as [x Hx];
        [apply Hin; by left|].
      assert (Hme : member_entry w (proj s) ws i = Some (path x, resk (path x))).
      { unfold member_entry. by rewrite Hx. }
      assert (Hstep : eff x (update (set_frameworks (Some m)) s1)
                      = update (set_frameworks (Some (map_set (path x) (resk (path x)) m))) s1)
        by done.
      simpl. rewrite Hx, Hme. simpl. rewrite Hstep.
      rewrite map_set_fresh; [|by eapply Hm; [left|done]].
      rewrite IH; [by rewrite <- app_assoc|by intros j Hj; apply Hin; right|done|].
      intros j y Hj Hy. rewrite fmap_app, elem_of_app. intros [Hjm|Hjx].
      * eapply Hm; [by right|done..].
      * simpl in Hjx. apply list_elem_of_singleton in Hjx.
        assert (i = j); [|by subst].
        eapply (NoDup_lookup _ _ _ (path x) Hnd); rewrite list_lookup_fmap.
        -- by rewrite Hx.
        -- rewrite Hy. simpl. by rewrite Hjx.
Qed.

(** X4: the map of frameworks lists the members of a workspace in the order
    in which their evaluations complete, not in the order of the workspace:
    where the paths of the members differ and the order of completion names
    each member once, the keys of the map are the paths in that order, each
    with the list detected at it, and the accessor returns those lists put
    together in that order. *)
Theorem members_in_completion_order (w : World) (s : St) (ws : WorkspaceInfo) :
  frameworks (proj s) = None →
  let s1 := (exec (detectBuildSystem w) s).2 in
  let p := set_frameworks (Some []) (proj s1) in
  let m := omap (member_entry w p ws) (completion w SitePackages) in
  workspace (proj s1) = Obj ws →
  NoDup (path <$> packages ws) →
  completion w SitePackages ≡ₚ seq 0 (length (packages ws)) →
  frameworks (proj (exec (detectFrameworks w) s).2) = Some m
  ∧ m.*1 = omap (fun i => path <$> packages ws !! i) (completion w SitePackages)
  ∧ (exec (detectFrameworks w) s).1 = Fulfilled (Obj (concat m.*2)).
Proof.
  intros Hunset s1 p m Hws Hnd Hperm.
  assert (Hrun : exec (detectFrameworks w) s
                 = (Fulfilled (Obj (values_flat m)),
                    record (Emitted (EvDetectFrameworks m))
                      (update (set_frameworks (Some m))
                         (journal_app (package_calls w ws) s1)))).
  { unfold detectFrameworks. exec_step. rewrite Hunset. exec_step.
    destruct (detectBuildSystem_resolves w s) as [v ->]. fold s1. exec_step.
    rewrite Hws. exec_step.
    destruct (exec_fan_out_order w (update (set_frameworks (Some [])) s1) ws)
      as (rs & ->); [done..|]. by exec_step. }
  rewrite Hrun. split; [done|]. split; [|done].
  subst m. clear. induction (completion w SitePackages) as [|i l IH]; [done|].
  cbn [omap list_omap]. unfold member_entry at 1.
  destruct (packages ws !! i); cbn [mbind option_bind fmap option_fmap option_map list_fmap];
    by rewrite <- IH.
Qed.

(** In the monorepo the member listed last completes first: pkg-b comes
    before pkg-a in the map. *)
Lemma members_in_completion_order_witness :
  frameworks (proj fresh_state) = None
  ∧ ∃ m, frameworks (proj (exec (detectFrameworks monorepo_world) fresh_state).2)
         = Some m
       ∧ m.*1 = ["pkg-b"; "pkg-a"].
Proof.
  split; [reflexivity|].
  destruct (members_in_completion_order monorepo_world fresh_state monorepo)
    as (Hm & Hkeys & _).
  - reflexivity.
  - vm_compute. reflexivity.
  - apply (bool_decide_unpack _). vm_compute. reflexivity.
  - apply perm_swap.
  - eexists. split; [exact Hm|exact Hkeys].
Defined.

(** * A second caller of the settings accessor *)

Section First_stop.
Context {A B : Type}.

Lemma writes_no_settings_bind (m : Async A) (f : A → Async B) :
  writes_no_settings m → (∀ a, writes_no_settings (f a)) →
  writes_no_settings (bind m f).
Proof.
  intros Hm Hf s. unfold bind. specialize (Hm s).
  destruct (m s) as [a s'|e s'|s' k]; simpl in *; [|done..].
  by rewrite Hf.
Qed.

Lemma writes_no_settings_catch (m : Async A) (h : Err → Async A) :
  writes_no_settings m → (∀ e, writes_no_settings (h e)) →
  writes_no_settings (try_catch m h).
Proof.
  intros Hm Hh s. unfold try_catch. specialize (Hm s).
  destruct (m s) as [a s'|e s'|s' k]; simpl in *; [done| |done].
  by rewrite Hh.
Qed.

Lemma writes_no_settings_start (tasks : list (Async B)) :
  Forall writes_no_settings tasks →
  ∀ s, settings (proj (start_all tasks s).2) = settings (proj s).
Proof.
  induction 1 as [|t tasks Ht _ IH]; intros s; simpl; [done|].
  specialize (Ht s).
  destruct (t s) as [b s'|e s'|s' k]; simpl in Ht;
    specialize (IH s'); destruct (start_all tasks s') as [sl s'']; simpl in *;
    congruence.
Qed.

Lemma writes_no_settings_all {X} order (T : X → Async B) xs :
  (∀ x, writes_no_settings (T x)) → writes_no_settings (promise_all order (map T xs)).
Proof.
  intros Hall s. unfold promise_all.
  assert (Hmap : Forall writes_no_settings (map T xs)).
  { induction xs; simpl; constructor; auto. }
  pose proof (writes_no_settings_start _ Hmap s) as Hs.
  by destruct (start_all (map T xs) s) as [sl s1].
Qed.
End First_stop.

Lemma writes_no_settings_call {R} op (f : Project → Outcome R) :
  writes_no_settings (call op f).
Proof. done. Qed.

Ltac no_settings :=
  repeat first
    [ apply writes_no_settings_bind; [|intros ?]
    | apply writes_no_settings_catch; [|intros ?]
    | apply writes_no_settings_call
    | apply writes_no_settings_all; intros ?
    | match goal with
      | |- writes_no_settings (if ?b then _ else _) => destruct b
      | |- writes_no_settings (match ?x with _ => _ end) => destruct x
      end
    | done ].

Lemma detectPackageManager_first_stop w : writes_no_settings (detectPackageManager w).
Proof. unfold detectPackageManager. no_settings. Qed.

Lemma detectWorkspaces_first_stop w : writes_no_settings (detectWorkspaces w).
Proof.
  unfold detectWorkspaces. pose proof (detectPackageManager_first_stop w).
  no_settings.
Qed.

Lemma detectBuildSystem_first_stop w : writes_no_settings (detectBuildSystem w).
Proof.
  unfold detectBuildSystem. pose proof (detectWorkspaces_first_stop w).
  no_settings.
Qed.

Lemma detectFrameworksInPath_first_stop w path0 :
  writes_no_settings (detectFrameworksInPath w path0).
Proof. unfold detectFrameworksInPath. no_settings. Qed.

Lemma detectFrameworks_first_stop w : writes_no_settings (detectFrameworks w).
Proof.
  unfold detectFrameworks, detectFrameworksInPackage, frameworks_set.
  pose proof (detectBuildSystem_first_stop w).
  pose proof (detectFrameworksInPath_first_stop w).
  no_settings.
Qed.

(** A first call of the settings accessor is suspended with the empty list
    stored. *)
Lemma getBuildSettings_shape w s :
  settings (proj s) = None →
  ∃ s1 k, getBuildSettings w s = Suspended s1 k
        ∧ settings (proj s1) = Some []
        ∧ run (k s1) = exec (getBuildSettings w) s.
Proof.
  intros Hs.
  assert (H : ∃ s1 k, getBuildSettings w s = Suspended s1 k
                    ∧ settings (proj s1) = Some []).
  { set (s0 := update (set_settings (Some [])) s).
    pose proof (detectFrameworks_first_stop w s0) as Hstop.
    destruct (detectFrameworks_resolves w s0) as [v Hres].
    unfold getBuildSettings, bind at 1, this. simpl. rewrite Hs.
    unfold bind at 1, assign. simpl. fold s0.
    unfold bind at 1, try_catch, bind at 1.
    unfold exec in Hres.
    destruct (detectFrameworks w s0) as [a s'|e s'|s' k]; simpl in *;
      [|done|]; eexists _, _; (split; [done|]); done. }
  destruct H as (s1 & k & Hk & Hs1). exists s1, k.
  split; [done|]. split; [done|]. unfold exec. by rewrite Hk.
Qed.

Lemma settle_all_first {B} (k : St → Task B) (b v : B) s s' order :
  0 ∈ order → run (k s) = (Fulfilled v, s') →
  settle_all order [Pending k; Done b] s = (Fulfilled [Done v; Done b], s').
Proof.
  intros Hin Hrun. induction order as [|i order IH]; [by apply elem_of_nil in Hin|].
  simpl. destruct i as [|[|i]]; simpl.
  - rewrite Hrun. apply settle_all_done. intros j [k' Hk']. by destruct j as [|[|j]].
  - apply IH. by apply elem_of_cons in Hin as [|].
  - apply IH. by apply elem_of_cons in Hin as [|].
Qed.

(** X5: the settings accessor stores the empty list before it awaits
    anything, so a second caller that calls it while the first call is
    under way finds the field set and is returned the empty list at once:
    it neither waits for the settings nor starts anything, and the state the
    two calls leave is the one the first call alone leaves. *)
Theorem second_caller_of_settings (w : World) (order : list nat) (s : St) :
  settings (proj s) = None →
  ∃ v, exec (getBuildSettings w) s = (Fulfilled v, (exec (getBuildSettings w) s).2)
     ∧ exec (promise_all order [getBuildSettings w; getBuildSettings w]) s
       = (Fulfilled [v; Some []], (exec (getBuildSettings w) s).2).
Proof.
  intros Hs. destruct (getBuildSettings_shape w s Hs) as (s1 & k & Hk & Hs1 & Hrun).
  assert (Hv : ∃ v, exec (getBuildSettings w) s
                    = (Fulfilled v, (exec (getBuildSettings w) s).2)).
  { rewrite (exec_getBuildSettings w s Hs).
    destruct (generateBuildSettings w _); simpl; eauto. }
  destruct Hv as [v Hv]. exists v. split; [done|].
  rewrite exec_promise_all. simpl. rewrite Hk.
  assert (Hsecond : getBuildSettings w s1 = Resolved (Some []) s1).
  { unfold getBuildSettings, bind, this. simpl. by rewrite Hs1. }
  rewrite Hsecond. simpl.
  rewrite (settle_all_first k (Some []) v s1 (exec (getBuildSettings w) s).2);
    [done| |by rewrite Hrun].
  apply elem_of_app. right. by left.
Qed.

(** Where the settings of one build are generated, the first caller is
    returned them and the second the empty list. *)
Lemma second_caller_of_settings_witness :
  settings (proj fresh_state) = None
  ∧ (exec (promise_all [1; 0] [getBuildSettings built_world; getBuildSettings built_world])
       fresh_state).1
    = Fulfilled [Some [site_settings]; Some []].
Proof.
  split; [reflexivity|].
  destruct (second_caller_of_settings built_world [1; 0] fresh_state eq_refl)
    as (v & Hv & Hall).
  rewrite Hall. simpl.
  assert (Hc : (exec (getBuildSettings built_world) fresh_state).1 = Fulfilled v)
    by (by rewrite Hv).
  vm_compute in Hc. by inversion Hc.
Defined.

(** * The run command of an npm script *)

(** X6: after package-manager detection, the command of an npm script is
    the run command of the package manager detected, a space and the
    script; it is npm's run command that is used when no package manager
    was detected, when the detection threw, and when the run command of
    the package manager detected is empty. *)
Theorem npm_script_command (w : World) (s : St) (npmRun script : string) :
  packageManager (proj s) = Undefined →
  getNpmScriptCommand npmRun (proj (exec (detectPackageManager w) s).2) script
  = (match resolvePackageManager w (proj s) with
     | Fulfilled (Some pm) =>
         if String.eqb (runCommand pm) "" then npmRun else runCommand pm
     | _ => npmRun
     end ++ " " ++ script)%string.
Proof.
  intros Hpm. rewrite exec_detectPackageManager, Hpm. simpl.
  unfold getNpmScriptCommand.
  destruct (resolvePackageManager w (proj s)) as [[pm|]|e]; simpl; rewrite ?Hpm;
    try done.
  by destruct (String.eqb (runCommand pm) "").
Qed.

(** In the monorepo npm is detected; in a project that is no JavaScript
    project the command is npm's all the same. *)
Lemma npm_script_command_witness :
  packageManager (proj fresh_state) = Undefined
  ∧ getNpmScriptCommand "npm run"
      (proj (exec (detectPackageManager monorepo_world) fresh_state).2) "build"
    = "npm run build"
  ∧ getNpmScriptCommand "npm run"
      (proj (exec (detectPackageManager plain_world) fresh_state).2) "build"
    = "npm run build".
Proof.
  split; [reflexivity|]. split.
  - by rewrite (npm_script_command monorepo_world fresh_state "npm run" "build" eq_refl).
  - by rewrite (npm_script_command plain_world fresh_state "npm run" "build" eq_refl).
Defined.

(** * The version of Node.js *)

(** X7: a version set by [setNodeVersion] is the current version, whatever
    the environment and the files say, and no file is read for it. A
    version that does not parse is no version: the field is [null] again,
    even if a version had been set before, and the current version is the
    one of an instance with the same environment and no version set. *)
Theorem set_node_version {V} (lib : Semver V) (f : Reads.t) (i : Fields V)
    (version : string) :
  match parse lib (VString version) false with
  | Some v =>
      getCurrentNodeVersion lib f (setNodeVersion lib version i) = (Fulfilled (Some v), [])
  | None =>
      getCurrentNodeVersion lib f (setNodeVersion lib version i)
      = getCurrentNodeVersion lib f (setEnvironment (environment i) new_Fields)
  end.
Proof.
  unfold getCurrentNodeVersion, setNodeVersion; simpl.
  by destruct (parse lib (VString version) false).
Qed.

(** X8: with no version set, the current version is looked for in the
    environment, then in .nvmrc, then in .node_version. A [NODE_VERSION]
    that gives no version is passed over; a file is passed over only when
    it is missing or empty: the first file with content decides, so a
    .nvmrc whose content gives no version makes the current version [null]
    and .node_version is not read. No file is read when the environment
    gives a version. *)
Theorem node_version_sources {V} (lib : Semver V) (f : Reads.t) (i : Fields V) :
  _nodeVersion i = None →
  (∀ v, from_environment lib i = Some v →
     getCurrentNodeVersion lib f i = (Fulfilled (Some v), []))
  ∧ (from_environment lib i = None →
     (∀ content, Reads.gracefullyReadFile f ".nvmrc" = Fulfilled (Some content) →
        content ≠ "" →
        getCurrentNodeVersion lib f i
        = (Fulfilled (from_file lib content), [ReadFile ".nvmrc"]))
     ∧ (∀ nvmrc, Reads.gracefullyReadFile f ".nvmrc" = Fulfilled nvmrc →
          nvmrc = None ∨ nvmrc = Some "" →
          (∀ content,
             Reads.gracefullyReadFile f ".node_version" = Fulfilled (Some content) →
             content ≠ "" →
             getCurrentNodeVersion lib f i
             = (Fulfilled (from_file lib content),
                [ReadFile ".nvmrc"; ReadFile ".node_version"]))
          ∧ (∀ node_version,
               Reads.gracefullyReadFile f ".node_version" = Fulfilled node_version →
               node_version = None ∨ node_version = Some "" →
               getCurrentNodeVersion lib f i
               = (Fulfilled None, [ReadFile ".nvmrc"; ReadFile ".node_version"])))).
Proof.
  intros Hset. unfold getCurrentNodeVersion, from_environment, from_file.
  rewrite Hset. split.
  - by intros v ->.
  - intros ->. split.
    + intros content -> Hne. simpl.
      by destruct (String.eqb_spec content "").
    + intros nvmrc -> Hnvmrc.
      assert (truthy nvmrc = false) as -> by (by destruct Hnvmrc as [->| ->]).
      split.
      * intros content -> Hne. simpl. by destruct (String.eqb_spec content "").
      * intros node_version -> Hnv.
        by assert (truthy node_version = false) as ->
          by (by destruct Hnv as [->| ->]).
Qed.

(** A .nvmrc that names a codename gives no version: the current version is
    [null], though .node_version holds 18.17.0. *)
Lemma node_version_sources_witness :
  let f := files_of (Some "lts/hydrogen") (Some "18.17.0") [] (Fulfilled []) in
  _nodeVersion (@new_Fields (nat * nat * nat)) = None
  ∧ getCurrentNodeVersion node18 f new_Fields = (Fulfilled None, [ReadFile ".nvmrc"])
  ∧ getCurrentNodeVersion node18 f (setEnvironment (fun _ => Some "18") new_Fields)
    = (Fulfilled (Some (18, 0, 0)), []).
Proof.
  intros f. split; [reflexivity|]. split.
  - destruct (node_version_sources node18 f new_Fields eq_refl) as [_ Hfiles].
    destruct (Hfiles eq_refl) as [Hnvmrc _].
    by rewrite (Hnvmrc "lts/hydrogen" eq_refl).
  - destruct (node_version_sources node18 f
                (setEnvironment (fun _ => Some "18") new_Fields) eq_refl) as [Henv _].
    by apply Henv.
Defined.

(** * package.json *)

Lemma own_property_with_property k v o :
  own_property k (with_property k v o) = Some v.
Proof.
  induction o as [|[k' v'] o IH]; simpl; [by rewrite String.eqb_refl|].
  destruct (String.eqb_spec k' k) as [->|Hne]; simpl.
  - by rewrite String.eqb_refl.
  - by destruct (String.eqb_spec k' k).
Qed.

Lemma own_property_with_property_ne k k' v o :
  k' ≠ k → own_property k' (with_property k v o) = own_property k' o.
Proof.
  intros Hne. induction o as [|[k0 v0] o IH]; simpl.
  - by destruct (String.eqb_spec k k').
  - destruct (String.eqb_spec k0 k) as [->|Hne0]; simpl.
    + by destruct (String.eqb_spec k k').
    + by rewrite IH.
Qed.

Lemma with_property_keys k v o key :
  key ∈ (with_property k v o).*1 ↔ key = k ∨ key ∈ o.*1.
Proof.
  induction o as [|[k' v'] o IH]; simpl.
  - rewrite list_elem_of_singleton, elem_of_nil. tauto.
  - destruct (String.eqb_spec k' k) as [->|Hne]; simpl.
    + rewrite !elem_of_cons. tauto.
    + rewrite !elem_of_cons, IH. tauto.
Qed.

(** X9: [getPackageJSON] looks for the nearest package.json from the start
    directory (the base directory when none, or an empty one, is given) up
    to the root. What it resolves to always has a [pkgPath]: [null], and
    nothing else, when no package.json is found, in which case nothing is
    read; otherwise the path found, whatever [pkgPath] the file itself
    holds, every other property being as the file has it. It rejects when
    the search or the reading does. *)
Theorem package_json_path (f : Reads.t) (p : Project) (startDirectory : option string) :
  let cwd0 := if truthy startDirectory then default "" startDirectory
              else baseDirectory p in
  let search := FindUp "package.json" cwd0 (root p) in
  (∀ e, Reads.findUp f "package.json" cwd0 (root p) = Failed e →
     getPackageJSON f p startDirectory = (Failed e, [search]))
  ∧ (∀ found, Reads.findUp f "package.json" cwd0 (root p) = Fulfilled found →
       truthy found = false →
       getPackageJSON f p startDirectory = (Fulfilled [("pkgPath", JsNull)], [search]))
  ∧ (∀ pkgPath, Reads.findUp f "package.json" cwd0 (root p) = Fulfilled (Some pkgPath) →
       pkgPath ≠ "" →
       (getPackageJSON f p startDirectory).2 = [search; ReadJSON pkgPath]
       ∧ match Reads.readJSON f pkgPath with
         | Failed e => (getPackageJSON f p startDirectory).1 = Failed e
         | Fulfilled json =>
             ∃ r, (getPackageJSON f p startDirectory).1 = Fulfilled r
                ∧ own_property "pkgPath" r = Some (JsString pkgPath)
                ∧ (∀ k, k ≠ "pkgPath" → own_property k r = own_property k json)
                ∧ (∀ k, k ∈ r.*1 ↔ k = "pkgPath" ∨ k ∈ json.*1)
         end).
Proof.
  intros cwd0 search. unfold getPackageJSON. fold cwd0. fold search.
  split; [by intros e ->|]. split; [by intros found -> ->|].
  intros pkgPath -> Hne.
  assert (truthy (Some pkgPath) = true) as ->.
  { simpl. by destruct (String.eqb_spec pkgPath ""). }
  simpl. destruct (Reads.readJSON f pkgPath) as [json|e]; [|done].
  split; [done|]. eexists. split; [done|].
  split; [apply own_property_with_property|].
  split; [intros k Hk; by apply own_property_with_property_ne|].
  intros k. apply with_property_keys.
Qed.

(** A package.json in /work that names its own [pkgPath]: the path found
    replaces it. *)
Lemma package_json_path_witness :
  let json := [("name", JsString "site"); ("pkgPath", JsString "elsewhere")] in
  let f := files_of None None ["/work"] (Fulfilled json) in
  getPackageJSON f (proj fresh_state) None
  = (Fulfilled [("name", JsString "site"); ("pkgPath", JsString "/work/package.json")],
     [FindUp "package.json" "/work" None; ReadJSON "/work/package.json"])
  ∧ ∃ r, (getPackageJSON f (proj fresh_state) (Some "")).1 = Fulfilled r
       ∧ own_property "pkgPath" r = Some (JsString "/work/package.json").
Proof.
  intros json f. split; [reflexivity|].
  destruct (package_json_path f (proj fresh_state) (Some "")) as (_ & _ & Hfound).
  destruct (Hfound "/work/package.json" eq_refl) as [_ Hr]; [done|].
  simpl in Hr. destruct Hr as (r & Hr & Hpath & _). eauto.
Defined.

(** X10: [getRootPackageJSON] reads the last of the paths [findUpMultiple]
    returns for package.json from the base directory up to the root (the
    uppermost file, as the source has it), and sets [jsWorkspaceRoot] to
    its directory before it reads it: the field is set even when the
    reading then fails. When none is found it resolves to the empty object,
    reads nothing and leaves [jsWorkspaceRoot] as it is; when the search
    rejects it rejects and writes nothing. *)
Theorem root_package_json {V} (f : Reads.t) (p : Project) (i : Fields V) :
  let search := FindUpMultiple "package.json" (baseDirectory p) (root p) in
  (∀ found rootJSONPath,
     Reads.findUpMultiple f "package.json" (baseDirectory p) (root p)
     = Fulfilled (found ++ [rootJSONPath]) →
     rootJSONPath ≠ "" →
     getRootPackageJSON f p i
     = (Reads.readJSON f rootJSONPath,
        set_jsWorkspaceRoot (Reads.dirname f rootJSONPath) i,
        [search; ReadJSON rootJSONPath]))
  ∧ (Reads.findUpMultiple f "package.json" (baseDirectory p) (root p) = Fulfilled [] →
     getRootPackageJSON f p i = (Fulfilled [], i, [search]))
  ∧ (∀ e, Reads.findUpMultiple f "package.json" (baseDirectory p) (root p) = Failed e →
       getRootPackageJSON f p i = (Failed e, i, [search])).
Proof.
  intros search. unfold getRootPackageJSON. fold search.
  split; [|split; [by intros ->|by intros e ->]].
  intros found rootJSONPath -> Hne. rewrite last_snoc.
  assert (truthy (Some rootJSONPath) = true) as ->; [|done].
  simpl. by destruct (String.eqb_spec rootJSONPath "").
Qed.

(** A workspace whose member /work/packages/site and whose root /work both
    hold a package.json that cannot be parsed: the reading fails, and
    [jsWorkspaceRoot] is /work. *)
Lemma root_package_json_witness :
  let f := files_of None None ["/work/packages/site"; "/work"] (Failed "SyntaxError") in
  let r := getRootPackageJSON f (proj fresh_state) (@new_Fields unit) in
  r.1.1 = Failed "SyntaxError" ∧ jsWorkspaceRoot r.1.2 = Some "/work".
Proof.
  intros f r.
  destruct (root_package_json f (proj fresh_state) (@new_Fields unit)) as [Hfound _].
  subst r.
  rewrite (Hfound ["/work/packages/site/package.json"] "/work/package.json");
    [|reflexivity|done].
  split; reflexivity.
Defined.

(** * The commits of a range *)

Section Split.
Import Commits.

Lemma split_free sep s : has_char sep s = false → fields sep s = (s, []).
Proof.
  induction s as [|c s IH]; simpl; [done|].
  destruct (Ascii.eqb c sep); simpl; [done|]. intros Hs. by rewrite IH.
Qed.

Lemma fields_app sep s t :
  has_char sep s = false →
  fields sep (s ++ String sep t)
  = (s, (fields sep t).1 :: (fields sep t).2).
Proof.
  induction s as [|c s IH]; simpl.
  - intros _. rewrite Ascii.eqb_refl. by destruct (fields sep t).
  - destruct (Ascii.eqb c sep); simpl; [done|]. intros Hs. by rewrite IH.
Qed.

Lemma split_eq sep s : split sep s = (fields sep s).1 :: (fields sep s).2.
Proof. unfold split. by destruct (fields sep s). Qed.

Lemma join_cons sep x y l :
  join sep (x :: y :: l) = (x ++ String sep (join sep (y :: l)))%string.
Proof. done. Qed.

(** Fields that hold no separator are what splitting finds in their join. *)
Lemma split_join sep x l :
  Forall (fun f => has_char sep f = false) (x :: l) →
  split sep (join sep (x :: l)) = x :: l.
Proof.
  revert x. induction l as [|y l IH]; intros x Hall.
  - apply Forall_cons in Hall as [Hx _]. rewrite split_eq. simpl.
    by rewrite split_free.
  - apply Forall_cons in Hall as [Hx Hall].
    rewrite split_eq, join_cons, fields_app by done. cbn [fst snd].
    by rewrite <- split_eq, IH.
Qed.

Lemma split_length sep s : length (split sep s) = S (count_char sep s).
Proof.
  unfold split. induction s as [|c s IH]; simpl; [done|].
  destruct (fields sep s) as [first others].
  destruct (Ascii.eqb c sep); simpl in *; lia.
Qed.

Lemma has_char_join c sep l :
  c ≠ sep → Forall (fun f => has_char c f = false) l →
  has_char c (join sep l) = false.
Proof.
  intros Hne. induction 1 as [|x l Hx Hl IH]; [done|].
  destruct l as [|y l]; [done|]. cbn [join].
  clear Hl. induction x as [|c' x IHx]; simpl in *.
  - apply Ascii.eqb_neq in Hne. rewrite Ascii.eqb_sym in Hne. by rewrite Hne.
  - apply orb_false_iff in Hx as [-> Hx]. simpl. by apply IHx.
Qed.
(** A line printed for a commit is parsed to that commit. *)
Lemma getCommit_printed (v : string → string) :
  printable v → getCommit (printed v) = commit_of v.
Proof.
  intros Hv. unfold getCommit, printed.
  change (v <$> placeholders) with (v "%H" :: (v <$> tail placeholders)).
  rewrite split_join; [done|].
  change (v "%H" :: (v <$> tail placeholders)) with (v <$> placeholders).
  apply Forall_fmap. eapply Forall_impl; [exact Hv|]. by intros ph [? _].
Qed.

Lemma printed_one_line (v : string → string) :
  printable v → has_char newline (printed v) = false.
Proof.
  intros Hv. unfold printed. apply has_char_join; [done|].
  apply Forall_fmap. eapply Forall_impl; [exact Hv|]. by intros ph [_ ?].
Qed.

Lemma getCommit_lines (l : list (string → string)) :
  Forall printable l → map getCommit (printed <$> l) = commit_of <$> l.
Proof.
  induction 1 as [|v l Hv _ IH]; [done|].
  rewrite !fmap_cons. cbn [map]. f_equal; [by apply getCommit_printed|exact IH].
Qed.
End Split.

(** X11: parsing inverts printing. When [git log] prints commits whose
    values (hash, parents, names, e-mail addresses, dates, subject) hold
    neither the record separator nor a newline, one line for each and a
    newline between two lines, [getCommits] returns these commits, in the
    order printed, every field being the value printed for it. *)
Theorem commits_round_trip {C} (git : list string → C → Outcome string)
    (base head : string) (cwd : C) (c : string → string)
    (cs : list (string → string)) :
  Forall Commits.printable (c :: cs) →
  git ["log"; ("--pretty=" ++ Commits.GIT_PRETTY_FORMAT)%string;
       (base ++ "..." ++ head)%string] cwd
  = Fulfilled (Commits.join Commits.newline (Commits.printed <$> c :: cs)) →
  Commits.getCommits git base head cwd = Fulfilled (Commits.commit_of <$> c :: cs).
Proof.
  intros Hall Hgit. unfold Commits.getCommits. rewrite Hgit. f_equal.
  rewrite fmap_cons, split_join.
  - rewrite <- fmap_cons. by apply getCommit_lines.
  - rewrite <- fmap_cons. apply Forall_fmap.
    eapply Forall_impl; [exact Hall|]. intros v Hv. by apply printed_one_line.
Qed.

(** One commit printed: it is the one returned. *)
Lemma commits_round_trip_witness :
  Forall Commits.printable [Commits.first_commit]
  ∧ Commits.getCommits (Commits.git_printing (Commits.printed Commits.first_commit))
      "main" "HEAD" tt
    = Fulfilled [Commits.commit_of Commits.first_commit].
Proof.
  assert (Hp : Forall Commits.printable [Commits.first_commit]).
  { repeat constructor. }
  split; [exact Hp|].
  exact (commits_round_trip
           (Commits.git_printing (Commits.printed Commits.first_commit))
           "main" "HEAD" tt Commits.first_commit [] Hp eq_refl).
Defined.

(** X12: [getCommits] returns one commit for every line of the output, an
    empty line included: one more than the output has newlines, never none.
    So when the range holds no commit and [git log] prints nothing, the
    result is not the empty list but one commit whose hash is the empty
    string and whose other fields are [undefined]. *)
Theorem commits_of_no_output {C} (git : list string → C → Outcome string)
    (base head : string) (cwd : C) (stdout : string) :
  git ["log"; ("--pretty=" ++ Commits.GIT_PRETTY_FORMAT)%string;
       (base ++ "..." ++ head)%string] cwd = Fulfilled stdout →
  ∃ commits,
    Commits.getCommits git base head cwd = Fulfilled commits
    ∧ length commits = S (Commits.count_char Commits.newline stdout)
    ∧ (stdout = "" →
       commits = [ {| Commits.sha := Some ""; Commits.parents := None;
                      Commits.author := {| Commits.name := None; Commits.email := None;
                                           Commits.date := None |};
                      Commits.committer := {| Commits.name := None;
                                              Commits.email := None;
                                              Commits.date := None |};
                      Commits.message := None |} ]).
Proof.
  intros Hgit. unfold Commits.getCommits. rewrite Hgit. eexists. split; [done|].
  split; [by rewrite length_map, split_length|]. by intros ->.
Qed.

Lemma commits_of_no_output_witness :
  ∃ commit,
    Commits.getCommits (Commits.git_printing "") "main" "HEAD" tt = Fulfilled [commit]
    ∧ Commits.sha commit = Some "" ∧ Commits.message commit = None.
Proof.
  destruct (commits_of_no_output (Commits.git_printing "") "main" "HEAD" tt ""
              eq_refl) as (commits & Hrun & _ & Hempty).
  rewrite Hrun, (Hempty eq_refl). eexists. split; [reflexivity|]. by split.
Defined.

(** * The example of a validation error *)




(** X14: [getExample] reverses the path it is given, in place: the caller's
    array is left reversed. A second call with the same array therefore
    nests the value the other way round, under the last key first, and
    leaves the array as it was at first. *)
Theorem example_reverses_path (pr : Example.Printer) (value : JsValue) (key : string)
    (prevPath : list Example.Part) (example : Example.ExampleOf) :
  let first := Example.getExample pr value key prevPath example in
  let second := Example.getExample pr value key first.2 example in
  first.2 = reverse prevPath
  ∧ second.2 = prevPath
  ∧ (Example.getInvalidValue pr value prevPath).1
    = Example.serializeValue pr (foldl Example.setInvalidValuePart value (reverse prevPath))
  ∧ (Example.getInvalidValue pr value first.2).1
    = Example.serializeValue pr (foldl Example.setInvalidValuePart value prevPath).
Proof.
  intros first second. subst first second.
  unfold Example.getExample, Example.getInvalidValue. simpl.
  by rewrite reverse_involutive.
Qed.

(** * The integrations of a site *)

Section Integrations_lemmas.
Import Integrations.

Lemma filter_elem {A} (f : A → bool) l x :
  x ∈ List.filter f l ↔ x ∈ l ∧ f x = true.
Proof. by rewrite !list_elem_of_In, List.filter_In. Qed.

Lemma NoDup_fmap_filter {A B} (g : A → B) (f : A → bool) l :
  NoDup (g <$> l) → NoDup (g <$> List.filter f l).
Proof.
  induction l as [|x l IH]; simpl; [done|]. rewrite NoDup_cons. intros [Hx Hl].
  destruct (f x); simpl; [|auto]. apply NoDup_cons. split; [|auto].
  rewrite list_elem_of_fmap. intros (y & Hy & Hin). apply Hx.
  apply list_elem_of_fmap. exists y. split; [done|].
  by apply filter_elem in Hin as [? _].
Qed.

Lemma NoDup_fmap_omap {A B K} (ka : A → K) (kb : B → K) (g : A → option B) l :
  (∀ a b, g a = Some b → kb b = ka a) →
  NoDup (ka <$> l) → NoDup (kb <$> omap g l).
Proof.
  intros Hg. induction l as [|x l IH]; simpl; [done|]. rewrite NoDup_cons.
  intros [Hx Hl]. destruct (g x) as [b|] eqn:Hb; simpl; [|auto].
  apply NoDup_cons. split; [|auto].
  rewrite list_elem_of_fmap. intros (y & Hy & Hin). apply Hx.
  apply list_elem_of_omap in Hin as (a & Ha & Hga).
  apply list_elem_of_fmap. exists a. split; [|done].
  by rewrite <- (Hg _ _ Hb), Hy, (Hg _ _ Hga).
Qed.

Lemma listed_slug av n r : listed av n = Some r → slug_of r = n.
Proof.
  unfold listed, find_available. destruct (List.find _ av) as [a|] eqn:Hfind; [|done].
  simpl. intros [= <-]. simpl. apply List.find_some in Hfind as [_ Heq].
  by apply String.eqb_eq.
Qed.

Lemma resolveConfigIntegration_slug api av context c r :
  resolveConfigIntegration api av context c = Some r → slug_of r = name c.
Proof.
  unfold resolveConfigIntegration.
  destruct (dev c) as [| |d]; try apply listed_slug.
  destruct (String.eqb context "dev"); [|apply listed_slug].
  by intros [= <-].
Qed.

Lemma existsb_elem {A} (f : A → bool) l :
  existsb f l = true ↔ ∃ x, x ∈ l ∧ f x = true.
Proof.
  rewrite List.existsb_exists. by setoid_rewrite list_elem_of_In.
Qed.

Lemma forallb_elem {A} (f : A → bool) l :
  forallb f l = true ↔ ∀ x, x ∈ l → f x = true.
Proof.
  rewrite List.forallb_forall. by setoid_rewrite list_elem_of_In.
Qed.

Lemma existsb_false {A} (f : A → bool) l : (∀ x, f x = false) → existsb f l = false.
Proof. intros Hf. induction l as [|x l IH]; simpl; [done|]. by rewrite Hf. Qed.

Lemma filter_all {A} (f : A → bool) l :
  (∀ x, x ∈ l → f x = true) → List.filter f l = l.
Proof.
  induction l as [|x l IH]; intros Hf; simpl; [done|].
  rewrite Hf by (by left). f_equal. apply IH. intros y Hy. apply Hf. by right.
Qed.
End Integrations_lemmas.

(** X15: no integration enabled on the site is lost: whatever the
    configuration file names and whatever context the build runs in, every
    slug of the integrations of the API is the slug of an integration of
    the result. *)
Theorem enabled_integrations_stay {T}
    (getAvailableIntegrations : T → bool → Outcome (list Integrations.Available.t))
    (no_options : T) (configIntegrations : option (list Integrations.ConfigIntegration))
    (apiIntegrations : list Integrations.IntegrationResponse)
    (context : string) (testOpts : option T) (offline : bool)
    (merged : list Integrations.Integration) :
  Integrations.mergeIntegrations getAvailableIntegrations no_options configIntegrations
    apiIntegrations context testOpts offline = Fulfilled merged →
  ∀ a, a ∈ apiIntegrations →
    Integrations.slug a ∈ Integrations.slug_of <$> merged.
Proof.
  unfold Integrations.mergeIntegrations.
  destruct (getAvailableIntegrations _ offline) as [av|e]; [|done].
  intros [= <-] a Ha. rewrite fmap_app, elem_of_app.
  match goal with |- context [List.filter ?f apiIntegrations] =>
    destruct (f a) eqn:Hkept end.
  - left. apply list_elem_of_fmap. exists (Integrations.Response a).
    split; [done|]. apply list_elem_of_In, List.in_map, list_elem_of_In.
    by apply filter_elem.
  - right. apply negb_false_iff, existsb_elem in Hkept as (c & Hc & Hcond).
    apply andb_true_iff in Hcond as [Hcond Hdev].
    apply andb_true_iff in Hcond as [Hname Hdef].
    apply String.eqb_eq in Hname.
    assert (∃ d, Integrations.dev c = Integrations.DevTable d) as [d Hd].
    { unfold Integrations.dev_defined in Hdef.
      destruct (Integrations.dev c); try done. eauto. }
    match goal with |- context [omap ?g _] =>
      assert (∃ r, g c = Some r) as [r Hr] end.
    { unfold Integrations.resolveConfigIntegration. rewrite Hd, Hdev. eauto. }
    apply list_elem_of_fmap. exists r. split.
    + apply resolveConfigIntegration_slug in Hr. congruence.
    + apply list_elem_of_omap. exists c. split; [|done].
      apply filter_elem. split; [done|]. apply orb_true_iff. right.
      unfold Integrations.has_dev. by rewrite Hd, Hdev.
Qed.

(** In the dev context the analytics of the API give way to the local
    ones: the slug stays. *)
Lemma enabled_integrations_stay_witness :
  ∃ merged,
    Integrations.mergeIntegrations Integrations.site_api tt
      (Some [Integrations.local_analytics; Integrations.forms])
      [Integrations.analytics] "dev" None false = Fulfilled merged
    ∧ "analytics" ∈ Integrations.slug_of <$> merged
    ∧ Integrations.Response Integrations.analytics ∉ merged.
Proof.
  eexists. split; [reflexivity|]. split.
  - apply (enabled_integrations_stay Integrations.site_api tt
             (Some [Integrations.local_analytics; Integrations.forms])
             [Integrations.analytics] "dev" None false _ eq_refl
             Integrations.analytics).
    by left.
  - intros Hin. cbn in Hin.
    repeat (apply elem_of_cons in Hin as [Heq|Hin]; [discriminate Heq|]).
    by apply elem_of_nil in Hin.
Defined.

(** X16: the result names every integration once. When the integrations of
    the API have slugs that differ, the integrations of the configuration
    file names that differ, and none of these has a [dev] property that is
    [undefined], no two integrations of the result have the same slug: an
    integration that both lists name comes from one of them only. *)
Theorem merged_integrations_differ {T}
    (getAvailableIntegrations : T → bool → Outcome (list Integrations.Available.t))
    (no_options : T) (configIntegrations : list Integrations.ConfigIntegration)
    (apiIntegrations : list Integrations.IntegrationResponse)
    (context : string) (testOpts : option T) (offline : bool)
    (merged : list Integrations.Integration) :
  NoDup (Integrations.slug <$> apiIntegrations) →
  NoDup (Integrations.name <$> configIntegrations) →
  Forall (fun c => Integrations.dev c ≠ Integrations.DevUndefined) configIntegrations →
  Integrations.mergeIntegrations getAvailableIntegrations no_options
    (Some configIntegrations) apiIntegrations context testOpts offline
  = Fulfilled merged →
  NoDup (Integrations.slug_of <$> merged).
Proof.
  intros Hapi Hconfig Hdev. unfold Integrations.mergeIntegrations.
  destruct (getAvailableIntegrations _ offline) as [av|e]; [|done].
  intros [= <-]. simpl. rewrite fmap_app. apply NoDup_app. split; [|split].
  - change (map Integrations.Response) with (fmap (M := list) Integrations.Response).
    rewrite <- list_fmap_compose. by apply NoDup_fmap_filter.
  - intros s Hs Hs'.
    change (map Integrations.Response) with (fmap (M := list) Integrations.Response) in Hs.
    rewrite <- list_fmap_compose in Hs.
    apply list_elem_of_fmap in Hs as (a & -> & Ha).
    apply filter_elem in Ha as [Ha Hkept].
    apply list_elem_of_fmap in Hs' as (r & Hr & Hin).
    apply list_elem_of_omap in Hin as (c & Hc & Hres).
    apply resolveConfigIntegration_slug in Hres. simpl in Hr.
    rewrite Hres in Hr. apply filter_elem in Hc as [Hc Hcond].
    apply orb_true_iff in Hcond as [Hnone|Hlocal].
    + pose proof (proj1 (forallb_elem _ _) Hnone a Ha) as Hne.
      apply negb_true_iff, String.eqb_neq in Hne. done.
    + apply andb_true_iff in Hlocal as [Hhas Hctx].
      apply negb_true_iff in Hkept.
      assert (Hex : existsb
                (fun c0 => String.eqb (Integrations.name c0) (Integrations.slug a)
                           && Integrations.dev_defined c0 && String.eqb context "dev")
                configIntegrations = true); [|congruence].
      apply existsb_elem. exists c. split; [done|].
      rewrite Hctx, andb_true_r. apply andb_true_iff. split.
      * apply String.eqb_eq. done.
      * eapply Forall_forall in Hdev; [|exact Hc].
        unfold Integrations.has_dev, Integrations.dev_defined in *.
        by destruct (Integrations.dev c).
  - eapply (NoDup_fmap_omap Integrations.name).
    + intros c r. apply resolveConfigIntegration_slug.
    + by apply NoDup_fmap_filter.
Qed.

(** The site of the examples, in the dev context: two integrations, two
    slugs. *)
Lemma merged_integrations_differ_witness :
  ∃ merged,
    Integrations.mergeIntegrations Integrations.site_api tt
      (Some [Integrations.local_analytics; Integrations.forms])
      [Integrations.analytics] "dev" None false = Fulfilled merged
    ∧ Integrations.slug_of <$> merged = ["analytics"; "forms"]
    ∧ NoDup (Integrations.slug_of <$> merged).
Proof.
  eexists. split; [reflexivity|]. split; [reflexivity|].
  apply (merged_integrations_differ Integrations.site_api tt
           [Integrations.local_analytics; Integrations.forms]
           [Integrations.analytics] "dev" None false _).
  - apply (bool_decide_unpack _). vm_compute. reflexivity.
  - apply (bool_decide_unpack _). vm_compute. reflexivity.
  - repeat constructor; done.
  - reflexivity.
Defined.

(** X17: outside the dev context a [dev] table changes nothing. The result
    is the integrations of the API, all of them and in their order,
    followed by the integrations the configuration file names that the API
    does not have and that are available to the site, each as the list of
    available integrations describes it; an integration the file names
    that the API has too, or that is not available, is left out. *)
Theorem merged_outside_dev {T}
    (getAvailableIntegrations : T → bool → Outcome (list Integrations.Available.t))
    (no_options : T) (configIntegrations : option (list Integrations.ConfigIntegration))
    (apiIntegrations : list Integrations.IntegrationResponse)
    (context : string) (testOpts : option T) (offline : bool) :
  context ≠ "dev" →
  Integrations.mergeIntegrations getAvailableIntegrations no_options configIntegrations
    apiIntegrations context testOpts offline
  = match getAvailableIntegrations (default no_options testOpts) offline with
    | Fulfilled availableIntegrations =>
        Fulfilled
          (map Integrations.Response apiIntegrations
           ++ omap (fun c =>
                      if decide (Integrations.name c
                                 ∈ Integrations.slug <$> apiIntegrations)
                      then None
                      else Integrations.listed availableIntegrations
                             (Integrations.name c))
                (default [] configIntegrations))
    | Failed e => Failed e
    end.
Proof.
  intros Hctx. apply String.eqb_neq in Hctx.
  unfold Integrations.mergeIntegrations. rewrite Hctx.
  destruct (getAvailableIntegrations _ offline) as [av|e]; [|done].
  set (cfg := default [] configIntegrations). clearbody cfg.
  f_equal. f_equal.
  - f_equal. apply filter_all. intros a _. apply negb_true_iff, existsb_false.
    intros c. apply andb_false_r.
  - induction cfg as [|c cs IH]; [done|]. simpl.
    rewrite andb_false_r, orb_false_r.
    destruct (forallb _ apiIntegrations) eqn:Hall.
    + cbn [omap list_omap]. rewrite IH.
      rewrite decide_False.
      2:{ rewrite list_elem_of_fmap. intros (a & Ha & Hin).
          pose proof (proj1 (forallb_elem _ _) Hall a Hin) as Hne.
          apply negb_true_iff, String.eqb_neq in Hne. done. }
      unfold Integrations.resolveConfigIntegration. rewrite Hctx.
      by destruct (Integrations.dev c).
    + rewrite IH. cbn [omap list_omap]. rewrite decide_True; [done|].
      apply not_true_iff_false in Hall. rewrite forallb_elem in Hall.
      apply list_elem_of_fmap.
      destruct (decide (Exists (fun a => Integrations.slug a = Integrations.name c)
                          apiIntegrations)) as [Hex|Hnex].
      * apply Exists_exists in Hex as (a & Ha & Heq). eauto.
      * exfalso. apply Hall. intros a Ha. apply negb_true_iff, String.eqb_neq.
        intros Heq. apply Hnex, Exists_exists. eauto.
Qed.

(** In a production build the local analytics are left out, the API having
    analytics, and the forms are added. *)
Lemma merged_outside_dev_witness :
  "production" ≠ "dev"
  ∧ Integrations.slug_of <$>
      match Integrations.mergeIntegrations Integrations.site_api tt
              (Some [Integrations.local_analytics; Integrations.forms])
              [Integrations.analytics] "production" None false with
      | Fulfilled merged => merged
      | Failed _ => []
      end
    = ["analytics"; "forms"].
Proof.
  split; [done|].
  by rewrite (merged_outside_dev Integrations.site_api tt
                (Some [Integrations.local_analytics; Integrations.forms])
                [Integrations.analytics] "production" None false).
Defined.

Lemma NoDup_fmap_elem {A B} (f : A → B) l x y :
  NoDup (f <$> l) → x ∈ l → y ∈ l → f x = f y → x = y.
Proof.
  induction l as [|z l IH]; simpl; [by intros _ Hx; apply elem_of_nil in Hx|].
  rewrite NoDup_cons, !elem_of_cons. intros [Hz Hl] [->|Hx] [->|Hy] Heq; auto.
  - exfalso. apply Hz. rewrite Heq. apply list_elem_of_fmap. eauto.
  - exfalso. apply Hz. rewrite <- Heq. apply list_elem_of_fmap. eauto.
Qed.

(** X18: in the dev context an integration the configuration file names
    with a [dev] table is always in the result, as the file has it and
    under its name as slug, and where the names of the file differ it is
    the only integration of the result with that slug: it takes the place
    of the integration of the API. Its version is [undefined] when the
    table gives a path; whether it has a build is what the API says of the
    integration of that slug, else what [force_run_in_build] says, else
    no. *)
Theorem local_integration_wins {T}
    (getAvailableIntegrations : T → bool → Outcome (list Integrations.Available.t))
    (no_options : T) (configIntegrations : list Integrations.ConfigIntegration)
    (apiIntegrations : list Integrations.IntegrationResponse)
    (testOpts : option T) (offline : bool)
    (merged : list Integrations.Integration)
    (c : Integrations.ConfigIntegration) (d : Integrations.Dev) :
  Integrations.mergeIntegrations getAvailableIntegrations no_options
    (Some configIntegrations) apiIntegrations "dev" testOpts offline
  = Fulfilled merged →
  c ∈ configIntegrations →
  Integrations.dev c = Integrations.DevTable d →
  ∃ r, Integrations.Configured c r ∈ merged
     ∧ Integrations.slug r = Integrations.name c
     ∧ (Integrations.path d ≠ "" → Integrations.version r = None)
     ∧ Integrations.has_build r
       = Some (match List.find (fun a => String.eqb (Integrations.slug a)
                                           (Integrations.name c))
                       apiIntegrations ≫= Integrations.has_build with
               | Some b => b
               | None => default false (Integrations.force_run_in_build d)
               end)
     ∧ (NoDup (Integrations.name <$> configIntegrations) →
        ∀ i, i ∈ merged → Integrations.slug_of i = Integrations.name c →
          i = Integrations.Configured c r).
Proof.
  unfold Integrations.mergeIntegrations.
  destruct (getAvailableIntegrations _ offline) as [av|e]; [|done].
  intros [= <-] Hc Hd. simpl.
  match goal with |- context [omap ?g _] =>
    assert (∃ r, g c = Some (Integrations.Configured c r)
               ∧ Integrations.slug r = Integrations.name c
               ∧ (Integrations.path d ≠ "" → Integrations.version r = None)
               ∧ Integrations.has_build r
                 = Some (match List.find (fun a => String.eqb (Integrations.slug a)
                                                     (Integrations.name c))
                                 apiIntegrations ≫= Integrations.has_build with
                         | Some b => b
                         | None => default false (Integrations.force_run_in_build d)
                         end))
      as (r & Hr & Hslug & Hversion & Hbuild) end.
  { unfold Integrations.resolveConfigIntegration. rewrite Hd. simpl.
    eexists. split; [done|]. split; [done|]. split; [|done].
    simpl. intros Hpath. by destruct (String.eqb_spec (Integrations.path d) ""). }
  exists r. split; [|split; [done|split; [done|split; [done|]]]].
  - apply elem_of_app. right. apply list_elem_of_omap. exists c. split; [|done].
    apply filter_elem. split; [done|]. apply orb_true_iff. right.
    unfold Integrations.has_dev. by rewrite Hd.
  - intros Hnd i Hin Hi. apply elem_of_app in Hin as [Hin|Hin].
    + exfalso. apply list_elem_of_In, List.in_map_iff in Hin as (a & <- & Hin).
      apply list_elem_of_In, filter_elem in Hin as [_ Hkept].
      apply negb_true_iff in Hkept. simpl in Hi.
      assert (Hex : existsb
                (fun c0 => String.eqb (Integrations.name c0) (Integrations.slug a)
                           && Integrations.dev_defined c0 && true)
                configIntegrations = true); [|congruence].
      apply existsb_elem. exists c. split; [done|].
      rewrite andb_true_r. apply andb_true_iff. split.
      * by apply String.eqb_eq.
      * unfold Integrations.dev_defined. by rewrite Hd.
    + apply list_elem_of_omap in Hin as (c' & Hc' & Hres).
      apply filter_elem in Hc' as [Hc' _].
      pose proof (resolveConfigIntegration_slug _ _ _ _ _ Hres) as Hslug'.
      assert (c' = c) as ->.
      { eapply (NoDup_fmap_elem Integrations.name); [exact Hnd|done..|congruence]. }
      congruence.
Qed.

(** The local analytics take the place of the analytics of the API; given
    with a path, they have no version, and they build as the API says. *)
Lemma local_integration_wins_witness :
  ∃ merged r,
    Integrations.mergeIntegrations Integrations.site_api tt
      (Some [Integrations.local_analytics; Integrations.forms])
      [Integrations.analytics] "dev" None false = Fulfilled merged
    ∧ Integrations.Configured Integrations.local_analytics r ∈ merged
    ∧ Integrations.version r = None
    ∧ Integrations.has_build r = Some true.
Proof.
  eexists.
  destruct (local_integration_wins Integrations.site_api tt
              [Integrations.local_analytics; Integrations.forms]
              [Integrations.analytics] None false _
              Integrations.local_analytics
              {| Integrations.path := "../analytics";
                 Integrations.force_run_in_build := None |} eq_refl)
    as (r & Hin & _ & Hversion & Hbuild & _); [by left|done|].
  exists r. split; [reflexivity|]. split; [exact Hin|].
  split; [by apply Hversion|exact Hbuild].
Defined.
